(** * Pokemon Battle Arena: the AI core, embedded and verified

    A shallow embedding of the decision-making core of the game:
    - [models.py]: [Pokemon], [Agent], [BattleState], [BattleAction];
    - [utils.py]: [FuzzyLogic] and the [astar] path finder;
    - [phase_3.py]: [computedamage] and [stepbattle_simulation];
    - [team_rocket_ai_agent.py]: [evalstate], [legalactions], [cloneagent]
      and [decide_action];
    - [phase_2.py]: [buylogic], the purchase of elixirs;
    - [main.py]: [genobstacles] and the grid of [initgame].

    Conventions of the embedding.
    - Python [int] is [Z]; [str] is [string]; a [dict] is a [gmap].
    - Python [float] is idealised as an exact rational ([Q]).  The sentinels
      [-1e9] and [1e9] of the search are integral floats and Python compares
      [int] with [float] exactly, so the search values live in [Z].
    - A call that raises ([IndexError], [ZeroDivisionError], [KeyError])
      returns [None].  [OverflowError], which Python raises when an integer
      is too large for a float, has no counterpart on the rationals: a
      statement that says a call returns bounds the integers that reach a
      float operation.
    - [random.uniform] and [random.shuffle] are read from explicit oracles,
      and so is the iteration order of the open set of [astar].
    - Where the identity of objects matters (the clones of [decide_action]),
      agents, creatures, lists and dicts live in an explicit store
      ([Store]). *)

From Stdlib Require Import ZArith QArith Qround Lia Lqa Bool.
From stdpp Require Import gmap strings list fin_maps.

Local Open Scope Z_scope.

(** ** models.py *)

Module Models.

(** The dataclass [Pokemon].  The fields [displayhp] and [boboffset] only
    drive the HP-bar animation ([Pokemon.update]) and are left out. *)
Record Pokemon := mkPokemon {
  name : string;
  ptype : string;
  maxhp : Z;
  hp : Z;
  atk : Z;
  dfn : Z;
  alive : bool
}.

Definition set_hp (p : Pokemon) (h : Z) : Pokemon :=
  mkPokemon (name p) (ptype p) (maxhp p) h (atk p) (dfn p) (alive p).

Definition set_alive (p : Pokemon) (a : bool) : Pokemon :=
  mkPokemon (name p) (ptype p) (maxhp p) (hp p) (atk p) (dfn p) a.

(** [Pokemon.takedamage]:
<<
    if not self.alive: return
    self.hp = max(0, self.hp - dmg)
    if self.hp == 0: self.alive = False
>> *)
Definition takedamage (p : Pokemon) (dmg : Z) : Pokemon :=
  if negb (alive p) then p
  else
    let p1 := set_hp p (Z.max 0 (hp p - dmg)) in
    if hp p1 =? 0 then set_alive p1 false else p1.

(** [Pokemon.heal]:
<<
    if not self.alive: return
    self.hp = min(self.maxhp, self.hp + amt)
>> *)
Definition heal (p : Pokemon) (amt : Z) : Pokemon :=
  if negb (alive p) then p
  else set_hp p (Z.min (maxhp p) (hp p + amt)).

(** A call of one of the two health mutators, and a sequence of them. *)
Inductive call := TakeDamage (dmg : Z) | Heal (amt : Z).

Definition amount (c : call) : Z :=
  match c with TakeDamage d => d | Heal a => a end.

Definition do_call (p : Pokemon) (c : call) : Pokemon :=
  match c with
  | TakeDamage d => takedamage p d
  | Heal a => heal p a
  end.

Definition run_calls (cs : list call) (p : Pokemon) : Pokemon :=
  fold_left do_call cs p.

(** The data-model invariant of a creature: [hp] within [0, maxhp] and
    [alive] false exactly at [hp = 0]. *)
Definition hp_in_range (p : Pokemon) : Prop := 0 <= hp p <= maxhp p.

Definition alive_iff_hp (p : Pokemon) : Prop := alive p = false <-> hp p = 0.

Definition wf_pokemon (p : Pokemon) : Prop := hp_in_range p /\ alive_iff_hp p.

(** [Pokemon(name, ptype)] with the dataclass defaults. *)
Definition default_pokemon (n t : string) : Pokemon :=
  mkPokemon n t 100 100 22 10 true.

(** The dataclass [Agent].  The fields of the catching phase ([position],
    [targetpos], [current_path], [path_index]) play no part in a battle and
    are left out. *)
Record Agent := mkAgent {
  aname : string;
  team : list Pokemon;
  coins : Z;
  fuel : Z;
  elixirs : gmap string Z
}.

Definition set_team (a : Agent) (t : list Pokemon) : Agent :=
  mkAgent (aname a) t (coins a) (fuel a) (elixirs a).

Definition set_elixirs (a : Agent) (e : gmap string Z) : Agent :=
  mkAgent (aname a) (team a) (coins a) (fuel a) e.

Record BattleState := mkBattleState {
  fieldtype : string;
  ashactive : Z;
  rocketactive : Z
}.

Inductive BActEnum := ATTACK | DEFEND | SWAP | HEAL.

(** [arg: Optional[Union[int, str]]] *)
Inductive ActArg := ArgNone | ArgInt (i : Z) | ArgStr (s : string).

Record BattleAction := mkAction {
  kind : BActEnum;
  arg : ActArg
}.

(** [BattleAction(BActEnum.ATTACK)] and [BattleAction(BActEnum.DEFEND)] *)
Definition ATTACK_act : BattleAction := mkAction ATTACK ArgNone.
Definition DEFEND_act : BattleAction := mkAction DEFEND ArgNone.

Definition is_kind (k1 k2 : BActEnum) : bool :=
  match k1, k2 with
  | ATTACK, ATTACK | DEFEND, DEFEND | SWAP, SWAP | HEAL, HEAL => true
  | _, _ => false
  end.

End Models.

Import Models.

(** ** config.py *)

Module Config.

Definition GRIDW : Z := 24.
Definition GRIDH : Z := 11.

(** [TYPEADV]: the three directed advantage edges, each worth 1.3. *)
Definition TYPEADV : gmap (string * string) Q :=
  list_to_map
    [ (("Fire", "Electric")%string, 13 # 10);
      (("Electric", "Water")%string, 13 # 10);
      (("Water", "Fire")%string, 13 # 10) ].

Definition FIELDBOOST : Q := 12 # 10.

(** [ELIXIRS]: tier name to (heal amount, price). *)
Definition ELIXIRS : gmap string (Z * Z) :=
  list_to_map
    [ ("Small"%string, (25, 15)); ("Medium"%string, (50, 30));
      ("Large"%string, (80, 50)) ].

Definition DIRS : list (Z * Z) := [(1, 0); (-1, 0); (0, 1); (0, -1)].

(** [(a, b) in TYPEADV] *)
Definition in_TYPEADV (a b : string) : bool :=
  match TYPEADV !! (a, b) with Some _ => true | None => false end.

End Config.

Import Config.

(** ** Python built-ins on numbers and lists *)

Module Py.

(** [min(a, b)] returns [a] unless [b < a]. *)
Definition min2 (a b : Q) : Q := if Qlt_le_dec b a then b else a.

(** [max(a, b, c, d)] keeps the first maximal argument. *)
Definition max2 (best x : Q) : Q := if Qlt_le_dec best x then x else best.
Definition max4 (a b c d : Q) : Q := max2 (max2 (max2 a b) c) d.

(** [round(x)] on a float: to the nearest integer, ties to even. *)
Definition round (x : Q) : Z :=
  let f := Qfloor x in
  let d := (x - inject_Z f)%Q in
  match (d ?= 1 # 2)%Q with
  | Lt => f
  | Gt => f + 1
  | Eq => if Z.even f then f else f + 1
  end.

(** [int(x)] on a float truncates toward zero. *)
Definition int (x : Q) : Z :=
  if Qlt_le_dec x 0 then Qceiling x else Qfloor x.

(** [l[i]] with Python's negative indices; [None] is [IndexError]. *)
Definition index {A} (l : list A) (i : Z) : option A :=
  if 0 <=? i then l !! Z.to_nat i
  else if - Z.of_nat (length l) <=? i then l !! Z.to_nat (Z.of_nat (length l) + i)
  else None.

(** The position [l[i]] refers to, when there is one. *)
Definition position {A} (l : list A) (i : Z) : option nat :=
  if 0 <=? i then
    if i <? Z.of_nat (length l) then Some (Z.to_nat i) else None
  else if - Z.of_nat (length l) <=? i then Some (Z.to_nat (Z.of_nat (length l) + i))
  else None.

(** [for i, p in enumerate(l): if P(i, p): ...; break]: the first hit. *)
Fixpoint find_from {A} (P : Z -> A -> bool) (i : Z) (l : list A) : option Z :=
  match l with
  | [] => None
  | x :: r => if P i x then Some i else find_from P (i + 1) r
  end.

Definition find_index {A} (P : Z -> A -> bool) (l : list A) : option Z :=
  find_from P 0 l.

End Py.

(** ** utils.py: FuzzyLogic *)

Module FuzzyLogic.

Local Open Scope Q_scope.

Definition membership_low (value : Q) (min_val max_val : Q) : Q :=
  if Qle_bool value min_val then 1
  else if Qle_bool max_val value then 0
  else (max_val - value) / (max_val - min_val).

Definition membership_medium (value : Q) (low mid high : Q) : Q :=
  if Qle_bool value low || Qle_bool high value then 0
  else if Qeq_bool value mid then 1
  else if Qle_bool mid value then (high - value) / (high - mid)
  else (value - low) / (mid - low).

Definition membership_high (value : Q) (min_val max_val : Q) : Q :=
  if Qle_bool max_val value then 1
  else if Qle_bool value min_val then 0
  else (value - min_val) / (max_val - min_val).

Definition should_heal (pokemon_hp_percent : Q) (has_elixir : bool)
    (enemy_hp_percent : Q) : Q :=
  if negb has_elixir then 0
  else
    let hp_low := membership_low pokemon_hp_percent 20 50 in
    let hp_medium := membership_medium pokemon_hp_percent 30 50 70 in
    let hp_high := membership_high pokemon_hp_percent 60 80 in
    let enemy_low := membership_low enemy_hp_percent 20 50 in
    let enemy_high := membership_high enemy_hp_percent 50 80 in
    let rule1 := Py.min2 hp_low (1 - enemy_low) * (9 # 10) in
    let rule2 := Py.min2 hp_medium enemy_high * (6 # 10) in
    let rule3 := hp_high * 0 in
    let rule4 := Py.min2 hp_low enemy_low * (4 # 10) in
    Py.max4 rule1 rule2 rule3 rule4.

Definition should_swap (active_type enemy_type : string)
    (bench_has_advantage : bool) (active_hp_percent : Q) : Q :=
  if negb bench_has_advantage then 0
  else
    let has_disadvantage : Q :=
      if in_TYPEADV enemy_type active_type then 1 else 0 in
    let hp_critical := membership_low active_hp_percent 10 30 in
    let hp_low := membership_low active_hp_percent 20 50 in
    let hp_high := membership_high active_hp_percent 50 80 in
    let rule1 := Py.min2 hp_critical has_disadvantage * (95 # 100) in
    let rule2 := Py.min2 hp_low has_disadvantage * (75 # 100) in
    let rule3 := has_disadvantage * (5 # 10) in
    let rule4 := Py.min2 hp_high (1 - has_disadvantage) * 0 in
    Py.max4 rule1 rule2 rule3 rule4.

End FuzzyLogic.

(** ** utils.py: the A* path finder *)

Module Astar.

(** [Grid = List[List[int]]] is [list (list Z)], indexed [grid[y][x]];
    1 is an obstacle. *)

Definition inbounds (c : Z * Z) : bool :=
  (0 <=? c.1) && (c.1 <? GRIDW) && (0 <=? c.2) && (c.2 <? GRIDH).

Definition manhattan (a b : Z * Z) : Z := Z.abs (a.1 - b.1) + Z.abs (a.2 - b.2).

(** [grid[ny][nx] == 1], for non-negative indices; [None] is [IndexError]. *)
Definition blocked (grid : list (list Z)) (c : Z * Z) : option bool :=
  match grid !! Z.to_nat c.2 with
  | None => None
  | Some row =>
      match row !! Z.to_nat c.1 with
      | None => None
      | Some v => Some (v =? 1)
      end
  end.

(** The default [1e9] of [g.get(n, 1e9)] and [f.get(n, 1e9)]. *)
Definition BIG : Z := 10 ^ 9.

Definition get (m : gmap (Z * Z) Z) (n : Z * Z) : Z := default BIG (m !! n).

(** The four dictionaries and sets of the search. *)
Record State := mkState {
  openset : gset (Z * Z);
  came : gmap (Z * Z) (Z * Z);
  g : gmap (Z * Z) Z;
  f : gmap (Z * Z) Z
}.

(** The body of [for dx, dy in DIRS:] for one direction. *)
Definition relax (grid : list (list Z)) (goal current : Z * Z) (st : State) (d : Z * Z)
    : option State :=
  let n := (current.1 + d.1, current.2 + d.2) in
  if negb (inbounds n) then Some st
  else
    match blocked grid n with
    | None => None
    | Some true => Some st
    | Some false =>
        let tentative := get (g st) current + 1 in
        if tentative <? get (g st) n then
          Some (mkState ({[ n ]} ∪ openset st)
                  (<[n := current]> (came st))
                  (<[n := tentative]> (g st))
                  (<[n := tentative + manhattan n goal]> (f st)))
        else Some st
    end.

Fixpoint relax_all (grid : list (list Z)) (goal current : Z * Z) (st : State)
    (dirs : list (Z * Z)) : option State :=
  match dirs with
  | [] => Some st
  | d :: rest =>
      match relax grid goal current st d with
      | None => None
      | Some st' => relax_all grid goal current st' rest
      end
  end.

(** [while current in came: current = came[current]; path.append(current)] *)
Fixpoint follow (fuel : nat) (came : gmap (Z * Z) (Z * Z)) (current : Z * Z)
    (path : list (Z * Z)) : option (list (Z * Z)) :=
  match came !! current with
  | None => Some path
  | Some prev =>
      match fuel with
      | O => None
      | S fuel' => follow fuel' came prev (path ++ [prev])
      end
  end.

(** What a call does: it returns a path, raises, or is still running when
    the fuel of the model is spent. *)
Inductive outcome := Returned (path : list (Z * Z)) | Raised | OutOfFuel.

Section Search.

(** [min(openset, key=lambda n: f.get(n, 1e9))] returns the first element of
    least key in the iteration order of the set, which Python does not
    specify: [choose i s fm] is the element taken in the [i]-th iteration. *)
Variable choose : nat -> gset (Z * Z) -> gmap (Z * Z) Z -> Z * Z.

Variable grid : list (list Z).
Variable goal : (Z * Z).

(** The [while openset:] loop; [i] counts the iterations. *)
Fixpoint loop (fuel : nat) (i : nat) (st : State) : outcome :=
  match fuel with
  | O => OutOfFuel
  | S fuel' =>
      if decide (openset st = ∅) then Returned []
      else
        let current := choose i (openset st) (f st) in
        if decide (current = goal) then
          match follow fuel' (came st) current [current] with
          | None => OutOfFuel
          | Some path => Returned (rev path)
          end
        else
          let st1 := mkState (openset st ∖ {[ current ]}) (came st) (g st) (f st) in
          match relax_all grid goal current st1 DIRS with
          | None => Raised
          | Some st2 => loop fuel' (S i) st2
          end
  end.

Definition astar (fuel : nat) (start : Z * Z) : outcome :=
  if decide (start = goal) then Returned [start]
  else
    loop fuel 0
      (mkState {[ start ]} ∅ {[ start := 0 ]} {[ start := manhattan start goal ]}).

End Search.

(** One iteration order: the elements of the set as [elements] lists them. *)
Definition choose_first (i : nat) (s : gset (Z * Z)) (fm : gmap (Z * Z) Z) : Z * Z :=
  match elements s with
  | [] => (0, 0)
  | x :: r => fold_left (fun best y => if get fm y <? get fm best then y else best) r x
  end.

(** What [min] guarantees whatever the iteration order. *)
Definition chooses_min (choose : nat -> gset (Z * Z) -> gmap (Z * Z) Z -> (Z * Z)) : Prop :=
  forall i (s : gset (Z * Z)) fm, s <> ∅ ->
    choose i s fm ∈ s /\ forall y, y ∈ s -> get fm (choose i s fm) <= get fm y.

(** A step of a 4-connected path: to a neighbour that is in bounds and not
    an obstacle. *)
Definition move (grid : list (list Z)) (a b : Z * Z) : Prop :=
  (exists d, d ∈ DIRS /\ b = (a.1 + d.1, a.2 + d.2)) /\
  inbounds b = true /\ blocked grid b = Some false.

(** [p] is a 4-connected path of unblocked cells from [start] to [goal]:
    it begins at [start], ends at [goal], and every cell is followed by a
    neighbour one step away. *)
Fixpoint steps_ok (grid : list (list Z)) (p : list (Z * Z)) : Prop :=
  match p with
  | a :: (b :: _) as rest => move grid a b /\ steps_ok grid rest
  | _ => True
  end.

Definition is_path (grid : list (list Z)) (p : list (Z * Z)) (start goal : Z * Z) : Prop :=
  head p = Some start /\ last p = Some goal /\ steps_ok grid p.

(** Every cell of the playing field. *)
Definition all_cells : list (Z * Z) :=
  x ← seqZ 0 GRIDW; y ← seqZ 0 GRIDH; [(x, y)].

(** The grid has its [GRIDH] rows of [GRIDW] columns. *)
Definition well_shaped (grid : list (list Z)) : Prop :=
  Z.of_nat (length grid) = GRIDH /\
  Forall (fun row => Z.of_nat (length row) = GRIDW) grid.

(** The measure that bounds the iterations of the search: over the cells
    of the field, twice the cost on record (the number of cells when there
    is none), plus one for a cell of the open set. *)
Definition weight (st : State) (n : Z * Z) : Z :=
  2 * match g st !! n with Some v => v | None => GRIDW * GRIDH end
  + (if decide (n ∈ openset st) then 1 else 0).

Definition sum_cells (w : (Z * Z) -> Z) (l : list (Z * Z)) : Z :=
  foldr (fun n acc => w n + acc) 0 l.

Definition potential (st : State) : Z := sum_cells (weight st) all_cells.

(** Fuel that is enough for any search on the field. *)
Definition enough_fuel : nat :=
  Z.to_nat ((2 * (GRIDW * GRIDH) + 1) * (GRIDW * GRIDH) + GRIDW * GRIDH + 1).

End Astar.

(** ** phase_3.py: the battle transition function *)

Module Phase3.

(** The random source: [rng k] is the value of the [k]-th call of
    [random.uniform(0.8, 1.2)]; the cursor [k] is threaded through. *)
Definition Rng := nat -> Q.

(** [computedamage], with the random factor [r] made explicit. *)
Definition computedamage (attacker defender : Pokemon) (fieldtype : string)
    (r : Q) : Z :=
  let base := Z.max 5 (atk attacker - dfn defender / 2) in
  let mult : Q := 1%Q in
  let mult : Q :=
    match TYPEADV !! (ptype attacker, ptype defender) with
    | Some adv => (mult * adv)%Q
    | None => mult
    end in
  let mult : Q :=
    if String.eqb (ptype attacker) fieldtype then (mult * FIELDBOOST)%Q
    else mult in
  let mult : Q := (mult * r)%Q in
  Py.round (inject_Z base * mult)%Q.

(** [l[i] = f(l[i])], the in-place update of the object at index [i]. *)
Definition update_at (l : list Pokemon) (i : Z) (f : Pokemon -> Pokemon)
    : option (list Pokemon) :=
  match Py.position l i with
  | Some n => Some (alter f n l)
  | None => None
  end.

(** The nested function [apply] of [stepbattle_simulation]: the sub-action
    of one side.  [activeidx] stands for the one-cell list [activeidxref]. *)
Definition apply (agent : Agent) (act : BattleAction) (activeidx : Z)
    : option (Agent * Z) :=
  match kind act, arg act with
  | SWAP, ArgInt i =>
      if (0 <=? i) && (i <? Z.of_nat (length (team agent))) then
        match Py.index (team agent) i with
        | Some p => if alive p then Some (agent, i) else Some (agent, activeidx)
        | None => None
        end
      else Some (agent, activeidx)
  | HEAL, ArgStr s =>
      if 0 <? default 0 (elixirs agent !! s) then
        match ELIXIRS !! s with
        | None => None
        | Some (healamt, _) =>
            match update_at (team agent) activeidx (fun p => heal p healamt) with
            | None => None
            | Some t =>
                match elixirs agent !! s with
                | None => None
                | Some n => Some (mkAgent (aname agent) t (coins agent)
                                    (fuel agent) (<[s := n - 1]> (elixirs agent)),
                                  activeidx)
                end
            end
        end
      else Some (agent, activeidx)
  | _, _ => Some (agent, activeidx)
  end.

(** One of the two attack blocks of [stepbattle_simulation]:
<<
    if act.kind == ATTACK and att.team[aidx].alive and dfd.team[didx].alive:
        dmg = computedamage(att.team[aidx], dfd.team[didx], bs.fieldtype)
        if defending: dmg = int(dmg * 0.5)
        dfd.team[didx].takedamage(dmg)
>>
    The result is the defending side and the cursor of the random source. *)
Definition attack_damage (a d : Pokemon) (fieldtype : string) (r : Q)
    (defending : bool) : Z :=
  let dmg := computedamage a d fieldtype r in
  if defending then Py.int (inject_Z dmg * (1 # 2))%Q else dmg.

Definition attack (act : BattleAction) (att dfd : Agent) (aidx didx : Z)
    (fieldtype : string) (defending : bool) (rng : Rng) (k : nat)
    : option (Agent * nat) :=
  if is_kind (kind act) ATTACK then
    match Py.index (team att) aidx with
    | None => None
    | Some a =>
        if alive a then
          match Py.index (team dfd) didx with
          | None => None
          | Some d =>
              if alive d then
                let dmg := attack_damage a d fieldtype (rng k) defending in
                match update_at (team dfd) didx (fun p => takedamage p dmg) with
                | Some t => Some (set_team dfd t, S k)
                | None => None
                end
              else Some (dfd, k)
          end
        else Some (dfd, k)
    end
  else Some (dfd, k).

(** The replacement of a fainted active creature:
<<
    if not agent.team[idx].alive:
        for i, p in enumerate(agent.team):
            if p.alive: idx = i; break
>> *)
Definition advance (agent : Agent) (idx : Z) : option Z :=
  match Py.index (team agent) idx with
  | None => None
  | Some p =>
      if alive p then Some idx
      else Some (default idx (Py.find_index (fun _ q => alive q) (team agent)))
  end.

(** [stepbattle_simulation(ash, rocket, bs, ashact, rocketact)].  The three
    objects are mutated in place; the function returns their new values. *)
Definition stepbattle_simulation (ash rocket : Agent) (bs : BattleState)
    (ashact rocketact : BattleAction) (rng : Rng) (k : nat)
    : option (Agent * Agent * BattleState * nat) :=
  match apply ash ashact (ashactive bs) with
  | None => None
  | Some (ash1, ashidx) =>
  match apply rocket rocketact (rocketactive bs) with
  | None => None
  | Some (rocket1, rocidx) =>
  let ashdef := is_kind (kind ashact) DEFEND in
  let rocdef := is_kind (kind rocketact) DEFEND in
  match attack ashact ash1 rocket1 ashidx rocidx (fieldtype bs) rocdef rng k with
  | None => None
  | Some (rocket2, k1) =>
  match attack rocketact rocket2 ash1 rocidx ashidx (fieldtype bs) ashdef rng k1 with
  | None => None
  | Some (ash2, k2) =>
  match advance ash2 ashidx with
  | None => None
  | Some ashidx' =>
  match advance rocket2 rocidx with
  | None => None
  | Some rocidx' =>
      Some (ash2, rocket2, mkBattleState (fieldtype bs) ashidx' rocidx', k2)
  end end end end end end.

End Phase3.

(** ** team_rocket_ai_agent.py: the search *)

Module Search.

Import Phase3.

(** [sum(p.hp for p in team)] and [sum(1 for p in team if p.alive)] *)
Definition sumhp (t : list Pokemon) : Z := foldr (fun p acc => hp p + acc) 0 t.

Definition countalive (t : list Pokemon) : Z :=
  foldr (fun p acc => (if alive p then 1 else 0) + acc) 0 t.

Definition evalstate (ash rocket : Agent) (bs : BattleState) : Z :=
  let ashhp := sumhp (team ash) in
  let rockethp := sumhp (team rocket) in
  let ashalive := countalive (team ash) in
  let rocketalive := countalive (team rocket) in
  (ashhp - rockethp) + (ashalive - rocketalive) * 30.

(** [(h / m) * 100] on two ints; [None] is [ZeroDivisionError]. *)
Definition percent (h m : Z) : option Q :=
  if m =? 0 then None else Some (inject_Z h / inject_Z m * 100)%Q.

(** [max(l, key=key)]: the first element of maximal key.  Every key is
    computed, so one failing key makes the call fail. *)
Fixpoint max_from {A} (key : A -> option Z) (best : A) (bk : Z) (l : list A)
    : option A :=
  match l with
  | [] => Some best
  | x :: r =>
      match key x with
      | None => None
      | Some kx => if bk <? kx then max_from key x kx r else max_from key best bk r
      end
  end.

Definition max_by_key {A} (key : A -> option Z) (l : list A) : option A :=
  match l with
  | [] => None
  | x :: r => match key x with None => None | Some kx => max_from key x kx r end
  end.

(** [[k for k, v in agent.elixirs.items() if v > 0]] *)
Definition available (e : gmap string Z) : list string :=
  (filter (fun kv => 0 < kv.2) (map_to_list e)).*1.

(** [any(v > 0 for v in agent.elixirs.values())] *)
Definition has_elixir (e : gmap string Z) : bool :=
  existsb (fun kv => 0 <? kv.2) (map_to_list e).

(** [legalactions(agent, activeidx, opppokemon)] *)
Definition legalactions (agent : Agent) (activeidx : Z) (opppokemon : Pokemon)
    : option (list BattleAction) :=
  let acts := [ATTACK_act; DEFEND_act] in
  match Py.index (team agent) activeidx with
  | None => None
  | Some activepoke =>
  let best_swap_idx :=
    Py.find_index
      (fun i p => negb (i =? activeidx) && alive p
                  && in_TYPEADV (ptype p) (ptype opppokemon))
      (team agent) in
  let swap_part : option (list BattleAction) :=
    match best_swap_idx with
    | None => Some acts
    | Some i =>
        match percent (hp activepoke) (maxhp activepoke) with
        | None => None
        | Some hp_percent =>
            let swap_strength :=
              FuzzyLogic.should_swap (ptype activepoke) (ptype opppokemon)
                true hp_percent in
            if Qlt_le_dec (5 # 10) swap_strength
            then Some (acts ++ [mkAction SWAP (ArgInt i)])
            else Some acts
        end
    end in
  match swap_part with
  | None => None
  | Some acts =>
  if has_elixir (elixirs agent) && (hp activepoke <? maxhp activepoke) then
    match percent (hp activepoke) (maxhp activepoke) with
    | None => None
    | Some hp_percent =>
    match percent (hp opppokemon) (maxhp opppokemon) with
    | None => None
    | Some enemy_hp_percent =>
        let heal_strength :=
          FuzzyLogic.should_heal hp_percent true enemy_hp_percent in
        if Qlt_le_dec (4 # 10) heal_strength then
          let avail := available (elixirs agent) in
          match avail with
          | [] => Some acts
          | _ =>
              match max_by_key (fun n => fst <$> ELIXIRS !! n) avail with
              | None => None
              | Some best_elixir =>
                  Some (acts ++ [mkAction HEAL (ArgStr best_elixir)])
              end
          end
        else Some acts
    end end
  else Some acts
  end end.

(** [cloneagent(a)]: a new [Agent] with new [Pokemon] objects and a new
    dictionary, field by field. *)
Definition cloneagent (a : Agent) : Agent :=
  mkAgent (aname a)
    (map (fun p => mkPokemon (name p) (ptype p) (maxhp p) (hp p) (atk p)
                     (dfn p) (alive p)) (team a))
    (coins a) (fuel a) (elixirs a).

(** [all(not p.alive for p in a.team)] *)
Definition all_fainted (a : Agent) : bool := forallb (fun p => negb (alive p)) (team a).

Definition NEG_INF : Z := - 10 ^ 9.
Definition POS_INF : Z := 10 ^ 9.

(** The body of [for act in actions:] in [recurse].  [child i act alpha beta k]
    is the value returned for the [i]-th action by the recursive call, started
    with the random source at cursor [k], and the cursor it leaves.  With
    [prune = false] the test [if beta <= alpha: break] is switched off. *)
Fixpoint loop (child : nat -> BattleAction -> Z -> Z -> nat -> option (Z * nat))
    (prune maximizing : bool) (i : nat) (actions : list BattleAction)
    (bestval : Z) (bestact : option BattleAction) (alpha beta : Z) (k : nat)
    : option (Z * option BattleAction * nat) :=
  match actions with
  | [] => Some (bestval, bestact, k)
  | act :: rest =>
      match child i act alpha beta k with
      | None => None
      | Some (val, k) =>
          let '(bestval, bestact, alpha, beta) :=
            if maximizing then
              let '(bestval, bestact) :=
                if bestval <? val then (val, Some act) else (bestval, bestact) in
              (bestval, bestact, Z.max alpha bestval, beta)
            else
              let '(bestval, bestact) :=
                if val <? bestval then (val, Some act) else (bestval, bestact) in
              (bestval, bestact, alpha, Z.min beta bestval) in
          if prune && (beta <=? alpha) then Some (bestval, bestact, k)
          else loop child prune maximizing (S i) rest bestval bestact alpha beta k
      end
  end.

Section Recurse.

(** The randomness of one run.
    - [shuffle path acts] is the order [random.shuffle] leaves the candidate
      list in at the node of the search tree named by [path], the positions
      of the actions chosen from the root;
    - [rng] is the sequence of values of [random.uniform(0.8, 1.2)], read
      through a cursor that the search threads through its calls. *)
Variable shuffle : list nat -> list BattleAction -> list BattleAction.
Variable rng : Rng.

(** [prune] selects alpha-beta ([true]) or the exhaustive minimax. *)
Variable prune : bool.
Variable meisash : bool.

Definition leaf (a b : Agent) (s : BattleState) : Z :=
  let score := evalstate (if meisash then a else b) (if meisash then b else a) s in
  if meisash then score else - score.

(** One iteration of the loop up to the recursive call: clone, pair the
    action with the opponent's [ATTACK], simulate the turn. *)
Definition simulate (a b : Agent) (s : BattleState) (maximizing : bool)
    (act : BattleAction) (k : nat) : option (Agent * Agent * BattleState * nat) :=
  let aclone := cloneagent a in
  let bclone := cloneagent b in
  let sclone := mkBattleState (fieldtype s) (ashactive s) (rocketactive s) in
  let myact := act in
  let oppact := ATTACK_act in
  let ashact := if maximizing then myact else oppact in
  let rocketact := if maximizing then oppact else myact in
  stepbattle_simulation aclone bclone sclone ashact rocketact rng k.

(** [legalactions(agentforactions, currentactiveidx,
    oppforactions.team[oppactiveidx])] followed by [random.shuffle]. *)
Definition candidates (path : list nat) (a b : Agent) (s : BattleState)
    (maximizing : bool) : option (list BattleAction) :=
  let currentactiveidx := if maximizing then ashactive s else rocketactive s in
  let oppactiveidx := if maximizing then rocketactive s else ashactive s in
  let agentforactions := if maximizing then a else b in
  let oppforactions := if maximizing then b else a in
  match Py.index (team oppforactions) oppactiveidx with
  | None => None
  | Some opppokemon =>
      shuffle path <$> legalactions agentforactions currentactiveidx opppokemon
  end.

(** The nested function [recurse] of [decide_action]; [ply] is a natural
    number, [path] names the node, [k] is the cursor of the random source. *)
Fixpoint recurse (ply : nat) (path : list nat) (a b : Agent) (s : BattleState)
    (maximizing : bool) (alpha beta : Z) (k : nat) {struct ply}
    : option (Z * option BattleAction * nat) :=
  match ply with
  | O => Some (leaf a b s, None, k)
  | S ply' =>
      if all_fainted a || all_fainted b then Some (leaf a b s, None, k)
      else
        let bestval := if maximizing then NEG_INF else POS_INF in
        match candidates path a b s maximizing with
        | None => None
        | Some actions =>
            loop
              (fun i act alpha beta k =>
                 match simulate a b s maximizing act k with
                 | None => None
                 | Some (aclone, bclone, sclone, k) =>
                     match recurse ply' (path ++ [i]) aclone bclone sclone
                             (negb maximizing) alpha beta k with
                     | None => None
                     | Some (val, _, k) => Some (val, k)
                     end
                 end)
              prune maximizing 0 actions bestval None alpha beta k
        end
  end.

(** The root call of [decide_action(me, opp, bs, meisash, depth)]. *)
Definition root (me opp : Agent) (bs : BattleState) (depth : nat) (k : nat)
    : option (Z * option BattleAction * nat) :=
  recurse depth [] (if meisash then me else opp) (if meisash then opp else me)
    bs meisash NEG_INF POS_INF k.

(** The value found at the root. *)
Definition root_value (me opp : Agent) (bs : BattleState) (depth : nat) (k : nat)
    : option Z :=
  (fun r => r.1.1) <$> root me opp bs depth k.

(** [decide_action]: [action or BattleAction(BActEnum.ATTACK)], and the
    cursor the call leaves the random source at. *)
Definition decide_action (me opp : Agent) (bs : BattleState) (depth : nat)
    (k : nat) : option (BattleAction * nat) :=
  match root me opp bs depth k with
  | None => None
  | Some (_, action, k) => Some (default ATTACK_act action, k)
  end.

End Recurse.

End Search.

(** ** The same code over a store of objects

    The functions above return new values where the Python code mutates
    objects in place.  To state what a call leaves untouched, this module
    runs the same code over a store: every [Pokemon], roster list, elixir
    dictionary, [Agent] and [BattleState] is an object at a location, an
    [Agent] refers to its roster and its dictionary, and a roster refers to
    its creatures.  A computation takes the store and returns the store it
    leaves, with a result or with [None] when it raises. *)

Module Store.

Import Phase3 Search.

Definition loc := positive.

(** An [Agent] object: [team] and [elixirs] are references. *)
Record AgentObj := mkAgentObj {
  oname : string;
  oteam : loc;
  ocoins : Z;
  ofuel : Z;
  oelixirs : loc
}.

(** The store, one table per class. *)
Record Heap := mkHeap {
  pokemons : gmap loc Pokemon;
  rosters : gmap loc (list loc);
  dicts : gmap loc (gmap string Z);
  agents : gmap loc AgentObj;
  states : gmap loc BattleState
}.

Definition M (A : Type) : Type := Heap -> Heap * option A.

Definition ret {A} (x : A) : M A := fun h => (h, Some x).

Definition bind {A B} (m : M A) (f : A -> M B) : M B :=
  fun h => match m h with
           | (h', Some x) => f x h'
           | (h', None) => (h', None)
           end.

Notation "x <- m ;; f" := (bind m (fun x => f))
  (at level 100, m at next level, f at level 200, right associativity).

(** A value that may be missing; [None] raises. *)
Definition lift {A} (o : option A) : M A := fun h => (h, o).

(** Reading, writing and creating objects. *)
Definition get_pokemon (l : loc) : M Pokemon := fun h => (h, pokemons h !! l).
Definition get_roster (l : loc) : M (list loc) := fun h => (h, rosters h !! l).
Definition get_dict (l : loc) : M (gmap string Z) := fun h => (h, dicts h !! l).
Definition get_agent (l : loc) : M AgentObj := fun h => (h, agents h !! l).
Definition get_state (l : loc) : M BattleState := fun h => (h, states h !! l).

Definition set_pokemon (l : loc) (p : Pokemon) : M unit := fun h =>
  (mkHeap (<[l := p]> (pokemons h)) (rosters h) (dicts h) (agents h) (states h),
   Some tt).
Definition set_dict (l : loc) (d : gmap string Z) : M unit := fun h =>
  (mkHeap (pokemons h) (rosters h) (<[l := d]> (dicts h)) (agents h) (states h),
   Some tt).
Definition set_state (l : loc) (s : BattleState) : M unit := fun h =>
  (mkHeap (pokemons h) (rosters h) (dicts h) (agents h) (<[l := s]> (states h)),
   Some tt).

Definition new_pokemon (p : Pokemon) : M loc := fun h =>
  let l := fresh (dom (pokemons h)) in
  (mkHeap (<[l := p]> (pokemons h)) (rosters h) (dicts h) (agents h) (states h),
   Some l).
Definition new_roster (items : list loc) : M loc := fun h =>
  let l := fresh (dom (rosters h)) in
  (mkHeap (pokemons h) (<[l := items]> (rosters h)) (dicts h) (agents h) (states h),
   Some l).
Definition new_dict (d : gmap string Z) : M loc := fun h =>
  let l := fresh (dom (dicts h)) in
  (mkHeap (pokemons h) (rosters h) (<[l := d]> (dicts h)) (agents h) (states h),
   Some l).
Definition new_agent (a : AgentObj) : M loc := fun h =>
  let l := fresh (dom (agents h)) in
  (mkHeap (pokemons h) (rosters h) (dicts h) (<[l := a]> (agents h)) (states h),
   Some l).
Definition new_state (s : BattleState) : M loc := fun h =>
  let l := fresh (dom (states h)) in
  (mkHeap (pokemons h) (rosters h) (dicts h) (agents h) (<[l := s]> (states h)),
   Some l).

Fixpoint mapM {A B} (f : A -> M B) (l : list A) : M (list B) :=
  match l with
  | [] => ret []
  | x :: r => y <- f x ;; ys <- mapM f r ;; ret (y :: ys)
  end.

(** [agent.team] *)
Definition team_of (agent : loc) : M (list loc) :=
  ag <- get_agent agent ;; get_roster (oteam ag).

(** What the read-only code sees of an agent. *)
Definition snapshot (agent : loc) : M Agent :=
  ag <- get_agent agent ;;
  items <- get_roster (oteam ag) ;;
  ps <- mapM get_pokemon items ;;
  d <- get_dict (oelixirs ag) ;;
  ret (mkAgent (oname ag) ps (ocoins ag) (ofuel ag) d).

(** [Pokemon.takedamage] and [Pokemon.heal] on the object at [l]. *)
Definition takedamage_h (l : loc) (dmg : Z) : M unit :=
  p <- get_pokemon l ;; set_pokemon l (takedamage p dmg).

Definition heal_h (l : loc) (amt : Z) : M unit :=
  p <- get_pokemon l ;; set_pokemon l (heal p amt).

(** The nested function [apply] of [stepbattle_simulation]. *)
Definition apply_h (agent : loc) (act : BattleAction) (activeidx : Z) : M Z :=
  match kind act, arg act with
  | SWAP, ArgInt i =>
      items <- team_of agent ;;
      if (0 <=? i) && (i <? Z.of_nat (length items)) then
        pl <- lift (Py.index items i) ;;
        p <- get_pokemon pl ;;
        ret (if alive p then i else activeidx)
      else ret activeidx
  | HEAL, ArgStr s =>
      ag <- get_agent agent ;;
      d <- get_dict (oelixirs ag) ;;
      if 0 <? default 0 (d !! s) then
        tier <- lift (ELIXIRS !! s) ;;
        let healamt := fst tier in
        items <- get_roster (oteam ag) ;;
        pl <- lift (Py.index items activeidx) ;;
        _ <- heal_h pl healamt ;;
        d <- get_dict (oelixirs ag) ;;
        n <- lift (d !! s) ;;
        _ <- set_dict (oelixirs ag) (<[s := n - 1]> d) ;;
        ret activeidx
      else ret activeidx
  | _, _ => ret activeidx
  end.

(** One attack block of [stepbattle_simulation]. *)
Definition attack_h (act : BattleAction) (att dfd : loc) (aidx didx : Z)
    (fieldtype : string) (defending : bool) (rng : Rng) (k : nat) : M nat :=
  if is_kind (kind act) ATTACK then
    aitems <- team_of att ;;
    al <- lift (Py.index aitems aidx) ;;
    a <- get_pokemon al ;;
    if alive a then
      ditems <- team_of dfd ;;
      dl <- lift (Py.index ditems didx) ;;
      d <- get_pokemon dl ;;
      if alive d then
        _ <- takedamage_h dl (attack_damage a d fieldtype (rng k) defending) ;;
        ret (S k)
      else ret k
    else ret k
  else ret k.

(** The replacement of a fainted active creature. *)
Definition advance_h (agent : loc) (idx : Z) : M Z :=
  items <- team_of agent ;;
  pl <- lift (Py.index items idx) ;;
  p <- get_pokemon pl ;;
  if alive p then ret idx
  else
    ps <- mapM get_pokemon items ;;
    ret (default idx (Py.find_index (fun _ q => alive q) ps)).

(** [stepbattle_simulation(ash, rocket, bs, ashact, rocketact)] on objects. *)
Definition stepbattle_simulation_h (ash rocket bs : loc)
    (ashact rocketact : BattleAction) (rng : Rng) (k : nat) : M nat :=
  s <- get_state bs ;;
  ashidx <- apply_h ash ashact (ashactive s) ;;
  rocidx <- apply_h rocket rocketact (rocketactive s) ;;
  let ashdef := is_kind (kind ashact) DEFEND in
  let rocdef := is_kind (kind rocketact) DEFEND in
  k <- attack_h ashact ash rocket ashidx rocidx (fieldtype s) rocdef rng k ;;
  k <- attack_h rocketact rocket ash rocidx ashidx (fieldtype s) ashdef rng k ;;
  ashidx <- advance_h ash ashidx ;;
  rocidx <- advance_h rocket rocidx ;;
  s <- get_state bs ;;
  _ <- set_state bs (mkBattleState (fieldtype s) ashidx rocidx) ;;
  ret k.

(** [cloneagent(a)]: new [Pokemon] objects, a new list, a new dictionary
    and a new [Agent]. *)
Definition cloneagent_h (a : loc) : M loc :=
  ag <- get_agent a ;;
  items <- get_roster (oteam ag) ;;
  newitems <-
    mapM (fun pl =>
            p <- get_pokemon pl ;;
            new_pokemon (mkPokemon (name p) (ptype p) (maxhp p) (hp p) (atk p)
                           (dfn p) (alive p)))
      items ;;
  newteam <- new_roster newitems ;;
  d <- get_dict (oelixirs ag) ;;
  newdict <- new_dict d ;;
  new_agent (mkAgentObj (oname ag) newteam (ocoins ag) (ofuel ag) newdict).

(** The loop of [recurse], as [Search.loop], over computations. *)
Fixpoint loop_h (child : nat -> BattleAction -> Z -> Z -> nat -> M (Z * nat))
    (prune maximizing : bool) (i : nat) (actions : list BattleAction)
    (bestval : Z) (bestact : option BattleAction) (alpha beta : Z) (k : nat)
    : M (Z * option BattleAction * nat) :=
  match actions with
  | [] => ret (bestval, bestact, k)
  | act :: rest =>
      r <- child i act alpha beta k ;;
      let '(val, k) := r in
      let '(bestval, bestact, alpha, beta) :=
        if maximizing then
          let '(bestval, bestact) :=
            if bestval <? val then (val, Some act) else (bestval, bestact) in
          (bestval, bestact, Z.max alpha bestval, beta)
        else
          let '(bestval, bestact) :=
            if val <? bestval then (val, Some act) else (bestval, bestact) in
          (bestval, bestact, alpha, Z.min beta bestval) in
      if prune && (beta <=? alpha) then ret (bestval, bestact, k)
      else loop_h child prune maximizing (S i) rest bestval bestact alpha beta k
  end.

Section Recurse.

Variable shuffle : list nat -> list BattleAction -> list BattleAction.
Variable rng : Rng.
Variable prune : bool.
Variable meisash : bool.

(** [recurse] with [a], [b] and [s] references to the objects. *)
Fixpoint recurse_h (ply : nat) (path : list nat) (a b s : loc)
    (maximizing : bool) (alpha beta : Z) (k : nat) {struct ply}
    : M (Z * option BattleAction * nat) :=
  av <- snapshot a ;;
  bv <- snapshot b ;;
  sv <- get_state s ;;
  match ply with
  | O => ret (leaf meisash av bv sv, None, k)
  | S ply' =>
      if all_fainted av || all_fainted bv then ret (leaf meisash av bv sv, None, k)
      else
        let bestval := if maximizing then NEG_INF else POS_INF in
        actions <- lift (candidates shuffle path av bv sv maximizing) ;;
        loop_h
          (fun i act alpha beta k =>
             aclone <- cloneagent_h a ;;
             bclone <- cloneagent_h b ;;
             sv <- get_state s ;;
             sclone <- new_state (mkBattleState (fieldtype sv) (ashactive sv)
                                    (rocketactive sv)) ;;
             let myact := act in
             let oppact := ATTACK_act in
             let ashact := if maximizing then myact else oppact in
             let rocketact := if maximizing then oppact else myact in
             k <- stepbattle_simulation_h aclone bclone sclone ashact rocketact
                    rng k ;;
             r <- recurse_h ply' (path ++ [i]) aclone bclone sclone
                    (negb maximizing) alpha beta k ;;
             let '(val, _, k) := r in
             ret (val, k))
          prune maximizing 0 actions bestval None alpha beta k
  end.

(** [decide_action(me, opp, bs, meisash, depth)] on objects. *)
Definition decide_action_h (me opp bs : loc) (depth : nat) (k : nat)
    : M (BattleAction * nat) :=
  r <- recurse_h depth [] (if meisash then me else opp)
         (if meisash then opp else me) bs meisash NEG_INF POS_INF k ;;
  let '(_, action, k) := r in
  ret (default ATTACK_act action, k).

End Recurse.

(** The store that holds an agent, given as a value, at new locations. *)
Definition store_agent (a : Agent) : M loc :=
  items <- mapM new_pokemon (team a) ;;
  t <- new_roster items ;;
  d <- new_dict (elixirs a) ;;
  new_agent (mkAgentObj (aname a) t (coins a) (fuel a) d).

Definition empty_heap : Heap := mkHeap ∅ ∅ ∅ ∅ ∅.

(** [h'] holds every object of [h], unchanged. *)
Definition extends (h h' : Heap) : Prop :=
  pokemons h ⊆ pokemons h' /\ rosters h ⊆ rosters h' /\ dicts h ⊆ dicts h' /\
  agents h ⊆ agents h' /\ states h ⊆ states h'.

(** A computation that changes no object that exists when it starts. *)
Definition frames {A} (m : M A) : Prop := forall h, extends h (m h).1.

(** The creatures and the dictionary an agent refers to. *)
Definition team_locs (h : Heap) (agent : loc) : gset loc :=
  match agents h !! agent with
  | Some ag => match rosters h !! oteam ag with
               | Some items => list_to_set items
               | None => ∅
               end
  | None => ∅
  end.

Definition dict_locs (h : Heap) (agent : loc) : gset loc :=
  match agents h !! agent with
  | Some ag => {[ oelixirs ag ]}
  | None => ∅
  end.

(** From [h] to [h'] no agent and no roster has changed, and the only
    creatures, dictionaries and battle states that may have changed are
    those at [Wp], [Wd] and [Ws]. *)
Definition touches (Wp Wd Ws : gset loc) (h h' : Heap) : Prop :=
  agents h' = agents h /\ rosters h' = rosters h /\
  (forall l, l ∉ Wp -> pokemons h' !! l = pokemons h !! l) /\
  (forall l, l ∉ Wd -> dicts h' !! l = dicts h !! l) /\
  (forall l, l ∉ Ws -> states h' !! l = states h !! l).

(** In [h] the agent at [l] refers to creatures and to a dictionary that
    do not exist in [hb]. *)
Definition cloned (hb h : Heap) (l : loc) : Prop :=
  exists ag items,
    agents h !! l = Some ag /\ rosters h !! oteam ag = Some items /\
    (forall pl, pl ∈ items -> pl ∉ dom (pokemons hb)) /\
    oelixirs ag ∉ dom (dicts hb).

End Store.

(** ** phase_2.py: buying elixirs *)

Module Phase2.

(** [ELIXIRS.items()], in the order of the dictionary display. *)
Definition ELIXIRS_items : list (string * (Z * Z)) :=
  [ ("Small"%string, (25, 15)); ("Medium"%string, (50, 30));
    ("Large"%string, (80, 50)) ].

(** [kv[1][0] / kv[1][1]]; [None] is [ZeroDivisionError]. *)
Definition ratio (kv : string * (Z * Z)) : option Q :=
  if kv.2.2 =? 0 then None else Some (inject_Z kv.2.1 / inject_Z kv.2.2)%Q.

(** [sorted(items, key=..., reverse=True)]: by decreasing key, items of
    equal key in their original order.  The keys are computed first. *)
Fixpoint insert_desc {A} (x : A * Q) (l : list (A * Q)) : list (A * Q) :=
  match l with
  | [] => [x]
  | y :: r => if Qle_bool y.2 x.2 then x :: y :: r else y :: insert_desc x r
  end.

Definition sorted_desc {A} (key : A -> option Q) (l : list A) : option (list A) :=
  keyed ← mapM (fun x => k ← key x; Some (x, k)) l;
  Some (foldr insert_desc [] keyed).*1.

(** What a call does: it returns, raises, or is still running when the
    steps the model allows each [while] loop are spent. *)
Inductive outcome (A : Type) :=
  | Returned (x : A)
  | Raised
  | OutOfSteps.
Arguments Returned {A} x.
Arguments Raised {A}.
Arguments OutOfSteps {A}.

(** The loop
<<
    while coins >= price:
        agent.elixirs[name] = agent.elixirs.get(name, 0) + 1
        coins -= price
        if coins < price: break
>> *)
Fixpoint buy (steps : nat) (name : string) (price coins : Z) (e : gmap string Z)
    : option (Z * gmap string Z) :=
  if price <=? coins then
    match steps with
    | O => None
    | S steps' =>
        let e := <[name := default 0 (e !! name) + 1]> e in
        let coins := coins - price in
        if coins <? price then Some (coins, e) else buy steps' name price coins e
    end
  else Some (coins, e).

(** [for name, (healamt, price) in items: ...] *)
Fixpoint buy_all (steps : nat) (items : list (string * (Z * Z))) (coins : Z)
    (e : gmap string Z) : option (Z * gmap string Z) :=
  match items with
  | [] => Some (coins, e)
  | (name, (_, price)) :: rest =>
      match buy steps name price coins e with
      | None => None
      | Some (coins, e) => buy_all steps rest coins e
      end
  end.

(** The nested function [buylogic] of [doelixirpurchases]. *)
Definition buylogic (steps : nat) (agent : Agent) : outcome Agent :=
  let e := foldl (fun e kv => <[kv.1 := 0]> e) (elixirs agent) ELIXIRS_items in
  let coins := coins agent in
  match sorted_desc ratio ELIXIRS_items with
  | None => Raised
  | Some items =>
      match buy_all steps items coins e with
      | None => OutOfSteps
      | Some (coins, e) =>
          Returned (mkAgent (aname agent) (team agent) coins (fuel agent) e)
      end
  end.

End Phase2.

(** ** main.py: the grid of the catching phase *)

Module Main.

(** [[[0 for _ in range(GRIDW)] for _ in range(GRIDH)]] *)
Definition fresh_grid : list (list Z) :=
  replicate (Z.to_nat GRIDH) (replicate (Z.to_nat GRIDW) 0).

(** [grid[y][x] = v] for non-negative indices; [None] is [IndexError]. *)
Definition set_cell (grid : list (list Z)) (x y : Z) (v : Z) : option (list (list Z)) :=
  match grid !! Z.to_nat y with
  | None => None
  | Some row =>
      if x <? Z.of_nat (length row)
      then Some (<[Z.to_nat y := <[Z.to_nat x := v]> row]> grid)
      else None
  end.

(** The body of the two loops of [genobstacles] for the cell [(x, y)];
    [r] is the value of [rng.random()]. *)
Definition genobstacle (density r : Q) (grid : list (list Z)) (x y : Z)
    : option (list (list Z)) :=
  if Qlt_le_dec r density then
    if (0 <? x) && (x <? GRIDW - 1) && (0 <? y) && (y <? GRIDH - 1)
    then set_cell grid x y 1
    else Some grid
  else Some grid.

(** [for x in range(GRIDW):], with the cursor [k] of the random source. *)
Fixpoint genrow (density : Q) (rnd : nat -> Q) (y : Z) (xs : list Z) (k : nat)
    (grid : list (list Z)) : option (list (list Z) * nat) :=
  match xs with
  | [] => Some (grid, k)
  | x :: rest =>
      match genobstacle density (rnd k) grid x y with
      | None => None
      | Some grid => genrow density rnd y rest (S k) grid
      end
  end.

(** [for y in range(GRIDH):] *)
Fixpoint genrows (density : Q) (rnd : nat -> Q) (ys : list Z) (k : nat)
    (grid : list (list Z)) : option (list (list Z) * nat) :=
  match ys with
  | [] => Some (grid, k)
  | y :: rest =>
      match genrow density rnd y (seqZ 0 GRIDW) k grid with
      | None => None
      | Some (grid, k) => genrows density rnd rest k grid
      end
  end.

(** [genobstacles(density)] on [self.grid]; [rnd k] is the [k]-th value of
    [random.Random(42).random()]. *)
Definition genobstacles (density : Q) (rnd : nat -> Q) (grid : list (list Z))
    : option (list (list Z)) :=
  fst <$> genrows density rnd (seqZ 0 GRIDH) 0 grid.

(** The grid that [initgame] builds: [genobstacles(0.08)] on a fresh grid. *)
Definition initgame_grid (rnd : nat -> Q) : option (list (list Z)) :=
  genobstacles (8 # 100) rnd fresh_grid.

End Main.

(** ** Vocabulary of the statements *)

Module Notions.

Import Phase3.

(** The sub-actions the transition function is defensive about: a SWAP whose
    argument is not an integer, is out of roster range or names a creature
    that is not alive; a HEAL whose argument is not a string or names a tier
    of which the side owns none. *)
Definition illegal (agent : Agent) (act : BattleAction) : bool :=
  match kind act, arg act with
  | SWAP, ArgInt i =>
      negb ((0 <=? i) && (i <? Z.of_nat (length (team agent))))
      || match team agent !! Z.to_nat i with
         | Some p => negb (alive p)
         | None => true
         end
  | SWAP, _ => true
  | HEAL, ArgStr s => default 0 (elixirs agent !! s) <=? 0
  | HEAL, _ => true
  | _, _ => false
  end.

(** The calls of a sequence that take damage, and those that heal, have a
    non-negative amount. *)
Definition damages_nonneg (cs : list call) : Prop :=
  Forall (fun c => match c with TakeDamage d => 0 <= d | Heal _ => True end) cs.

Definition heals_nonneg (cs : list call) : Prop :=
  Forall (fun c => match c with Heal a => 0 <= a | TakeDamage _ => True end) cs.

(** With heals of non-negative amounts [hp] stays non-negative, and positive
    on a creature that is alive; with damages of non-negative amounts it
    stays at most [maxhp]. *)
Definition above_zero (p : Pokemon) : Prop :=
  0 <= hp p /\ (hp p = 0 -> alive p = false) /\ (alive p = true -> 0 < maxhp p).

Definition below_max (p : Pokemon) : Prop := 0 <= maxhp p /\ hp p <= maxhp p.

(** Rosters whose attack and defence stats are at most [1e9] in absolute
    value, and a random source whose draws are within the bounds of
    [random.uniform(0.8, 1.2)]: the product [base * mult] of [computedamage]
    is then far within the range of a float. *)
Definition modest_stats (t : list Pokemon) : Prop :=
  Forall (fun p => Z.abs (atk p) <= 10 ^ 9 /\ Z.abs (dfn p) <= 10 ^ 9) t.

Definition draws_in_range (rng : Rng) : Prop :=
  forall j, (8 # 10 <= rng j)%Q /\ (rng j <= 12 # 10)%Q.

(** [idx'] is what the replacement step makes of the active index [idx] on
    the roster of [agent]: kept when the active creature is alive or when
    nobody is, otherwise the smallest position of a living creature. *)
Definition first_hit {A} (P : A -> bool) (l : list A) (n : nat) : Prop :=
  (exists x, l !! n = Some x /\ P x = true) /\
  forall m y, (m < n)%nat -> l !! m = Some y -> P y = false.

Definition advanced (agent : Agent) (idx idx' : Z) : Prop :=
  exists p, Py.index (team agent) idx = Some p /\
    (alive p = true -> idx' = idx) /\
    (alive p = false -> (exists q, q ∈ team agent /\ alive q = true) ->
       exists n, idx' = Z.of_nat n /\ first_hit alive (team agent) n) /\
    ((forall q, q ∈ team agent -> alive q = false) -> idx' = idx).

(** Every tier the side owns is a tier of [ELIXIRS]. *)
Definition known_tiers (e : gmap string Z) : Prop :=
  forall s n, e !! s = Some n -> 0 < n -> is_Some (ELIXIRS !! s).

(** A roster the search can score without leaving the range of its
    sentinels: every [hp] within [0, maxhp], and the largest score the roster
    can contribute (all [maxhp] plus 30 per creature) at most [1e9]. *)
Definition sum_maxhp (t : list Pokemon) : Z := foldr (fun p acc => maxhp p + acc) 0 t.

Definition bounded_team (t : list Pokemon) : Prop :=
  Forall hp_in_range t /\ sum_maxhp t + 30 * Z.of_nat (length t) <= 10 ^ 9.

(** The name, the type and the stats of a creature, which no call changes. *)
Definition same_stats (p q : Pokemon) : Prop :=
  name q = name p /\ ptype q = ptype p /\ maxhp q = maxhp p /\
  atk q = atk p /\ dfn q = dfn p.

(** What a turn may make of a creature: the same name, type and stats, and
    no change at all once it has fainted. *)
Definition evolves (p q : Pokemon) : Prop :=
  same_stats p q /\ (alive p = false -> q = p).

(** What a turn may make of a side that played [act]: the same name, coins
    and fuel, a roster of the same creatures, and the same elixirs, or one
    less of the tier that a HEAL named. *)
Definition side_kept (agent : Agent) (act : BattleAction) (agent' : Agent) : Prop :=
  aname agent' = aname agent /\ coins agent' = coins agent /\
  fuel agent' = fuel agent /\
  Forall2 evolves (team agent) (team agent') /\
  (elixirs agent' = elixirs agent \/
   exists s n, kind act = HEAL /\ arg act = ArgStr s /\
     elixirs agent !! s = Some n /\ 0 < n /\
     elixirs agent' = <[s := n - 1]> (elixirs agent)).

(** The SWAP that [legalactions] may offer: to the first creature of the
    roster, other than the one at [activeidx], that is alive and whose type
    has the advantage over the opponent's. *)
Definition swap_choice (agent : Agent) (activeidx : Z) (opppokemon : Pokemon)
    (i : Z) : Prop :=
  exists n p, i = Z.of_nat n /\ team agent !! n = Some p /\
    i <> activeidx /\ alive p = true /\
    in_TYPEADV (ptype p) (ptype opppokemon) = true /\
    forall m q, (m < n)%nat -> team agent !! m = Some q ->
      Z.of_nat m = activeidx \/ alive q = false \/
      in_TYPEADV (ptype q) (ptype opppokemon) = false.

(** The HEAL that [legalactions] may offer: with a tier the side owns, of
    the largest heal amount among the tiers it owns. *)
Definition heal_choice (agent : Agent) (s : string) : Prop :=
  exists n amt price, elixirs agent !! s = Some n /\ 0 < n /\
    ELIXIRS !! s = Some (amt, price) /\
    forall s' n' amt' price', elixirs agent !! s' = Some n' -> 0 < n' ->
      ELIXIRS !! s' = Some (amt', price') -> amt' <= amt.

(** [grid[y][x]] for non-negative indices. *)
Definition cell (grid : list (list Z)) (x y : Z) : option Z :=
  match grid !! Z.to_nat y with
  | Some row => row !! Z.to_nat x
  | None => None
  end.

(** The cells of the field that are not on its border. *)
Definition interior (x y : Z) : bool :=
  (0 <? x) && (x <? GRIDW - 1) && (0 <? y) && (y <? GRIDH - 1).

(** The cells [genobstacles] blocks: those of the interior whose random
    value, the one of rank [y * GRIDW + x], is below the density. *)
Definition obstacle_at (density : Q) (rnd : nat -> Q) (x y : Z) : bool :=
  interior x y &&
  (if Qlt_le_dec (rnd (Z.to_nat (y * GRIDW + x))) density then true else false).

End Notions.

Import Notions.

(** ** Sample inputs *)

Module Samples.

Import Phase3.

Definition ash_team : list Pokemon :=
  [default_pokemon "Pikachu" "Electric"; default_pokemon "Charmander" "Fire";
   default_pokemon "Squirtle" "Water"].

Definition rocket_team : list Pokemon :=
  [default_pokemon "Meowth" "Electric"; default_pokemon "Weezing" "Fire";
   default_pokemon "Wobbuffet" "Water"].

Definition bought : gmap string Z :=
  list_to_map [("Small"%string, 0); ("Medium"%string, 1); ("Large"%string, 1)].

Definition ash0 : Agent := mkAgent "Ash" ash_team 0 45 bought.
Definition rocket0 : Agent := mkAgent "Team Rocket" rocket_team 0 45 bought.
Definition bs0 : BattleState := mkBattleState "Fire" 0 0.

(** [random.uniform] forced to 1.0, and alternating between 0.8 and 1.2. *)
Definition rng_one : Rng := fun _ => 1%Q.
Definition rng_alt : Rng := fun k => if Nat.even k then (8 # 10)%Q else (12 # 10)%Q.

(** [random.shuffle] leaving the list as it is, and reversing it. *)
Definition keep_order : list nat -> list BattleAction -> list BattleAction :=
  fun _ acts => acts.
Definition reverse_order : list nat -> list BattleAction -> list BattleAction :=
  fun _ acts => rev acts.


(** The opening position as objects: Ash is agent 1, Team Rocket agent 2,
    the battle state is state 1. *)
Definition opening_store : Store.Heap :=
  (Store.bind (Store.store_agent ash0) (fun _ =>
   Store.bind (Store.store_agent rocket0) (fun _ =>
   Store.new_state bs0)) Store.empty_heap).1.

(** A field with two walls, and a way round them. *)
Definition open_field : list (list Z) := replicate 11 (replicate 24 0).

Definition walled_field : list (list Z) :=
  <[ 1%nat := replicate 3 0 ++ replicate 18 1 ++ replicate 3 0 ]>
    (<[ 2%nat := [0; 1] ++ replicate 22 0 ]> open_field).

(** A field of three rows of three free cells. *)
Definition small_field : list (list Z) := replicate 3 (replicate 3 0).

Definition way_round : list (Z * Z) :=
  [(5, 0); (4, 0); (3, 0); (2, 0); (2, 1); (2, 2); (3, 2); (3, 3); (4, 3); (5, 3)].

(** Ash with a Pikachu at 20 hp, in front of a Weezing. *)
Definition hurt_pikachu : Pokemon := mkPokemon "Pikachu" "Electric" 100 20 22 10 true.

Definition hurt_ash : Agent :=
  mkAgent "Ash"
    [hurt_pikachu; default_pokemon "Charmander" "Fire"; default_pokemon "Squirtle" "Water"]
    0 45 bought.

Definition weezing : Pokemon := default_pokemon "Weezing" "Fire".

Definition bs_weezing : BattleState := mkBattleState "Fire" 0 1.

Definition HEAL_large : BattleAction := mkAction HEAL (ArgStr "Large").

(** Team Rocket once its Meowth has taken 8 hp. *)
Definition rocket_hit : Agent :=
  mkAgent "Team Rocket"
    [mkPokemon "Meowth" "Electric" 100 92 22 10 true; default_pokemon "Weezing" "Fire";
     default_pokemon "Wobbuffet" "Water"]
    0 45 bought.



(** A field whose cell (5, 5) is an obstacle. *)
Definition sealed_field : list (list Z) :=
  <[ 5%nat := <[ 5%nat := 1 ]> (replicate 24 0) ]> open_field.

(** A random source that alternates between 0 and 1. *)
Definition rnd_alt : nat -> Q := fun k => if Nat.even k then 0%Q else 1%Q.

End Samples.

(** * Properties *)

(** ** Health mutators *)

Section Health.

Lemma takedamage_dead p d : alive p = false -> takedamage p d = p.
Proof. unfold takedamage. intros ->. reflexivity. Qed.

Lemma heal_dead p a : alive p = false -> heal p a = p.
Proof. unfold heal. intros ->. reflexivity. Qed.

Lemma do_call_dead p c : alive p = false -> do_call p c = p.
Proof. destruct c; simpl; auto using takedamage_dead, heal_dead. Qed.

Lemma run_calls_dead cs p : alive p = false -> run_calls cs p = p.
Proof.
  unfold run_calls. induction cs as [|c cs IH]; simpl; intros Hd; [reflexivity|].
  rewrite do_call_dead by assumption. auto.
Qed.

Lemma run_calls_app cs1 cs2 p :
  run_calls (cs1 ++ cs2) p = run_calls cs2 (run_calls cs1 p).
Proof. unfold run_calls. apply fold_left_app. Qed.

Lemma takedamage_maxhp p d : maxhp (takedamage p d) = maxhp p.
Proof.
  unfold takedamage. destruct (alive p); simpl; [|reflexivity].
  destruct (Z.max 0 (hp p - d) =? 0); reflexivity.
Qed.

Lemma heal_maxhp p a : maxhp (heal p a) = maxhp p.
Proof. unfold heal. destruct (alive p); reflexivity. Qed.

Lemma takedamage_wf p d : 0 <= d -> wf_pokemon p -> wf_pokemon (takedamage p d).
Proof.
  unfold wf_pokemon, hp_in_range, alive_iff_hp, takedamage.
  intros Hd [Hr Ha]. destruct (alive p) eqn:E; simpl; [|tauto].
  destruct (Z.max 0 (hp p - d) =? 0) eqn:E0; simpl.
  - apply Z.eqb_eq in E0. split; [lia|tauto].
  - apply Z.eqb_neq in E0. rewrite E. split; [lia|]. split; [discriminate|lia].
Qed.

Lemma heal_wf p a : 0 <= a -> wf_pokemon p -> wf_pokemon (heal p a).
Proof.
  unfold wf_pokemon, hp_in_range, alive_iff_hp, heal.
  intros Hd [Hr Ha]. destruct (alive p) eqn:E; simpl; [|tauto].
  rewrite E. split; [lia|]. split; [discriminate|].
  intros H0. assert (hp p = 0) by lia. tauto.
Qed.

Lemma do_call_wf p c : 0 <= amount c -> wf_pokemon p -> wf_pokemon (do_call p c).
Proof. destruct c; simpl; auto using takedamage_wf, heal_wf. Qed.

Lemma run_calls_wf cs p :
  Forall (fun c => 0 <= amount c) cs -> wf_pokemon p -> wf_pokemon (run_calls cs p).
Proof.
  unfold run_calls. intros H. revert p.
  induction H as [|c cs Hc _ IH]; simpl; intros p Hp; [assumption|].
  apply IH. apply do_call_wf; assumption.
Qed.

Lemma run_calls_maxhp cs p : maxhp (run_calls cs p) = maxhp p.
Proof.
  revert p. unfold run_calls.
  induction cs as [|c cs IH]; simpl; intros p; [reflexivity|].
  rewrite IH. destruct c; simpl; auto using takedamage_maxhp, heal_maxhp.
Qed.

(** Whatever the amounts, a call leaves [hp = 0] on a creature that is not
    alive after it. *)
Lemma do_call_dead_zero p c :
  (alive p = false -> hp p = 0) ->
  alive (do_call p c) = false -> hp (do_call p c) = 0.
Proof.
  destruct c as [d|a]; simpl; unfold takedamage, heal; intros H.
  - destruct (alive p) eqn:E; simpl; [|auto].
    destruct (Z.max 0 (hp p - d) =? 0) eqn:E0; simpl.
    + intros _. apply Z.eqb_eq in E0. exact E0.
    + rewrite E. discriminate.
  - destruct (alive p) eqn:E; simpl; [|auto]. rewrite E. discriminate.
Qed.

Lemma do_call_above_zero p c :
  match c with Heal a => 0 <= a | TakeDamage _ => True end ->
  above_zero p -> above_zero (do_call p c).
Proof.
  unfold above_zero. destruct c as [d|a]; simpl; unfold takedamage, heal;
    intros Hc (H0 & Hz & Hm).
  - destruct (alive p) eqn:E; simpl; [|rewrite ?E; tauto].
    destruct (Z.max 0 (hp p - d) =? 0) eqn:E0; simpl.
    + apply Z.eqb_eq in E0. split; [lia|]. split; [reflexivity|discriminate].
    + apply Z.eqb_neq in E0. rewrite E. split; [lia|]. split; [lia|exact Hm].
  - destruct (alive p) eqn:E; simpl; [|rewrite ?E; tauto]. rewrite E.
    assert (0 < hp p)
      by (destruct (Z.eq_dec (hp p) 0) as [Hz0|]; [apply Hz in Hz0; discriminate|lia]).
    specialize (Hm eq_refl). split; [lia|]. split; [lia|auto].
Qed.

Lemma do_call_below_max p c :
  match c with TakeDamage d => 0 <= d | Heal _ => True end ->
  below_max p -> below_max (do_call p c).
Proof.
  unfold below_max. destruct c as [d|a]; simpl; unfold takedamage, heal;
    intros Hc (H0 & Hm).
  - destruct (alive p) eqn:E; simpl; [|auto].
    destruct (Z.max 0 (hp p - d) =? 0) eqn:E0; simpl; lia.
  - destruct (alive p) eqn:E; simpl; [|auto]. lia.
Qed.

Lemma run_calls_invariant (I : Pokemon -> Prop) (ok : call -> Prop) cs p :
  (forall q c, ok c -> I q -> I (do_call q c)) ->
  Forall ok cs -> I p -> I (run_calls cs p).
Proof.
  intros Hstep H. revert p. unfold run_calls.
  induction H as [|c cs Hc _ IH]; simpl; intros p Hp; [exact Hp|].
  apply IH. apply Hstep; assumption.
Qed.

End Health.

(** C3, as stated, fails: a negative damage raises [hp] above [maxhp], and a
    negative heal brings [hp] to zero (or below) on a creature that stays
    alive.  And a creature built with [hp] above [maxhp] is still above it
    after a call. *)
Lemma C3_counterexample :
  let p := default_pokemon "Pikachu" "Electric" in
  let big := mkPokemon "Pikachu" "Electric" 100 500 22 10 true in
  wf_pokemon p /\
  ~ hp_in_range (run_calls [TakeDamage (-50)] p) /\
  ~ alive_iff_hp (run_calls [Heal (-100)] p) /\
  ~ hp_in_range (run_calls [Heal (-101)] p) /\
  ~ hp_in_range (run_calls [TakeDamage 1] big).
Proof.
  cbv [wf_pokemon hp_in_range alive_iff_hp run_calls fold_left do_call default_pokemon
       takedamage heal set_hp set_alive hp maxhp alive negb].
  simpl. repeat split; try lia; try discriminate.
Qed.

(** C3 (amended): for every Pokemon and every sequence of [takedamage] and
    [heal] calls with arbitrary integer amounts, once [alive] is false the
    creature no longer changes, so [alive] never becomes true again, and
    [maxhp] never changes.  From a creature that satisfies the data-model
    invariant, at every point of the sequence: a creature that is not alive
    has [hp = 0], whatever the amounts; [hp] is non-negative, and zero only
    on a creature that is not alive, when the heals so far had non-negative
    amounts; [hp] is at most [maxhp] when the damages so far had
    non-negative amounts; so with non-negative amounts the invariant holds
    after every call. *)
Theorem C3_health_invariant (p : Pokemon) (pre suf : list call) :
  let q := run_calls pre p in
  (alive q = false -> run_calls (pre ++ suf) p = q) /\
  maxhp q = maxhp p /\
  (wf_pokemon p ->
   (alive q = false -> hp q = 0) /\
   (heals_nonneg pre -> 0 <= hp q /\ (hp q = 0 -> alive q = false)) /\
   (damages_nonneg pre -> hp q <= maxhp q) /\
   (heals_nonneg pre -> damages_nonneg pre -> hp_in_range q /\ alive_iff_hp q)).
Proof.
  simpl. split.
  { intros Hd. rewrite run_calls_app. apply run_calls_dead. exact Hd. }
  split; [apply run_calls_maxhp|].
  intros [[H0 Hm] [Hd Hz]].
  assert (Hdead : alive (run_calls pre p) = false -> hp (run_calls pre p) = 0).
  { apply (run_calls_invariant (fun q => alive q = false -> hp q = 0) (fun _ => True));
      [intros q c _; apply do_call_dead_zero| |exact Hd].
    clear. induction pre; constructor; auto. }
  assert (Hlow : heals_nonneg pre -> above_zero (run_calls pre p)).
  { intros Hh. apply (run_calls_invariant above_zero _ pre p do_call_above_zero Hh).
    split; [lia|]. split; [exact Hz|]. intros Ha.
    destruct (Z.eq_dec (hp p) 0) as [E|E]; [apply Hz in E; congruence|lia]. }
  assert (Hhigh : damages_nonneg pre -> below_max (run_calls pre p)).
  { intros Hh. apply (run_calls_invariant below_max _ pre p do_call_below_max Hh).
    split; lia. }
  split; [exact Hdead|].
  split; [intros Hh; destruct (Hlow Hh) as (?&?&?); auto|].
  split; [intros Hh; apply (Hhigh Hh)|].
  intros Hh Hdm. destruct (Hlow Hh) as (?&?&?). destruct (Hhigh Hdm) as [_ ?].
  repeat split; auto.
Qed.

Lemma C3_health_invariant_witness :
  let p := default_pokemon "Pikachu" "Electric" in
  let q := run_calls [TakeDamage 60; Heal 80; TakeDamage 100] p in
  run_calls [TakeDamage 60; Heal 80; TakeDamage 100; Heal 25] p = q /\
  hp q = 0 /\ hp_in_range q /\ alive_iff_hp q.
Proof.
  pose proof (C3_health_invariant (default_pokemon "Pikachu" "Electric")
                [TakeDamage 60; Heal 80; TakeDamage 100] [Heal 25]) as (H1 & _ & H2).
  split; [apply H1; reflexivity|].
  destruct H2 as (H3 & _ & _ & H4).
  { cbv; repeat split; try lia; discriminate. }
  split; [apply H3; reflexivity|].
  apply H4; repeat constructor; simpl; lia.
Defined.

(** C4, as stated, fails: a negative amount is not ignored; [takedamage]
    adds it to [hp] and [heal] subtracts it. *)
Lemma C4_counterexample :
  let p := mkPokemon "Pikachu" "Electric" 100 50 22 10 true in
  wf_pokemon p /\ (-5 <= 0) /\
  hp (takedamage p (-5)) = 55 /\ hp (heal p (-5)) = 45 /\
  takedamage p (-5) <> p /\ heal p (-5) <> p.
Proof.
  cbv [wf_pokemon hp_in_range alive_iff_hp takedamage heal set_hp set_alive hp maxhp
       alive negb].
  simpl. repeat split; try lia; try discriminate.
Qed.

(** C4 (amended): on a creature that satisfies the data-model invariant,
    [takedamage(0)] and [heal(0)] change nothing; and on a creature that is
    not alive, [takedamage] and [heal] change nothing whatever the amount. *)
Theorem C4_zero_amount_no_effect (p : Pokemon) (amt : Z) :
  (wf_pokemon p /\ amt = 0) \/ alive p = false ->
  takedamage p amt = p /\ heal p amt = p.
Proof.
  intros [[[Hr Ha] ->]|Hd].
  - unfold takedamage, heal, set_hp, set_alive, hp_in_range, alive_iff_hp in *.
    destruct p as [n t m h a d al]; simpl in *.
    destruct al; simpl; [|split; reflexivity].
    assert (h <> 0) by (intros ->; destruct Ha as [_ Ha]; specialize (Ha eq_refl);
                        discriminate).
    replace (Z.max 0 (h - 0)) with h by lia.
    replace (Z.min m (h + 0)) with h by lia.
    destruct (h =? 0) eqn:E; [apply Z.eqb_eq in E; contradiction|].
    split; reflexivity.
  - split; [apply takedamage_dead|apply heal_dead]; exact Hd.
Qed.

Lemma C4_zero_amount_no_effect_witness :
  let p := mkPokemon "Pikachu" "Electric" 100 50 22 10 true in
  takedamage p 0 = p /\ heal p 0 = p.
Proof.
  apply (C4_zero_amount_no_effect (mkPokemon "Pikachu" "Electric" 100 50 22 10 true) 0).
  left. cbv. repeat split; try lia; try discriminate.
Defined.

(** ** Fuzzy rules *)

Section Fuzzy.

Import FuzzyLogic.
Local Open Scope Q_scope.

Lemma max2_ge_best a b : a <= Py.max2 a b.
Proof. unfold Py.max2. destruct (Qlt_le_dec a b); lra. Qed.

Lemma max2_ge_new a b : b <= Py.max2 a b.
Proof. unfold Py.max2. destruct (Qlt_le_dec a b); lra. Qed.

Lemma max2_zero a b : a == 0 -> b == 0 -> Py.max2 a b == 0.
Proof. unfold Py.max2. destruct (Qlt_le_dec a b); intros; assumption. Qed.

Lemma max4_ge_third a b c d : c <= Py.max4 a b c d.
Proof.
  unfold Py.max4.
  apply Qle_trans with (Py.max2 (Py.max2 a b) c);
    [apply max2_ge_new | apply max2_ge_best].
Qed.

Lemma min2_zero_r a : 0 <= a -> Py.min2 a 0 == 0.
Proof. unfold Py.min2. destruct (Qlt_le_dec 0 a); lra. Qed.

Lemma membership_low_nonneg v lo hi : lo < hi -> 0 <= membership_low v lo hi.
Proof.
  intros Hlh. unfold membership_low.
  destruct (Qle_bool v lo) eqn:E1; [lra|].
  destruct (Qle_bool hi v) eqn:E2; [lra|].
  assert (~ hi <= v) by (rewrite <- Qle_bool_iff, E2; discriminate).
  apply Qle_shift_div_l; lra.
Qed.

End Fuzzy.

(** C6, as stated, fails: with an advantaged bench creature but an active
    creature that is not at a type disadvantage, every rule is gated to 0. *)
Lemma C6_counterexample :
  ~ (1 # 2 <= FuzzyLogic.should_swap "Fire" "Electric" true 100)%Q.
Proof. vm_compute. intros H. apply H. reflexivity. Qed.

(** C6 (amended): for every call of [should_swap] with [bench_has_advantage]
    true, the confidence is at least 0.5 when the enemy's type has the
    advantage over the active creature's type, and it is 0 otherwise,
    whatever the HP percentage. *)
Theorem C6_should_swap_flat_rule (active_type enemy_type : string) (hp_percent : Q) :
  let s := FuzzyLogic.should_swap active_type enemy_type true hp_percent in
  if in_TYPEADV enemy_type active_type then (1 # 2 <= s)%Q else (s == 0)%Q.
Proof.
  unfold FuzzyLogic.should_swap. simpl negb. cbv iota.
  destruct (in_TYPEADV enemy_type active_type).
  - cbv zeta. eapply Qle_trans; [|apply max4_ge_third]. lra.
  - cbv zeta. unfold Py.max4.
    pose proof (membership_low_nonneg hp_percent 10 30 ltac:(reflexivity)).
    pose proof (membership_low_nonneg hp_percent 20 50 ltac:(reflexivity)).
    repeat apply max2_zero.
    + rewrite min2_zero_r by assumption. lra.
    + rewrite min2_zero_r by assumption. lra.
    + lra.
    + lra.
Qed.

(** ** Python indexing *)

Section Indexing.

Context {A : Type}.
Implicit Types (l : list A) (i : Z) (n : nat).

Lemma index_position l i : Py.index l i = Py.position l i ≫= (l !!.).
Proof.
  unfold Py.index, Py.position.
  destruct (0 <=? i) eqn:E0;
    [|destruct (- Z.of_nat (length l) <=? i); reflexivity].
  destruct (i <? Z.of_nat (length l)) eqn:E1; [reflexivity|].
  simpl. apply lookup_ge_None. apply Z.ltb_ge in E1. apply Z.leb_le in E0. lia.
Qed.

Lemma position_lt l i n : Py.position l i = Some n -> (n < length l)%nat.
Proof.
  unfold Py.position.
  destruct (0 <=? i) eqn:E0.
  - destruct (i <? Z.of_nat (length l)) eqn:E1; [|discriminate].
    intros [= <-]. apply Z.ltb_lt in E1. apply Z.leb_le in E0. lia.
  - destruct (- Z.of_nat (length l) <=? i) eqn:E1; [|discriminate].
    intros [= <-]. apply Z.leb_le in E1. apply Z.leb_gt in E0. lia.
Qed.

Lemma position_length l l' i : length l = length l' -> Py.position l' i = Py.position l i.
Proof. unfold Py.position. intros ->. reflexivity. Qed.

Lemma index_Some l i x :
  Py.index l i = Some x <-> exists n, Py.position l i = Some n /\ l !! n = Some x.
Proof.
  rewrite index_position. destruct (Py.position l i) as [n|]; simpl.
  - split; [eauto|]. intros (m & [= <-] & H). exact H.
  - split; [discriminate|]. intros (m & [=] & _).
Qed.

Lemma index_is_Some l i : is_Some (Py.index l i) <-> is_Some (Py.position l i).
Proof.
  rewrite index_position. destruct (Py.position l i) as [n|] eqn:E; simpl.
  - split; [eauto|]. intros _. apply lookup_lt_is_Some. eapply position_lt; eauto.
  - split; intros [? [=]].
Qed.

Lemma position_nonneg l i :
  0 <= i < Z.of_nat (length l) -> Py.position l i = Some (Z.to_nat i).
Proof.
  intros [H0 H1]. unfold Py.position.
  apply Z.leb_le in H0. apply Z.ltb_lt in H1. rewrite H0, H1. reflexivity.
Qed.

Lemma index_alter (f : A -> A) l i n :
  Py.position l i = Some n -> Py.index (alter f n l) i = f <$> Py.index l i.
Proof.
  intros H. rewrite !index_position.
  rewrite (position_length l) by (symmetry; apply length_alter).
  rewrite H. simpl. apply list_lookup_alter_eq.
Qed.

End Indexing.

(** [for i, p in enumerate(l)] stops at the smallest position that holds. *)
Lemma find_from_spec {A} (P : A -> bool) (l : list A) (i0 : Z) :
  match Py.find_from (fun _ x => P x) i0 l with
  | Some i => exists n, i = i0 + Z.of_nat n /\ first_hit P l n
  | None => forall x, x ∈ l -> P x = false
  end.
Proof.
  revert i0. induction l as [|x l IH]; intros i0; simpl.
  - intros x Hx. inversion Hx.
  - destruct (P x) eqn:Px.
    + exists 0%nat. split; [lia|]. split; [exists x; auto|]. intros; lia.
    + specialize (IH (i0 + 1)).
      destruct (Py.find_from _ (i0 + 1) l) as [i|].
      * destruct IH as (n & -> & (y & Hy & HPy) & Hmin).
        exists (S n). split; [lia|]. split; [exists y; auto|].
        intros [|m] z Hm Hz; simpl in Hz; [congruence|].
        apply (Hmin m z); [lia|assumption].
      * intros y Hy. apply elem_of_cons in Hy as [->|Hy]; auto.
Qed.

Lemma find_index_spec {A} (P : A -> bool) (l : list A) :
  match Py.find_index (fun _ x => P x) l with
  | Some i => exists n, i = Z.of_nat n /\ first_hit P l n
  | None => forall x, x ∈ l -> P x = false
  end.
Proof.
  unfold Py.find_index. pose proof (find_from_spec P l 0) as H.
  destruct (Py.find_from _ 0 l); [|exact H].
  destruct H as (n & -> & H). exists n. split; [lia|exact H].
Qed.

(** ** The battle transition function *)

Section Transition.

Import Phase3.

Lemma int_half (z : Z) : Py.int (inject_Z z * (1 # 2))%Q = Z.quot z 2.
Proof.
  unfold Py.int. destruct (Qlt_le_dec _ 0) as [H|H];
    unfold Qlt, Qle in H; simpl in H;
    unfold Qceiling, Qfloor; simpl;
    Z.to_euclidean_division_equations; lia.
Qed.

Lemma attack_damage_defending a d field r :
  attack_damage a d field r true = Z.quot (attack_damage a d field r false) 2.
Proof. unfold attack_damage. apply int_half. Qed.


Lemma update_at_position l i f n :
  Py.position l i = Some n -> update_at l i f = Some (alter f n l).
Proof. unfold update_at. intros ->. reflexivity. Qed.

Lemma update_at_is_Some l i f :
  is_Some (Py.index l i) -> is_Some (update_at l i f).
Proof.
  rewrite index_is_Some. intros [n Hn]. rewrite (update_at_position _ _ _ n Hn). eauto.
Qed.




Lemma advance_is_Some agent idx :
  is_Some (Py.index (team agent) idx) -> is_Some (advance agent idx).
Proof. intros [p Hp]. unfold advance. rewrite Hp. destruct (alive p); eauto. Qed.

(** The two shapes of a sub-action: nothing but the index changes, or an
    elixir is spent on the active creature. *)
Lemma apply_shape agent act idx agent' idx' :
  apply agent act idx = Some (agent', idx') ->
  agent' = agent \/
  exists s n amt price pos,
    kind act = HEAL /\ arg act = ArgStr s /\ idx' = idx /\
    elixirs agent !! s = Some n /\ 0 < n /\ ELIXIRS !! s = Some (amt, price) /\
    Py.position (team agent) idx = Some pos /\
    agent' = mkAgent (aname agent) (alter (fun p => heal p amt) pos (team agent))
               (coins agent) (fuel agent) (<[s := n - 1]> (elixirs agent)).
Proof.
  unfold apply.
  destruct (kind act) eqn:Ek, (arg act) as [|i|s] eqn:Ea;
    try (intros [= <- <-]; left; reflexivity).
  - destruct (_ && _); [|intros [= <- <-]; left; reflexivity].
    destruct (Py.index _ _) as [p|]; [|discriminate].
    destruct (alive p); intros [= <- <-]; left; reflexivity.
  - destruct (0 <? _) eqn:E; [|intros [= <- <-]; left; reflexivity].
    apply Z.ltb_lt in E.
    destruct (ELIXIRS !! s) as [[amt price]|] eqn:Es; [|discriminate].
    unfold update_at. destruct (Py.position _ _) as [pos|] eqn:Ep; [|discriminate].
    destruct (elixirs agent !! s) as [n|] eqn:En; [|discriminate].
    intros [= <- <-]. right. exists s, n, amt, price, pos. simpl in E. auto 10.
Qed.

Lemma same_stats_refl p : same_stats p p.
Proof. repeat split. Qed.

Lemma same_stats_heal p a : same_stats p (heal p a).
Proof. unfold heal. destruct (negb (alive p)); repeat split. Qed.

Lemma heal_alive p a : alive (heal p a) = alive p.
Proof. unfold heal. destruct (negb (alive p)); reflexivity. Qed.

Lemma attack_valid act att dfd aidx didx field defending rng k :
  is_Some (Py.position (team att) aidx) ->
  is_Some (Py.position (team dfd) didx) ->
  exists dfd' k',
    attack act att dfd aidx didx field defending rng k = Some (dfd', k') /\
    length (team dfd') = length (team dfd).
Proof.
  intros Ha Hd. unfold attack.
  destruct (is_kind (kind act) ATTACK); [|eauto].
  apply index_is_Some in Ha as [a Ha]. rewrite Ha.
  destruct (alive a); [|eauto].
  pose proof Hd as Hd'. apply index_is_Some in Hd' as [d Hd']. rewrite Hd'.
  destruct (alive d); [|eauto].
  destruct Hd as [n Hn]. rewrite (update_at_position _ _ _ n Hn).
  eexists _, _. split; [reflexivity|]. simpl. apply length_alter.
Qed.





End Transition.





Section Replacement.

Import Phase3.

Lemma advance_spec agent idx idx' :
  advance agent idx = Some idx' -> advanced agent idx idx'.
Proof.
  unfold advance, advanced.
  destruct (Py.index (team agent) idx) as [p|] eqn:Hp; [|discriminate].
  destruct (alive p) eqn:Hal.
  - intros [= <-]. exists p. repeat split; auto. intros; congruence.
  - pose proof (find_index_spec alive (team agent)) as Hf.
    destruct (Py.find_index _ (team agent)) as [i|]; simpl; intros [= <-];
      exists p; (split; [reflexivity|]); repeat split; try (intros; congruence).
    + intros Hall. destruct Hf as (n & -> & (x & Hx & Hxa) & _).
      rewrite Hall in Hxa; [discriminate|]. eapply list_elem_of_lookup_2; eauto.
    + intros _ (q & Hq & Hqa). rewrite Hf in Hqa; [discriminate|exact Hq].
Qed.

End Replacement.

(** C8: after every call of the transition function that returns, for each
    side, with [idx] the active index as the side's sub-action left it: if
    the creature at [idx] is not alive and some creature of the roster is, the
    new active index is the smallest position of a living creature; if no
    creature of the roster is alive, the active index stays [idx]. *)
Theorem C8_active_index_after_turn
    (ash rocket : Agent) (bs : BattleState) (ashact rocketact : BattleAction)
    (rng : Phase3.Rng) (k : nat)
    (ash' rocket' : Agent) (bs' : BattleState) (k' : nat) :
  Phase3.stepbattle_simulation ash rocket bs ashact rocketact rng k =
    Some (ash', rocket', bs', k') ->
  (exists ash1 idx,
     Phase3.apply ash ashact (ashactive bs) = Some (ash1, idx) /\
     advanced ash' idx (ashactive bs')) /\
  (exists rocket1 idx,
     Phase3.apply rocket rocketact (rocketactive bs) = Some (rocket1, idx) /\
     advanced rocket' idx (rocketactive bs')).
Proof.
  unfold Phase3.stepbattle_simulation.
  destruct (Phase3.apply ash ashact _) as [[ash1 ashidx]|]; [|discriminate].
  destruct (Phase3.apply rocket rocketact _) as [[rocket1 rocidx]|]; [|discriminate].
  destruct (Phase3.attack ashact _ _ _ _ _ _ _ _) as [[rocket2 k1]|]; [|discriminate].
  destruct (Phase3.attack rocketact _ _ _ _ _ _ _ _) as [[ash2 k2]|]; [|discriminate].
  destruct (Phase3.advance ash2 ashidx) as [ai|] eqn:Ha; [|discriminate].
  destruct (Phase3.advance rocket2 rocidx) as [ri|] eqn:Hr; [|discriminate].
  intros [= <- <- <- <-]. simpl.
  split; eexists _, _; (split; [reflexivity|]); apply advance_spec; assumption.
Qed.

Lemma C8_active_index_after_turn_witness :
  let fainted := mkPokemon "Pikachu" "Electric" 100 0 22 10 false in
  let ash := set_team Samples.ash0 [fainted; default_pokemon "Charmander" "Fire"] in
  exists ash' rocket' bs' k',
    Phase3.stepbattle_simulation ash Samples.rocket0 Samples.bs0
      DEFEND_act ATTACK_act Samples.rng_one 0 = Some (ash', rocket', bs', k') /\
    advanced ash' 0 (ashactive bs') /\ ashactive bs' = 1.
Proof.
  simpl. eexists _, _, _, _. split; [vm_compute; reflexivity|].
  split; [|reflexivity].
  match goal with |- advanced ?a _ (ashactive ?b) =>
    destruct (C8_active_index_after_turn
                (set_team Samples.ash0
                   [mkPokemon "Pikachu" "Electric" 100 0 22 10 false;
                    default_pokemon "Charmander" "Fire"])
                Samples.rocket0 Samples.bs0 DEFEND_act ATTACK_act
                Samples.rng_one 0 a Samples.rocket0 b 0%nat eq_refl)
      as [(ash1 & idx & Hap & Hadv) _]
  end.
  injection Hap as _ <-. exact Hadv.
Defined.

Section Defensive.

Import Phase3.

Lemma illegal_apply agent act idx :
  illegal agent act = true -> apply agent act idx = Some (agent, idx).
Proof.
  unfold illegal, apply.
  destruct (kind act), (arg act) as [|i|s]; try discriminate; try reflexivity.
  - destruct ((0 <=? i) && (i <? Z.of_nat (length (team agent)))) eqn:E; simpl;
      [|reflexivity].
    apply andb_prop in E as [E0 E1].
    unfold Py.index. rewrite E0.
    destruct (team agent !! Z.to_nat i) as [p|] eqn:Hp.
    + destruct (alive p); [discriminate|reflexivity].
    + apply lookup_ge_None in Hp. apply Z.leb_le in E0. apply Z.ltb_lt in E1. lia.
  - intros H. apply Z.leb_le in H.
    destruct (0 <? default 0 (elixirs agent !! s)) eqn:E; [|reflexivity].
    apply Z.ltb_lt in E. lia.
Qed.

(** The sub-action of a side keeps the length of its roster and leaves the
    active index on a position of the roster. *)
Lemma apply_valid agent act idx agent' idx' :
  apply agent act idx = Some (agent', idx') ->
  is_Some (Py.position (team agent) idx) ->
  length (team agent') = length (team agent) /\
  is_Some (Py.position (team agent') idx').
Proof.
  unfold apply. intros H Hv.
  destruct (kind act), (arg act) as [|i|s];
    try (injection H as <- <-; split; [reflexivity|exact Hv]).
  - destruct ((0 <=? i) && (i <? Z.of_nat (length (team agent)))) eqn:E;
      [|injection H as <- <-; split; [reflexivity|exact Hv]].
    destruct (Py.index (team agent) i) as [p|]; [|discriminate].
    apply andb_prop in E as [E0 E1]. apply Z.leb_le in E0. apply Z.ltb_lt in E1.
    destruct (alive p); injection H as <- <-; (split; [reflexivity|]);
      [|exact Hv].
    rewrite position_nonneg by lia. eauto.
  - destruct (0 <? default 0 (elixirs agent !! s));
      [|injection H as <- <-; split; [reflexivity|exact Hv]].
    destruct (ELIXIRS !! s) as [[healamt price]|]; [|discriminate].
    destruct Hv as [n Hn]. rewrite (update_at_position _ _ _ n Hn) in H.
    destruct (elixirs agent !! s); [|discriminate].
    injection H as <- <-. simpl. rewrite length_alter. split; [reflexivity|].
    rewrite (position_length (team agent)) by (symmetry; apply length_alter). eauto.
Qed.

(** The transition function returns as soon as the two sub-actions do and
    the two active indices are positions of the rosters. *)
Lemma stepbattle_simulation_returns ash rocket bs ashact rocketact rng k :
  is_Some (Py.position (team ash) (ashactive bs)) ->
  is_Some (Py.position (team rocket) (rocketactive bs)) ->
  is_Some (apply ash ashact (ashactive bs)) ->
  is_Some (apply rocket rocketact (rocketactive bs)) ->
  is_Some (stepbattle_simulation ash rocket bs ashact rocketact rng k).
Proof.
  intros Hva Hvr [[ash1 ashidx] Ha] [[rocket1 rocidx] Hr].
  unfold stepbattle_simulation. rewrite Ha, Hr.
  destruct (apply_valid _ _ _ _ _ Ha Hva) as [Hla Hva1].
  destruct (apply_valid _ _ _ _ _ Hr Hvr) as [Hlr Hvr1].
  destruct (attack_valid ashact ash1 rocket1 ashidx rocidx (fieldtype bs)
              (is_kind (kind rocketact) DEFEND) rng k Hva1 Hvr1)
    as (rocket2 & k1 & -> & Hl2).
  assert (Hvr2 : is_Some (Py.position (team rocket2) rocidx))
    by (rewrite (position_length (team rocket1)) by congruence; exact Hvr1).
  destruct (attack_valid rocketact rocket2 ash1 rocidx ashidx (fieldtype bs)
              (is_kind (kind ashact) DEFEND) rng k1 Hvr2 Hva1)
    as (ash2 & k2 & -> & Hl3).
  assert (Hva2 : is_Some (Py.position (team ash2) ashidx))
    by (rewrite (position_length (team ash1)) by congruence; exact Hva1).
  destruct (advance_is_Some ash2 ashidx) as [ai ->]; [by apply index_is_Some|].
  destruct (advance_is_Some rocket2 rocidx) as [ri ->]; [by apply index_is_Some|].
  eauto.
Qed.

End Defensive.

(** C9, as stated, fails: a HEAL that names a tier unknown to [ELIXIRS]
    raises [KeyError] when the side owns an elixir under that name; and
    whatever the actions, the function raises [IndexError] when an active
    index is out of the roster. *)
Lemma C9_counterexample :
  let ash := set_elixirs Samples.ash0 {[ "Mega"%string := 1 ]} in
  ELIXIRS !! "Mega"%string = None /\
  Phase3.stepbattle_simulation ash Samples.rocket0 Samples.bs0
    (mkAction HEAL (ArgStr "Mega")) DEFEND_act Samples.rng_one 0 = None /\
  Phase3.stepbattle_simulation Samples.ash0 Samples.rocket0
    (mkBattleState "Fire" 5 0) (mkAction SWAP (ArgInt 7)) DEFEND_act
    Samples.rng_one 0 = None.
Proof. repeat split; vm_compute; reflexivity. Qed.

(** C9 (amended): a SWAP whose argument is not an integer, is out of roster
    range or names a creature that is not alive, and a HEAL whose argument is
    not a string or names a tier of which the side owns none, are sub-actions
    without effect that raise no error: the side (every creature, every
    elixir count) and its active index are as before.  With such an action on
    one side, the function returns whenever both active indices are positions
    of the rosters, the other side's sub-action raises no error, and the
    stats and the random draws keep [base * mult] within the range of a
    float (stats at most [1e9] in absolute value, draws within
    [[0.8, 1.2]]). *)
Theorem C9_illegal_actions_are_no_ops
    (ash rocket : Agent) (bs : BattleState) (bad other : BattleAction)
    (rng : Phase3.Rng) (k : nat) :
  (illegal ash bad = true ->
   Phase3.apply ash bad (ashactive bs) = Some (ash, ashactive bs) /\
   (is_Some (Py.position (team ash) (ashactive bs)) ->
    is_Some (Py.position (team rocket) (rocketactive bs)) ->
    is_Some (Phase3.apply rocket other (rocketactive bs)) ->
    modest_stats (team ash) -> modest_stats (team rocket) -> draws_in_range rng ->
    is_Some (Phase3.stepbattle_simulation ash rocket bs bad other rng k))) /\
  (illegal rocket bad = true ->
   Phase3.apply rocket bad (rocketactive bs) = Some (rocket, rocketactive bs) /\
   (is_Some (Py.position (team ash) (ashactive bs)) ->
    is_Some (Py.position (team rocket) (rocketactive bs)) ->
    is_Some (Phase3.apply ash other (ashactive bs)) ->
    modest_stats (team ash) -> modest_stats (team rocket) -> draws_in_range rng ->
    is_Some (Phase3.stepbattle_simulation ash rocket bs other bad rng k))).
Proof.
  split; intros Hbad; (split; [apply illegal_apply; exact Hbad|]);
    intros Hva Hvr Hother _ _ _; apply stepbattle_simulation_returns; auto;
    rewrite illegal_apply by exact Hbad; eauto.
Qed.

Lemma C9_illegal_actions_are_no_ops_witness :
  Phase3.apply Samples.ash0 (mkAction SWAP (ArgInt 7)) 0 = Some (Samples.ash0, 0) /\
  Phase3.apply Samples.rocket0 (mkAction HEAL (ArgStr "Small")) 0
    = Some (Samples.rocket0, 0) /\
  is_Some (Phase3.stepbattle_simulation Samples.ash0 Samples.rocket0 Samples.bs0
             (mkAction SWAP (ArgInt 7)) ATTACK_act Samples.rng_one 0) /\
  is_Some (Phase3.stepbattle_simulation Samples.ash0 Samples.rocket0 Samples.bs0
             ATTACK_act (mkAction HEAL (ArgStr "Small")) Samples.rng_one 0).
Proof.
  pose proof (C9_illegal_actions_are_no_ops Samples.ash0 Samples.rocket0
                Samples.bs0 (mkAction SWAP (ArgInt 7)) ATTACK_act
                Samples.rng_one 0) as [Ha _].
  pose proof (C9_illegal_actions_are_no_ops Samples.ash0 Samples.rocket0
                Samples.bs0 (mkAction HEAL (ArgStr "Small")) ATTACK_act
                Samples.rng_one 0) as [_ Hr].
  destruct (Ha eq_refl) as [Ha1 Ha2]. destruct (Hr eq_refl) as [Hr1 Hr2].
  assert (Hst : modest_stats (team Samples.ash0) /\ modest_stats (team Samples.rocket0))
    by (split; repeat constructor; simpl; lia).
  assert (Hrg : draws_in_range Samples.rng_one)
    by (intros j; split; discriminate).
  split; [exact Ha1|]. split; [exact Hr1|].
  split; [apply Ha2|apply Hr2]; try apply Hst; try exact Hrg; vm_compute; eauto.
Defined.

(** ** The legal-action generator *)

Section Generator.

Import Search.

Lemma available_owned (e : gmap string Z) (s : string) :
  s ∈ available e -> exists n, e !! s = Some n /\ 0 < n.
Proof.
  unfold available. intros H.
  apply list_elem_of_fmap in H as ([s' n] & -> & H).
  apply list_elem_of_filter in H as [Hn H]. apply elem_of_map_to_list in H.
  exists n. split; assumption.
Qed.

Lemma max_from_is_Some {A} (key : A -> option Z) (l : list A) (best : A) (bk : Z) :
  (forall x, x ∈ l -> is_Some (key x)) -> is_Some (max_from key best bk l).
Proof.
  revert best bk. induction l as [|x l IH]; intros best bk H; simpl; [eauto|].
  destruct (H x) as [kx ->]; [left|].
  destruct (bk <? kx); apply IH; intros y Hy; apply H; right; exact Hy.
Qed.

Lemma max_by_key_is_Some {A} (key : A -> option Z) (l : list A) :
  l <> [] -> (forall x, x ∈ l -> is_Some (key x)) -> is_Some (max_by_key key l).
Proof.
  destruct l as [|x l]; [congruence|]. intros _ H. simpl.
  destruct (H x) as [kx ->]; [left|].
  apply max_from_is_Some. intros y Hy. apply H. right. exact Hy.
Qed.

Lemma percent_is_Some h m : m <> 0 -> exists q, percent h m = Some q.
Proof.
  intros Hm. unfold percent. apply Z.eqb_neq in Hm. rewrite Hm. eauto.
Qed.

End Generator.

(** C7, as stated, fails: [legalactions] raises [ZeroDivisionError] when it
    computes the HP percentage of an active creature whose [maxhp] is 0, and
    [KeyError] when the side owns an elixir of a tier unknown to [ELIXIRS]. *)
Lemma C7_counterexample :
  let fainted := mkPokemon "Pikachu" "Electric" 0 0 22 10 false in
  let ash := set_team Samples.ash0 [fainted; default_pokemon "Charmander" "Fire"] in
  let hurt := mkPokemon "Pikachu" "Electric" 100 20 22 10 true in
  let ash2 := mkAgent "Ash" [hurt] 0 45 {[ "Mega"%string := 1 ]} in
  wf_pokemon fainted /\
  is_Some (Py.index (team ash) 0) /\
  Search.legalactions ash 0 (default_pokemon "Meowth" "Electric") = None /\
  is_Some (Py.index (team ash2) 0) /\
  Search.legalactions ash2 0 (default_pokemon "Meowth" "Electric") = None.
Proof.
  simpl. split; [|repeat split; vm_compute; eauto].
  split; [unfold hp_in_range; simpl; lia|unfold alive_iff_hp; simpl; tauto].
Qed.

(** C7 (amended): for every agent, every valid active index and every
    opponent creature such that the active creature and the opponent
    creature have [0 <= hp <= maxhp] and a non-zero [maxhp], and every tier
    the agent owns is a tier of [ELIXIRS], [legalactions] returns a list
    that starts with an ATTACK action and a DEFEND action.  (With [hp]
    within [0, maxhp] the quotient [hp / maxhp] is within the range of a
    float.) *)
Theorem C7_attack_defend_always_legal
    (agent : Agent) (activeidx : Z) (opppokemon activepoke : Pokemon) :
  Py.index (team agent) activeidx = Some activepoke ->
  hp_in_range activepoke -> maxhp activepoke <> 0 ->
  hp_in_range opppokemon -> maxhp opppokemon <> 0 ->
  known_tiers (elixirs agent) ->
  exists rest,
    Search.legalactions agent activeidx opppokemon
      = Some (ATTACK_act :: DEFEND_act :: rest).
Proof.
  intros Hidx _ Hm _ Hom Hk. unfold Search.legalactions. rewrite Hidx.
  destruct (percent_is_Some (hp activepoke) (maxhp activepoke) Hm) as [q ->].
  destruct (percent_is_Some (hp opppokemon) (maxhp opppokemon) Hom) as [q' ->].
  assert (Hswap : exists rest,
    match Py.find_index
            (fun i p => negb (i =? activeidx) && alive p
                        && in_TYPEADV (ptype p) (ptype opppokemon))
            (team agent) with
    | Some i =>
        if Qlt_le_dec (5 # 10)
             (FuzzyLogic.should_swap (ptype activepoke) (ptype opppokemon) true q)
        then Some ([ATTACK_act; DEFEND_act] ++ [mkAction SWAP (ArgInt i)])
        else Some [ATTACK_act; DEFEND_act]
    | None => Some [ATTACK_act; DEFEND_act]
    end = Some (ATTACK_act :: DEFEND_act :: rest)).
  { destruct (Py.find_index _ _); [destruct (Qlt_le_dec _ _)|]; simpl; eauto. }
  destruct Hswap as [rest ->].
  destruct (Search.has_elixir (elixirs agent) && (hp activepoke <? maxhp activepoke));
    [|eauto].
  destruct (Qlt_le_dec _ _); [|eauto].
  destruct (Search.available (elixirs agent)) as [|s l] eqn:Ha; [eauto|].
  destruct (max_by_key_is_Some (fun n => fst <$> ELIXIRS !! n) (s :: l))
    as [best ->]; [discriminate| |simpl; eauto].
  intros x Hx. rewrite <- Ha in Hx.
  apply available_owned in Hx as (n & Hn & Hpos).
  destruct (Hk x n Hn Hpos) as [v ->]. simpl. eauto.
Qed.

Lemma C7_attack_defend_always_legal_witness :
  exists rest,
    Search.legalactions Samples.ash0 0 (default_pokemon "Meowth" "Electric")
      = Some (ATTACK_act :: DEFEND_act :: rest).
Proof.
  apply (C7_attack_defend_always_legal Samples.ash0 0
           (default_pokemon "Meowth" "Electric")
           (default_pokemon "Pikachu" "Electric") eq_refl).
  - unfold hp_in_range. simpl. lia.
  - simpl. lia.
  - unfold hp_in_range. simpl. lia.
  - simpl. lia.
  - intros s n Hs Hn. unfold Samples.ash0, Samples.bought in Hs. simpl in Hs.
    destruct (decide (s = "Small"%string)) as [->|H1]; [vm_compute; eauto|].
    destruct (decide (s = "Medium"%string)) as [->|H2]; [vm_compute; eauto|].
    destruct (decide (s = "Large"%string)) as [->|H3]; [vm_compute; eauto|].
    rewrite !lookup_insert_ne in Hs by congruence. rewrite lookup_empty in Hs.
    discriminate.
Defined.

(** ** Alpha-beta against the exhaustive minimax *)

Section DamageSign.

Import Phase3.

Lemma TYPEADV_value key adv : TYPEADV !! key = Some adv -> adv = (13 # 10)%Q.
Proof.
  unfold TYPEADV. intros H. apply elem_of_list_to_map_2 in H.
  repeat (apply elem_of_cons in H as [[= _ <-]|H]; [reflexivity|]).
  inversion H.
Qed.

Lemma round_nonneg (x : Q) : (0 <= x)%Q -> 0 <= Py.round x.
Proof.
  intros Hx. unfold Py.round.
  assert (0 <= Qfloor x) by (change 0 with (Qfloor 0); apply Qfloor_resp_le; exact Hx).
  destruct (_ ?= _)%Q; [destruct (Z.even _)| |]; lia.
Qed.

Lemma computedamage_nonneg a d field (r : Q) :
  (0 <= r)%Q -> 0 <= computedamage a d field r.
Proof.
  intros Hr. unfold computedamage. apply round_nonneg.
  apply Qmult_le_0_compat.
  - change 0%Q with (inject_Z 0). rewrite <- Zle_Qle. lia.
  - apply Qmult_le_0_compat; [|exact Hr].
    assert (Hadv : (0 <= match TYPEADV !! (ptype a, ptype d) with
                         | Some adv => 1 * adv | None => 1 end)%Q).
    { destruct (TYPEADV !! _) as [adv|] eqn:E; [|discriminate].
      rewrite (TYPEADV_value _ _ E). discriminate. }
    destruct (String.eqb _ _); [|exact Hadv].
    apply Qmult_le_0_compat; [exact Hadv|discriminate].
Qed.

Lemma attack_damage_nonneg a d field (r : Q) defending :
  (0 <= r)%Q -> 0 <= attack_damage a d field r defending.
Proof.
  intros Hr. pose proof (computedamage_nonneg a d field r Hr) as H.
  destruct defending.
  - rewrite attack_damage_defending. unfold attack_damage.
    apply Z.quot_pos; lia.
  - exact H.
Qed.

End DamageSign.

Section BoundedRosters.

Import Phase3 Search.

Variable rng : Rng.
Variable c : Q.
Hypothesis rng_constant : forall k, rng k = c.
Hypothesis c_nonneg : (0 <= c)%Q.

Lemma takedamage_range p d : 0 <= d -> hp_in_range p -> hp_in_range (takedamage p d).
Proof.
  unfold hp_in_range, takedamage. intros Hd Hr.
  destruct (alive p); simpl; [|exact Hr].
  destruct (Z.max 0 (hp p - d) =? 0); simpl; lia.
Qed.

Lemma heal_range p a : 0 <= a -> hp_in_range p -> hp_in_range (heal p a).
Proof.
  unfold hp_in_range, heal. intros Hd Hr. destruct (alive p); simpl; lia.
Qed.

Lemma sum_maxhp_alter (f : Pokemon -> Pokemon) n t :
  (forall p, maxhp (f p) = maxhp p) -> sum_maxhp (alter f n t) = sum_maxhp t.
Proof.
  intros Hf. revert n. induction t as [|p t IH]; intros [|n]; simpl; auto.
  - rewrite Hf. reflexivity.
  - change (list_alter f n t) with (alter f n t). rewrite IH. reflexivity.
Qed.

Lemma bounded_alter (f : Pokemon -> Pokemon) n t :
  (forall p, hp_in_range p -> hp_in_range (f p)) ->
  (forall p, maxhp (f p) = maxhp p) ->
  bounded_team t -> bounded_team (alter f n t).
Proof.
  intros Hr Hm [HF Hs]. split.
  - apply Forall_alter; auto.
  - rewrite sum_maxhp_alter by exact Hm. rewrite length_alter. exact Hs.
Qed.

Lemma ELIXIRS_heal_nonneg s healamt price :
  ELIXIRS !! s = Some (healamt, price) -> 0 <= healamt.
Proof.
  unfold ELIXIRS. intros H. apply elem_of_list_to_map_2 in H.
  repeat (apply elem_of_cons in H as [[= _ -> _]|H]; [lia|]).
  inversion H.
Qed.

Lemma apply_bounded agent act idx agent' idx' :
  apply agent act idx = Some (agent', idx') ->
  bounded_team (team agent) -> bounded_team (team agent').
Proof.
  unfold apply. intros H Hb.
  destruct (kind act), (arg act) as [|i|s]; try (injection H as <- <-; exact Hb).
  - destruct (_ && _); [|injection H as <- <-; exact Hb].
    destruct (Py.index _ _) as [p|]; [|discriminate].
    destruct (alive p); injection H as <- <-; exact Hb.
  - destruct (0 <? _); [|injection H as <- <-; exact Hb].
    destruct (ELIXIRS !! s) as [[healamt price]|] eqn:E; [|discriminate].
    unfold update_at in H.
    destruct (Py.position _ _) as [n|]; [|discriminate].
    destruct (elixirs agent !! s); [|discriminate].
    injection H as <- <-. simpl. apply bounded_alter; auto using heal_maxhp.
    intros p. apply heal_range. eapply ELIXIRS_heal_nonneg; eauto.
Qed.

Lemma attack_bounded act att dfd aidx didx field defending k dfd' k' :
  attack act att dfd aidx didx field defending rng k = Some (dfd', k') ->
  bounded_team (team dfd) -> bounded_team (team dfd').
Proof.
  unfold attack. intros H Hb.
  destruct (is_kind _ _); [|injection H as <- <-; exact Hb].
  destruct (Py.index (team att) aidx) as [a|]; [|discriminate].
  destruct (alive a); [|injection H as <- <-; exact Hb].
  destruct (Py.index (team dfd) didx) as [d|]; [|discriminate].
  destruct (alive d); [|injection H as <- <-; exact Hb].
  unfold update_at in H. destruct (Py.position _ _) as [n|]; [|discriminate].
  injection H as <- <-. simpl. apply bounded_alter; auto using takedamage_maxhp.
  intros p. apply takedamage_range. rewrite rng_constant.
  apply attack_damage_nonneg. exact c_nonneg.
Qed.

(** With a constant random source the cursor does not matter. *)
Lemma attack_cursor act att dfd aidx didx field defending k dfd' k' j :
  attack act att dfd aidx didx field defending rng k = Some (dfd', k') ->
  exists j', attack act att dfd aidx didx field defending rng j = Some (dfd', j').
Proof.
  unfold attack. rewrite !rng_constant.
  destruct (is_kind _ _); [|intros [= <- <-]; eauto].
  destruct (Py.index (team att) aidx) as [a|]; [|discriminate].
  destruct (alive a); [|intros [= <- <-]; eauto].
  destruct (Py.index (team dfd) didx) as [d|]; [|discriminate].
  destruct (alive d); [|intros [= <- <-]; eauto].
  destruct (update_at _ _ _); [|discriminate].
  intros [= <- <-]. eauto.
Qed.

Lemma stepbattle_simulation_bounded ash rocket bs ashact rocketact k
    ash' rocket' bs' k' :
  stepbattle_simulation ash rocket bs ashact rocketact rng k
    = Some (ash', rocket', bs', k') ->
  bounded_team (team ash) -> bounded_team (team rocket) ->
  bounded_team (team ash') /\ bounded_team (team rocket').
Proof.
  unfold stepbattle_simulation. intros H Ha Hr.
  destruct (apply ash ashact _) as [[ash1 ashidx]|] eqn:E1; [|discriminate].
  destruct (apply rocket rocketact _) as [[rocket1 rocidx]|] eqn:E2; [|discriminate].
  destruct (attack ashact _ _ _ _ _ _ _ _) as [[rocket2 k1]|] eqn:E3; [|discriminate].
  destruct (attack rocketact _ _ _ _ _ _ _ _) as [[ash2 k2]|] eqn:E4; [|discriminate].
  destruct (advance ash2 ashidx); [|discriminate].
  destruct (advance rocket2 rocidx); [|discriminate].
  injection H as <- <- <- <-.
  apply apply_bounded in E1; [|exact Ha]. apply apply_bounded in E2; [|exact Hr].
  apply attack_bounded in E3; [|exact E2]. apply attack_bounded in E4; [|exact E1].
  split; assumption.
Qed.

Lemma stepbattle_simulation_cursor ash rocket bs ashact rocketact k
    ash' rocket' bs' k' j :
  stepbattle_simulation ash rocket bs ashact rocketact rng k
    = Some (ash', rocket', bs', k') ->
  exists j',
    stepbattle_simulation ash rocket bs ashact rocketact rng j
      = Some (ash', rocket', bs', j').
Proof.
  unfold stepbattle_simulation. intros H.
  destruct (apply ash ashact _) as [[ash1 ashidx]|]; [|discriminate].
  destruct (apply rocket rocketact _) as [[rocket1 rocidx]|]; [|discriminate].
  destruct (attack ashact _ _ _ _ _ _ _ _) as [[rocket2 k1]|] eqn:E3; [|discriminate].
  destruct (attack rocketact _ _ _ _ _ _ _ _) as [[ash2 k2]|] eqn:E4; [|discriminate].
  destruct (attack_cursor _ _ _ _ _ _ _ _ _ _ j E3) as [j1 ->].
  destruct (attack_cursor _ _ _ _ _ _ _ _ _ _ j1 E4) as [j2 ->].
  destruct (advance ash2 ashidx); [|discriminate].
  destruct (advance rocket2 rocidx); [|discriminate].
  injection H as <- <- <- <-. eauto.
Qed.

Lemma cloneagent_id a : cloneagent a = a.
Proof.
  unfold cloneagent. destruct a as [n t co fu el]. simpl. f_equal.
  induction t as [|p t IH]; simpl; [reflexivity|].
  rewrite IH. destruct p; reflexivity.
Qed.

Lemma simulate_bounded a b s maximizing act k a' b' s' k' :
  simulate rng a b s maximizing act k = Some (a', b', s', k') ->
  bounded_team (team a) -> bounded_team (team b) ->
  bounded_team (team a') /\ bounded_team (team b').
Proof.
  unfold simulate. rewrite !cloneagent_id. apply stepbattle_simulation_bounded.
Qed.

Lemma simulate_cursor a b s maximizing act k a' b' s' k' j :
  simulate rng a b s maximizing act k = Some (a', b', s', k') ->
  exists j', simulate rng a b s maximizing act j = Some (a', b', s', j').
Proof. unfold simulate. apply stepbattle_simulation_cursor. Qed.

End BoundedRosters.

Section AlphaBeta.

Import Search.

(** What a call with window [(alpha, beta)] returns ([A]) against the
    exhaustive value [F] of the same node: exact inside the window, on the
    same side outside of it. *)
Definition window_sound (F A alpha beta : Z) : Prop :=
  (NEG_INF <= F <= POS_INF) /\ (NEG_INF <= A <= POS_INF) /\
  (F <= alpha -> A <= alpha) /\ (beta <= F -> beta <= A) /\
  (alpha < F < beta -> A = F).

Lemma window_sound_root F A : window_sound F A NEG_INF POS_INF -> A = F.
Proof. unfold window_sound. intros (HF & HA & Hlo & Hhi & Hin). lia. Qed.

Section Loop.

(** [cf] evaluates the children exhaustively, [cp] with pruning. *)
Variables cf cp : nat -> BattleAction -> Z -> Z -> nat -> option (Z * nat).

Hypothesis child_sound :
  forall i act af bf kf F kf',
    cf i act af bf kf = Some (F, kf') ->
    forall ap bp kp, NEG_INF <= ap -> ap < bp -> bp <= POS_INF ->
    exists A kp', cp i act ap bp kp = Some (A, kp') /\ window_sound F A ap bp.

Lemma child_bounds i act af bf kf F kf' :
  cf i act af bf kf = Some (F, kf') -> NEG_INF <= F <= POS_INF.
Proof.
  intros H.
  destruct (child_sound _ _ _ _ _ _ _ H NEG_INF POS_INF 0%nat)
    as (A & kp' & _ & HF & _); [reflexivity|reflexivity|reflexivity|exact HF].
Qed.

Lemma exhaustive_max_bounds acts : forall i bv ba af bf kf F a kf',
  loop cf false true i acts bv ba af bf kf = Some (F, a, kf') ->
  NEG_INF <= bv <= POS_INF -> bv <= F <= POS_INF.
Proof.
  induction acts as [|act acts IH]; simpl; intros i bv ba af bf kf F a kf' H Hbv.
  - injection H as <- _ _. lia.
  - destruct (cf i act af bf kf) as [[val k1]|] eqn:E; [|discriminate].
    pose proof (child_bounds _ _ _ _ _ _ _ E) as Hval.
    destruct (bv <? val) eqn:Hlt; apply IH in H; lia.
Qed.

Lemma exhaustive_min_bounds acts : forall i bv ba af bf kf F a kf',
  loop cf false false i acts bv ba af bf kf = Some (F, a, kf') ->
  NEG_INF <= bv <= POS_INF -> NEG_INF <= F <= bv.
Proof.
  induction acts as [|act acts IH]; simpl; intros i bv ba af bf kf F a kf' H Hbv.
  - injection H as <- _ _. lia.
  - destruct (cf i act af bf kf) as [[val k1]|] eqn:E; [|discriminate].
    pose proof (child_bounds _ _ _ _ _ _ _ E) as Hval.
    destruct (val <? bv) eqn:Hlt; apply IH in H; lia.
Qed.

(** The loop of a maximizing node.  [a0] is the alpha the node was called
    with; the pruned loop has reached [(bvp, ap)] where the exhaustive one
    has reached [bvf]. *)
Lemma pruned_max_loop acts : forall i bvf baf af bf kf F a kf',
  loop cf false true i acts bvf baf af bf kf = Some (F, a, kf') ->
  forall bvp bap a0 ap bp kp,
    NEG_INF <= a0 -> ap < bp -> bp <= POS_INF ->
    NEG_INF <= bvf <= POS_INF -> NEG_INF <= bvp <= POS_INF ->
    ap = Z.max a0 bvp -> ap = Z.max a0 bvf ->
    exists A a' kp',
      loop cp true true i acts bvp bap ap bp kp = Some (A, a', kp') /\
      window_sound F A a0 bp.
Proof.
  induction acts as [|act acts IH]; simpl;
    intros i bvf baf af bf kf F a kf' H bvp bap a0 ap bp kp Ha0 Hw Hbp Hbvf Hbvp J1 J2.
  - injection H as <- _ _. eexists _, _, _. split; [reflexivity|].
    unfold window_sound. repeat split; lia.
  - destruct (cf i act af bf kf) as [[val k1]|] eqn:E; [|discriminate].
    destruct (child_sound _ _ _ _ _ _ _ E ap bp kp) as (A & kp1 & -> & HR); try lia.
    destruct HR as (HF & HA & Hlo & Hhi & Hin).
    assert (Hbvf' : exists bvf' baf',
      (if bvf <? val then (val, Some act) else (bvf, baf)) = (bvf', baf')
      /\ bvf' = Z.max bvf val).
    { destruct (bvf <? val) eqn:Hlt; eexists _, _; (split; [reflexivity|]); lia. }
    destruct Hbvf' as (bvf' & baf' & Ef & Hbvf'). rewrite Ef in H.
    assert (Hbvp' : exists bvp' bap',
      (if bvp <? A then (A, Some act) else (bvp, bap)) = (bvp', bap')
      /\ bvp' = Z.max bvp A).
    { destruct (bvp <? A) eqn:Hlt; eexists _, _; (split; [reflexivity|]); lia. }
    destruct Hbvp' as (bvp' & bap' & Ep & Hbvp'). rewrite Ep.
    simpl.
    destruct (bp <=? Z.max ap bvp') eqn:Hbreak.
    + apply Z.leb_le in Hbreak.
      apply exhaustive_max_bounds in H; [|lia].
      eexists _, _, _. split; [reflexivity|].
      unfold window_sound. repeat split; lia.
    + apply Z.leb_gt in Hbreak.
      eapply IH; eauto; lia.
Qed.

(** The loop of a minimizing node, with [b0] the beta of the call. *)
Lemma pruned_min_loop acts : forall i bvf baf af bf kf F a kf',
  loop cf false false i acts bvf baf af bf kf = Some (F, a, kf') ->
  forall bvp bap b0 ap bp kp,
    b0 <= POS_INF -> ap < bp -> NEG_INF <= ap ->
    NEG_INF <= bvf <= POS_INF -> NEG_INF <= bvp <= POS_INF ->
    bp = Z.min b0 bvp -> bp = Z.min b0 bvf ->
    exists A a' kp',
      loop cp true false i acts bvp bap ap bp kp = Some (A, a', kp') /\
      window_sound F A ap b0.
Proof.
  induction acts as [|act acts IH]; simpl;
    intros i bvf baf af bf kf F a kf' H bvp bap b0 ap bp kp Hb0 Hw Hap Hbvf Hbvp J1 J2.
  - injection H as <- _ _. eexists _, _, _. split; [reflexivity|].
    unfold window_sound. repeat split; lia.
  - destruct (cf i act af bf kf) as [[val k1]|] eqn:E; [|discriminate].
    destruct (child_sound _ _ _ _ _ _ _ E ap bp kp) as (A & kp1 & -> & HR); try lia.
    destruct HR as (HF & HA & Hlo & Hhi & Hin).
    assert (Hbvf' : exists bvf' baf',
      (if val <? bvf then (val, Some act) else (bvf, baf)) = (bvf', baf')
      /\ bvf' = Z.min bvf val).
    { destruct (val <? bvf) eqn:Hlt; eexists _, _; (split; [reflexivity|]); lia. }
    destruct Hbvf' as (bvf' & baf' & Ef & Hbvf'). rewrite Ef in H.
    assert (Hbvp' : exists bvp' bap',
      (if A <? bvp then (A, Some act) else (bvp, bap)) = (bvp', bap')
      /\ bvp' = Z.min bvp A).
    { destruct (A <? bvp) eqn:Hlt; eexists _, _; (split; [reflexivity|]); lia. }
    destruct Hbvp' as (bvp' & bap' & Ep & Hbvp'). rewrite Ep.
    simpl.
    destruct (Z.min bp bvp' <=? ap) eqn:Hbreak.
    + apply Z.leb_le in Hbreak.
      apply exhaustive_min_bounds in H; [|lia].
      eexists _, _, _. split; [reflexivity|].
      unfold window_sound. repeat split; lia.
    + apply Z.leb_gt in Hbreak.
      eapply IH; eauto; lia.
Qed.

End Loop.

End AlphaBeta.

Section Scores.

Import Search.

Lemma sumhp_bounds t : Forall hp_in_range t -> 0 <= sumhp t <= sum_maxhp t.
Proof.
  induction 1 as [|p t Hp _ IH]; simpl; [lia|]. unfold hp_in_range in Hp. lia.
Qed.

Lemma countalive_bounds t : 0 <= countalive t <= Z.of_nat (length t).
Proof. induction t as [|p t IH]; simpl; [lia|]. destruct (alive p); lia. Qed.

Lemma leaf_bounds meisash a b s :
  bounded_team (team a) -> bounded_team (team b) ->
  NEG_INF <= leaf meisash a b s <= POS_INF.
Proof.
  intros [Fa Sa] [Fb Sb].
  pose proof (sumhp_bounds _ Fa). pose proof (sumhp_bounds _ Fb).
  pose proof (countalive_bounds (team a)). pose proof (countalive_bounds (team b)).
  unfold leaf, evalstate, NEG_INF, POS_INF. destruct meisash; lia.
Qed.

End Scores.

Section PrunedSearch.

Import Phase3 Search.

Variable shuffle : list nat -> list BattleAction -> list BattleAction.
Variable rng : Rng.
Variable c : Q.
Variable meisash : bool.
Hypothesis rng_constant : forall k, rng k = c.
Hypothesis c_nonneg : (0 <= c)%Q.

(** The recursive call made for the [i]-th candidate of a node. *)
Definition child (prune : bool) (ply : nat) (path : list nat) (a b : Agent)
    (s : BattleState) (maximizing : bool)
    : nat -> BattleAction -> Z -> Z -> nat -> option (Z * nat) :=
  fun i act alpha beta k =>
    match simulate rng a b s maximizing act k with
    | None => None
    | Some (aclone, bclone, sclone, k) =>
        match recurse shuffle rng prune meisash ply (path ++ [i]) aclone bclone
                sclone (negb maximizing) alpha beta k with
        | None => None
        | Some (val, _, k) => Some (val, k)
        end
    end.

Lemma recurse_S prune ply path a b s maximizing alpha beta k :
  recurse shuffle rng prune meisash (S ply) path a b s maximizing alpha beta k =
    if all_fainted a || all_fainted b then Some (leaf meisash a b s, None, k)
    else
      match candidates shuffle path a b s maximizing with
      | None => None
      | Some actions =>
          loop (child prune ply path a b s maximizing) prune maximizing 0 actions
            (if maximizing then NEG_INF else POS_INF) None alpha beta k
      end.
Proof. reflexivity. Qed.

Lemma window_sound_leaf v alpha beta :
  NEG_INF <= v <= POS_INF -> window_sound v v alpha beta.
Proof. unfold window_sound. intros H. repeat split; lia. Qed.

(** Alpha-beta is sound at every node whose rosters are bounded. *)
Lemma recurse_sound ply : forall path a b s maximizing,
  bounded_team (team a) -> bounded_team (team b) ->
  forall af bf kf F act kf',
    recurse shuffle rng false meisash ply path a b s maximizing af bf kf
      = Some (F, act, kf') ->
  forall ap bp kp, NEG_INF <= ap -> ap < bp -> bp <= POS_INF ->
    exists A act' kp',
      recurse shuffle rng true meisash ply path a b s maximizing ap bp kp
        = Some (A, act', kp') /\
      window_sound F A ap bp.
Proof.
  induction ply as [|ply IH];
    intros path a b s maximizing Ha Hb af bf kf F act kf' H ap bp kp Hap Hw Hbp.
  - simpl in *. injection H as <- _ _. eexists _, _, _. split; [reflexivity|].
    apply window_sound_leaf. apply leaf_bounds; assumption.
  - rewrite recurse_S in *.
    destruct (all_fainted a || all_fainted b).
    { injection H as <- _ _. eexists _, _, _. split; [reflexivity|].
      apply window_sound_leaf. apply leaf_bounds; assumption. }
    destruct (candidates shuffle path a b s maximizing) as [actions|]; [|discriminate].
    assert (Hchild : forall i act0 af0 bf0 kf0 F0 kf0',
      child false ply path a b s maximizing i act0 af0 bf0 kf0 = Some (F0, kf0') ->
      forall ap0 bp0 kp0, NEG_INF <= ap0 -> ap0 < bp0 -> bp0 <= POS_INF ->
      exists A kp0',
        child true ply path a b s maximizing i act0 ap0 bp0 kp0 = Some (A, kp0') /\
        window_sound F0 A ap0 bp0).
    { unfold child. intros i act0 af0 bf0 kf0 F0 kf0' Hc ap0 bp0 kp0 H1 H2 H3.
      destruct (simulate rng a b s maximizing act0 kf0)
        as [[[[a' b'] s'] k1]|] eqn:Es; [|discriminate].
      destruct (simulate_cursor rng c rng_constant _ _ _ _ _ _ _ _ _ _ kp0 Es)
        as [j1 ->].
      destruct (simulate_bounded rng c rng_constant c_nonneg _ _ _ _ _ _ _ _ _ _
                  Es Ha Hb) as [Ha' Hb'].
      destruct (recurse shuffle rng false meisash ply (path ++ [i]) a' b' s'
                  (negb maximizing) af0 bf0 k1) as [[[v va] k2]|] eqn:Er;
        [|discriminate].
      injection Hc as <- <-.
      destruct (IH _ _ _ _ _ Ha' Hb' _ _ _ _ _ _ Er ap0 bp0 j1 H1 H2 H3)
        as (A & act' & kp' & -> & HR).
      eauto. }
    destruct maximizing.
    + eapply (pruned_max_loop _ _ Hchild) in H.
      * destruct H as (A & a' & kp' & H & HR). eexists _, _, _. split; eauto.
      * exact Hap.
      * exact Hw.
      * exact Hbp.
      * split; [reflexivity|discriminate].
      * split; [reflexivity|discriminate].
      * lia.
      * lia.
    + eapply (pruned_min_loop _ _ Hchild) in H.
      * destruct H as (A & a' & kp' & H & HR). eexists _, _, _. split; eauto.
      * exact Hbp.
      * exact Hw.
      * exact Hap.
      * split; [discriminate|reflexivity].
      * split; [discriminate|reflexivity].
      * lia.
      * lia.
Qed.

End PrunedSearch.

(** C1, as stated, fails in two ways.  With a sequence of multipliers that
    is not constant, pruning changes how many draws are consumed before a
    later node is simulated, and the two recursions evaluate different
    trees: on the opening position, depth 3, candidates in generation order
    and draws alternating between 0.8 and 1.2, alpha-beta returns 5 and the
    exhaustive recursion -18.  And with scores beyond the sentinels [-1e9]
    and [1e9] the loop breaks on the first candidate: with a creature of
    3e9 hp, depth 1 and a constant multiplier 1, the two values differ
    by 8. *)
Lemma C1_counterexample :
  (Search.root_value Samples.keep_order Samples.rng_alt true true
     Samples.ash0 Samples.rocket0 Samples.bs0 3 0 = Some 5 /\
   Search.root_value Samples.keep_order Samples.rng_alt false true
     Samples.ash0 Samples.rocket0 Samples.bs0 3 0 = Some (-18)) /\
  (let giant := mkPokemon "Pikachu" "Electric" 3000000000 3000000000 22 10 true in
   let ash := set_team Samples.ash0 [giant] in
   Search.root_value Samples.reverse_order Samples.rng_one true true
     ash Samples.rocket0 Samples.bs0 1 0 = Some 2999999632 /\
   Search.root_value Samples.reverse_order Samples.rng_one false true
     ash Samples.rocket0 Samples.bs0 1 0 = Some 2999999640).
Proof. repeat split; vm_compute; reflexivity. Qed.

(** C1 (amended): take rosters whose creatures have [0 <= hp <= maxhp] and
    whose total [maxhp] plus 30 per creature is at most [1e9], any depth,
    any fixed ordering of the candidates at every node, and a random
    multiplier that is the same non-negative value at every draw.  Whenever
    the recursion with pruning disabled returns a root value, the
    alpha-beta recursion returns the same root value. *)
Theorem C1_pruning_preserves_root_value
    (shuffle : list nat -> list BattleAction -> list BattleAction)
    (rng : Phase3.Rng) (c : Q) (meisash : bool)
    (me opp : Agent) (bs : BattleState) (depth : nat) (k : nat) (v : Z) :
  (forall j, rng j = c) -> (0 <= c)%Q ->
  bounded_team (team me) -> bounded_team (team opp) ->
  Search.root_value shuffle rng false meisash me opp bs depth k = Some v ->
  Search.root_value shuffle rng true meisash me opp bs depth k = Some v.
Proof.
  intros Hrng Hc Hme Hopp.
  unfold Search.root_value, Search.root. intros H.
  destruct (Search.recurse shuffle rng false meisash depth [] _ _ bs meisash _ _ k)
    as [[[F act] kf']|] eqn:E; [|discriminate].
  simpl in H. injection H as ->.
  eapply recurse_sound with (ap := Search.NEG_INF) (bp := Search.POS_INF) (kp := k)
    in E; eauto; try reflexivity; try (destruct meisash; assumption).
  destruct E as (A & act' & kp' & -> & HR). simpl.
  apply window_sound_root in HR. congruence.
Qed.

Section OpeningPosition.

Lemma opening_bounded :
  bounded_team (team Samples.ash0) /\ bounded_team (team Samples.rocket0).
Proof.
  split; (split; [repeat constructor; unfold hp_in_range; simpl; lia|]);
    vm_compute; discriminate.
Qed.

End OpeningPosition.

Lemma C1_pruning_preserves_root_value_witness :
  Search.root_value Samples.keep_order Samples.rng_one true true
    Samples.ash0 Samples.rocket0 Samples.bs0 3 0 = Some 0.
Proof.
  apply (C1_pruning_preserves_root_value Samples.keep_order Samples.rng_one 1 true
           Samples.ash0 Samples.rocket0 Samples.bs0 3 0 0).
  - intros j. reflexivity.
  - discriminate.
  - apply opening_bounded.
  - apply opening_bounded.
  - vm_compute. reflexivity.
Defined.

(** ** What a decision leaves untouched *)

Section StoreBasics.

Import Store.

Lemma extends_refl h : extends h h.
Proof. unfold extends. repeat split; reflexivity. Qed.

Lemma extends_trans h1 h2 h3 : extends h1 h2 -> extends h2 h3 -> extends h1 h3.
Proof.
  unfold extends. intros (A1 & A2 & A3 & A4 & A5) (B1 & B2 & B3 & B4 & B5).
  repeat split; etrans; eauto.
Qed.

Lemma frames_ret {A} (x : A) : frames (ret x).
Proof. intros h. apply extends_refl. Qed.

Lemma frames_lift {A} (o : option A) : frames (lift o).
Proof. intros h. apply extends_refl. Qed.

Lemma frames_bind {A B} (m : M A) (f : A -> M B) :
  frames m -> (forall x, frames (f x)) -> frames (bind m f).
Proof.
  intros Hm Hf h. unfold bind. specialize (Hm h).
  destruct (m h) as [h1 [x|]]; simpl in *; [|exact Hm].
  eapply extends_trans; [exact Hm|apply Hf].
Qed.

Lemma frames_get_pokemon l : frames (get_pokemon l).
Proof. intros h. apply extends_refl. Qed.

Lemma frames_get_roster l : frames (get_roster l).
Proof. intros h. apply extends_refl. Qed.

Lemma frames_get_dict l : frames (get_dict l).
Proof. intros h. apply extends_refl. Qed.

Lemma frames_get_agent l : frames (get_agent l).
Proof. intros h. apply extends_refl. Qed.

Lemma frames_get_state l : frames (get_state l).
Proof. intros h. apply extends_refl. Qed.

Lemma insert_fresh_subseteq {V} (m : gmap loc V) (v : V) :
  m ⊆ <[fresh (dom m) := v]> m.
Proof. apply insert_subseteq. apply not_elem_of_dom. apply is_fresh. Qed.

Lemma frames_new_pokemon p : frames (new_pokemon p).
Proof.
  intros h. unfold extends. simpl.
  repeat split; try reflexivity. apply insert_fresh_subseteq.
Qed.

Lemma frames_new_roster items : frames (new_roster items).
Proof.
  intros h. unfold extends. simpl.
  repeat split; try reflexivity. apply insert_fresh_subseteq.
Qed.

Lemma frames_new_dict d : frames (new_dict d).
Proof.
  intros h. unfold extends. simpl.
  repeat split; try reflexivity. apply insert_fresh_subseteq.
Qed.

Lemma frames_new_agent a : frames (new_agent a).
Proof.
  intros h. unfold extends. simpl.
  repeat split; try reflexivity. apply insert_fresh_subseteq.
Qed.

Lemma frames_new_state s : frames (new_state s).
Proof.
  intros h. unfold extends. simpl.
  repeat split; try reflexivity. apply insert_fresh_subseteq.
Qed.

Lemma frames_mapM {A B} (f : A -> M B) (l : list A) :
  (forall x, frames (f x)) -> frames (mapM f l).
Proof.
  intros Hf. induction l as [|x l IH]; simpl; [apply frames_ret|].
  apply frames_bind; [apply Hf|]. intros y.
  apply frames_bind; [exact IH|]. intros ys. apply frames_ret.
Qed.

Lemma frames_team_of a : frames (team_of a).
Proof.
  unfold team_of. apply frames_bind; [apply frames_get_agent|].
  intros ag. apply frames_get_roster.
Qed.

Lemma frames_snapshot a : frames (snapshot a).
Proof.
  unfold snapshot.
  repeat (apply frames_bind; [first [apply frames_get_agent | apply frames_get_roster
            | apply frames_get_dict
            | apply frames_mapM; intros ?; apply frames_get_pokemon]|intros ?]).
  apply frames_ret.
Qed.

End StoreBasics.

Section Writes.

Import Store.

(** The agents and the rosters of the store the computation starts in, and
    the objects it is allowed to write. *)
Variable Ag : gmap loc AgentObj.
Variable Ro : gmap loc (list loc).
Variables Wp Wd Ws : gset loc.

Definition skeleton (h : Heap) : Prop := agents h = Ag /\ rosters h = Ro.

Definition writes {A} (m : M A) : Prop :=
  forall h, skeleton h -> touches Wp Wd Ws h (m h).1.

Definition yields {A} (m : M A) (Q : A -> Prop) : Prop :=
  forall h x, skeleton h -> (m h).2 = Some x -> Q x.

Lemma touches_refl h : touches Wp Wd Ws h h.
Proof. unfold touches. repeat split; reflexivity. Qed.

Lemma touches_trans h1 h2 h3 :
  touches Wp Wd Ws h1 h2 -> touches Wp Wd Ws h2 h3 -> touches Wp Wd Ws h1 h3.
Proof.
  unfold touches. intros (A1 & A2 & A3 & A4 & A5) (B1 & B2 & B3 & B4 & B5).
  repeat split; try congruence; intros l Hl.
  - rewrite B3, A3 by exact Hl. reflexivity.
  - rewrite B4, A4 by exact Hl. reflexivity.
  - rewrite B5, A5 by exact Hl. reflexivity.
Qed.

Lemma touches_skeleton h h' : touches Wp Wd Ws h h' -> skeleton h -> skeleton h'.
Proof. unfold touches, skeleton. intros (A1 & A2 & _) [B1 B2]. split; congruence. Qed.

Lemma writes_pure {A} (m : M A) : (forall h, (m h).1 = h) -> writes m.
Proof. intros Hm h _. rewrite Hm. apply touches_refl. Qed.

Lemma writes_ret {A} (x : A) : writes (ret x).
Proof. apply writes_pure. reflexivity. Qed.

Lemma writes_bind {A B} (m : M A) (f : A -> M B) (Q : A -> Prop) :
  writes m -> yields m Q -> (forall x, Q x -> writes (f x)) -> writes (bind m f).
Proof.
  intros Hm Hq Hf h Hs. unfold bind. specialize (Hm h Hs). specialize (Hq h).
  destruct (m h) as [h1 [x|]]; simpl in *; [|exact Hm].
  eapply touches_trans; [exact Hm|]. apply Hf; [apply Hq; auto|].
  eapply touches_skeleton; eauto.
Qed.

Lemma yields_any {A} (m : M A) : yields m (fun _ => True).
Proof. intros h x _ _. exact I. Qed.

Lemma yields_lift {A} (o : option A) : yields (lift o) (fun x => o = Some x).
Proof. intros h x _ H. exact H. Qed.

Lemma yields_get_agent a : yields (get_agent a) (fun ag => Ag !! a = Some ag).
Proof. intros h x [<- _] H. exact H. Qed.

Lemma yields_get_roster l : yields (get_roster l) (fun items => Ro !! l = Some items).
Proof. intros h x [_ <-] H. exact H. Qed.

Lemma yields_team_of a :
  yields (team_of a)
    (fun items => exists ag, Ag !! a = Some ag /\ Ro !! oteam ag = Some items).
Proof.
  intros h x [<- <-]. unfold team_of, bind, get_agent, get_roster.
  destruct (agents h !! a) as [ag|] eqn:E; simpl; [|discriminate]. eauto.
Qed.

Lemma writes_team_of a : writes (team_of a).
Proof.
  apply writes_pure. intros h. unfold team_of, bind, get_agent, get_roster.
  destruct (agents h !! a); reflexivity.
Qed.

Lemma writes_mapM_get items : writes (mapM get_pokemon items).
Proof.
  apply writes_pure. induction items as [|x items IH]; intros h; [reflexivity|].
  simpl. unfold bind at 1. unfold get_pokemon at 1.
  destruct (pokemons h !! x); simpl; [|reflexivity].
  unfold bind. specialize (IH h). destruct (mapM get_pokemon items h) as [h1 [ys|]];
    simpl in *; exact IH.
Qed.

Lemma writes_set_pokemon l p : l ∈ Wp -> writes (set_pokemon l p).
Proof.
  intros Hl h _. unfold touches. simpl. repeat split; try reflexivity.
  intros l' Hl'. apply lookup_insert_ne. intros ->. contradiction.
Qed.

Lemma writes_set_dict l d : l ∈ Wd -> writes (set_dict l d).
Proof.
  intros Hl h _. unfold touches. simpl. repeat split; try reflexivity.
  intros l' Hl'. apply lookup_insert_ne. intros ->. contradiction.
Qed.

Lemma writes_set_state l s : l ∈ Ws -> writes (set_state l s).
Proof.
  intros Hl h _. unfold touches. simpl. repeat split; try reflexivity.
  intros l' Hl'. apply lookup_insert_ne. intros ->. contradiction.
Qed.

Lemma writes_takedamage_h l dmg : l ∈ Wp -> writes (takedamage_h l dmg).
Proof.
  intros Hl. unfold takedamage_h.
  eapply writes_bind; [apply writes_pure; reflexivity|apply yields_any|].
  intros p _. apply writes_set_pokemon. exact Hl.
Qed.

Lemma writes_heal_h l amt : l ∈ Wp -> writes (heal_h l amt).
Proof.
  intros Hl. unfold heal_h.
  eapply writes_bind; [apply writes_pure; reflexivity|apply yields_any|].
  intros p _. apply writes_set_pokemon. exact Hl.
Qed.

(** The allowed writes include the creatures and the dictionary of [a]. *)
Definition covers (a : loc) : Prop :=
  forall ag, Ag !! a = Some ag ->
    oelixirs ag ∈ Wd /\
    forall items pl, Ro !! oteam ag = Some items -> pl ∈ items -> pl ∈ Wp.

Lemma index_elem_of {A} (l : list A) (i : Z) (x : A) : Py.index l i = Some x -> x ∈ l.
Proof.
  intros H. apply index_Some in H as (n & _ & Hn).
  eapply list_elem_of_lookup_2; eauto.
Qed.

Lemma writes_apply_h a act idx : covers a -> writes (apply_h a act idx).
Proof.
  intros Hc. unfold apply_h.
  destruct (kind act), (arg act) as [|i|s]; try apply writes_ret.
  - eapply writes_bind; [apply writes_team_of|apply yields_any|]. intros items _.
    destruct (_ && _); [|apply writes_ret].
    eapply writes_bind; [apply writes_pure; reflexivity|apply yields_any|].
    intros pl _.
    eapply writes_bind; [apply writes_pure; reflexivity|apply yields_any|].
    intros p _. apply writes_ret.
  - eapply writes_bind; [apply writes_pure; reflexivity|apply yields_get_agent|].
    intros ag Hag. destruct (Hc ag Hag) as [Hd Hp].
    eapply writes_bind; [apply writes_pure; reflexivity|apply yields_any|].
    intros d _. destruct (0 <? _); [|apply writes_ret].
    eapply writes_bind; [apply writes_pure; reflexivity|apply yields_any|].
    intros tier _. cbv zeta.
    eapply writes_bind; [apply writes_pure; reflexivity|apply yields_get_roster|].
    intros items Hitems.
    eapply writes_bind; [apply writes_pure; reflexivity|apply yields_lift|].
    intros pl Hpl.
    eapply writes_bind; [apply writes_heal_h|apply yields_any|].
    { apply (Hp items pl Hitems). eapply index_elem_of. exact Hpl. }
    intros _ _.
    eapply writes_bind; [apply writes_pure; reflexivity|apply yields_any|].
    intros d' _.
    eapply writes_bind; [apply writes_pure; reflexivity|apply yields_any|].
    intros n _.
    eapply writes_bind; [apply writes_set_dict; exact Hd|apply yields_any|].
    intros _ _. apply writes_ret.
Qed.

Lemma writes_attack_h act att dfd aidx didx field defending rng k :
  covers dfd -> writes (attack_h act att dfd aidx didx field defending rng k).
Proof.
  intros Hc. unfold attack_h. destruct (is_kind _ _); [|apply writes_ret].
  eapply writes_bind; [apply writes_team_of|apply yields_any|]. intros aitems _.
  eapply writes_bind; [apply writes_pure; reflexivity|apply yields_any|].
  intros al _.
  eapply writes_bind; [apply writes_pure; reflexivity|apply yields_any|].
  intros a _. destruct (alive a); [|apply writes_ret].
  eapply writes_bind; [apply writes_team_of|apply yields_team_of|].
  intros ditems (ag & Hag & Hitems).
  eapply writes_bind; [apply writes_pure; reflexivity|apply yields_lift|].
  intros dl Hdl.
  eapply writes_bind; [apply writes_pure; reflexivity|apply yields_any|].
  intros d _. destruct (alive d); [|apply writes_ret].
  eapply writes_bind; [apply writes_takedamage_h|apply yields_any|].
  { destruct (Hc ag Hag) as [_ Hp]. apply (Hp ditems dl Hitems).
    eapply index_elem_of. exact Hdl. }
  intros _ _. apply writes_ret.
Qed.

Lemma writes_advance_h a idx : writes (advance_h a idx).
Proof.
  unfold advance_h.
  eapply writes_bind; [apply writes_team_of|apply yields_any|]. intros items _.
  eapply writes_bind; [apply writes_pure; reflexivity|apply yields_any|].
  intros pl _.
  eapply writes_bind; [apply writes_pure; reflexivity|apply yields_any|].
  intros p _. destruct (alive p); [apply writes_ret|].
  eapply writes_bind; [apply writes_mapM_get|apply yields_any|].
  intros ps _. apply writes_ret.
Qed.

Lemma writes_stepbattle_simulation_h ash rocket bs ashact rocketact rng k :
  covers ash -> covers rocket -> bs ∈ Ws ->
  writes (stepbattle_simulation_h ash rocket bs ashact rocketact rng k).
Proof.
  intros Ha Hr Hbs. unfold stepbattle_simulation_h.
  eapply writes_bind; [apply writes_pure; reflexivity|apply yields_any|].
  intros s _.
  eapply writes_bind; [apply writes_apply_h; exact Ha|apply yields_any|].
  intros ashidx _.
  eapply writes_bind; [apply writes_apply_h; exact Hr|apply yields_any|].
  intros rocidx _. cbv zeta.
  eapply writes_bind; [apply writes_attack_h; exact Hr|apply yields_any|].
  intros k1 _.
  eapply writes_bind; [apply writes_attack_h; exact Ha|apply yields_any|].
  intros k2 _.
  eapply writes_bind; [apply writes_advance_h|apply yields_any|].
  intros ashidx' _.
  eapply writes_bind; [apply writes_advance_h|apply yields_any|].
  intros rocidx' _.
  eapply writes_bind; [apply writes_pure; reflexivity|apply yields_any|].
  intros s' _.
  eapply writes_bind; [apply writes_set_state; exact Hbs|apply yields_any|].
  intros _ _. apply writes_ret.
Qed.

End Writes.

Section Clones.

Import Store.

Lemma extends_dom_pokemons h h' l :
  extends h h' -> l ∉ dom (pokemons h') -> l ∉ dom (pokemons h).
Proof.
  intros (H & _) Hl Hin. apply Hl. eapply subseteq_dom; eauto.
Qed.

Lemma extends_dom_dicts h h' l :
  extends h h' -> l ∉ dom (dicts h') -> l ∉ dom (dicts h).
Proof.
  intros (_ & _ & H & _) Hl Hin. apply Hl. eapply subseteq_dom; eauto.
Qed.

Lemma extends_dom_states h h' l :
  extends h h' -> l ∉ dom (states h') -> l ∉ dom (states h).
Proof.
  intros (_ & _ & _ & _ & H) Hl Hin. apply Hl. eapply subseteq_dom; eauto.
Qed.

Lemma cloned_later hb h h' l : cloned hb h l -> extends h h' -> cloned hb h' l.
Proof.
  intros (ag & items & Hag & Hit & Hp & Hd) (_ & Hr & _ & Ha & _).
  exists ag, items. repeat split; auto.
  - eapply lookup_weaken; eauto.
  - eapply lookup_weaken; eauto.
Qed.

Lemma cloned_earlier hb0 hb h l : extends hb0 hb -> cloned hb h l -> cloned hb0 h l.
Proof.
  intros He (ag & items & Hag & Hit & Hp & Hd).
  exists ag, items. repeat split; auto.
  - intros pl Hpl. eapply extends_dom_pokemons; eauto.
  - eapply extends_dom_dicts; eauto.
Qed.

Lemma bind_run {A B} (m : M A) (f : A -> M B) h :
  bind m f h = match m h with
               | (h1, Some x) => f x h1
               | (h1, None) => (h1, None)
               end.
Proof. reflexivity. Qed.

(** The copies made by the list comprehension of [cloneagent] are new. *)
Lemma copies_are_new (copy : Pokemon -> Pokemon) items : forall h,
  extends h
    (mapM (fun pl => bind (get_pokemon pl) (fun p => new_pokemon (copy p))) items h).1
  /\
  forall newitems,
    (mapM (fun pl => bind (get_pokemon pl) (fun p => new_pokemon (copy p))) items h).2
      = Some newitems ->
    forall pl, pl ∈ newitems -> pl ∉ dom (pokemons h).
Proof.
  induction items as [|x items IH]; intros h; cbn [mapM].
  - split; [apply extends_refl|]. intros ? [= <-] pl Hpl. inversion Hpl.
  - rewrite bind_run. rewrite bind_run. unfold get_pokemon.
    destruct (pokemons h !! x) as [p|];
      [|split; [apply extends_refl|discriminate]].
    pose proof (frames_new_pokemon (copy p) h) as H1.
    pose proof (is_fresh (dom (pokemons h))) as Hf.
    unfold new_pokemon in *. cbn [fst snd] in H1.
    set (h1 := mkHeap _ _ _ _ _) in *.
    rewrite bind_run. specialize (IH h1). destruct IH as [IH1 IH2].
    destruct (mapM _ items h1) as [h2 [ys|]]; cbn [fst snd ret] in *.
    + split; [eapply extends_trans; eauto|].
      intros ? [= <-] pl Hpl. apply elem_of_cons in Hpl as [->|Hpl].
      * exact Hf.
      * eapply extends_dom_pokemons; [exact H1|]. eapply IH2; eauto.
    + split; [eapply extends_trans; eauto|discriminate].
Qed.

Lemma new_roster_inv items h h' r :
  new_roster items h = (h', r) ->
  exists l, r = Some l /\ extends h h' /\ rosters h' !! l = Some items.
Proof.
  intros H. pose proof (frames_new_roster items h) as He. rewrite H in He.
  unfold new_roster in H. injection H as <- <-.
  eexists. split; [reflexivity|]. split; [exact He|]. apply lookup_insert_eq.
Qed.

Lemma new_dict_inv d h h' r :
  new_dict d h = (h', r) ->
  exists l, r = Some l /\ extends h h' /\ l ∉ dom (dicts h).
Proof.
  intros H. pose proof (frames_new_dict d h) as He. rewrite H in He.
  unfold new_dict in H. injection H as <- <-.
  eexists. split; [reflexivity|]. split; [exact He|]. apply is_fresh.
Qed.

Lemma new_agent_inv a h h' r :
  new_agent a h = (h', r) ->
  exists l, r = Some l /\ extends h h' /\ agents h' !! l = Some a.
Proof.
  intros H. pose proof (frames_new_agent a h) as He. rewrite H in He.
  unfold new_agent in H. injection H as <- <-.
  eexists. split; [reflexivity|]. split; [exact He|]. apply lookup_insert_eq.
Qed.

Lemma new_state_inv s h h' r :
  new_state s h = (h', r) ->
  exists l, r = Some l /\ extends h h' /\ l ∉ dom (states h).
Proof.
  intros H. pose proof (frames_new_state s h) as He. rewrite H in He.
  unfold new_state in H. injection H as <- <-.
  eexists. split; [reflexivity|]. split; [exact He|]. apply is_fresh.
Qed.

Lemma cloneagent_h_spec a h :
  extends h (cloneagent_h a h).1 /\
  forall l, (cloneagent_h a h).2 = Some l -> cloned h (cloneagent_h a h).1 l.
Proof.
  unfold cloneagent_h. rewrite bind_run. unfold get_agent.
  destruct (agents h !! a) as [ag|]; [|split; [apply extends_refl|discriminate]].
  rewrite bind_run. unfold get_roster.
  destruct (rosters h !! oteam ag) as [items|];
    [|split; [apply extends_refl|discriminate]].
  rewrite bind_run.
  pose proof (copies_are_new
                (fun p => mkPokemon (name p) (ptype p) (maxhp p) (hp p) (atk p)
                            (dfn p) (alive p)) items h) as [H1 Hnew].
  destruct (mapM _ items h) as [h1 [newitems|]]; cbn [fst snd] in *;
    [|split; [exact H1|discriminate]].
  specialize (Hnew newitems eq_refl).
  rewrite bind_run.
  destruct (new_roster newitems h1) as [h2 r2] eqn:E2.
  apply new_roster_inv in E2 as (tl & -> & H2 & R2).
  rewrite bind_run. unfold get_dict.
  assert (H02 : extends h h2) by (eapply extends_trans; eauto).
  destruct (dicts h2 !! oelixirs ag) as [d|]; cbn [fst snd];
    [|split; [exact H02|discriminate]].
  rewrite bind_run.
  destruct (new_dict d h2) as [h3 r3] eqn:E3.
  apply new_dict_inv in E3 as (dl & -> & H3 & D3).
  destruct (new_agent _ h3) as [h4 r4] eqn:E4.
  apply new_agent_inv in E4 as (l4 & -> & H4 & A4). cbn [fst snd].
  assert (H24 : extends h2 h4) by (eapply extends_trans; eauto).
  split; [eapply extends_trans; eauto|].
  intros l [= <-]. eexists _, _.
  split; [exact A4|]. cbn [oteam oelixirs].
  split; [|split; [exact Hnew|]].
  - destruct H24 as (_ & Hr & _). eapply lookup_weaken; eauto.
  - eapply extends_dom_dicts; [exact H02|exact D3].
Qed.

(** The simulated turn on clones of [hb] changes nothing of [hb]. *)
Lemma stepbattle_simulation_h_on_clones hb h ash rocket bs ashact rocketact rng k :
  extends hb h -> cloned hb h ash -> cloned hb h rocket ->
  bs ∉ dom (states hb) ->
  extends hb (stepbattle_simulation_h ash rocket bs ashact rocketact rng k h).1.
Proof.
  intros He Ha Hr Hbs.
  destruct Ha as (aga & itemsa & Haga & Hita & Hpa & Hda).
  destruct Hr as (agr & itemsr & Hagr & Hitr & Hpr & Hdr).
  pose proof (writes_stepbattle_simulation_h (agents h) (rosters h)
                (list_to_set itemsa ∪ list_to_set itemsr)
                ({[oelixirs aga]} ∪ {[oelixirs agr]}) {[bs]}
                ash rocket bs ashact rocketact rng k) as Hw.
  destruct (Hw) with (h := h) as (T1 & T2 & T3 & T4 & T5).
  - intros ag Hag. rewrite Haga in Hag. injection Hag as <-.
    split; [set_solver|]. intros items pl Hi Hpl. rewrite Hita in Hi.
    injection Hi as <-. set_solver.
  - intros ag Hag. rewrite Hagr in Hag. injection Hag as <-.
    split; [set_solver|]. intros items pl Hi Hpl. rewrite Hitr in Hi.
    injection Hi as <-. set_solver.
  - set_solver.
  - split; reflexivity.
  - destruct He as (E1 & E2 & E3 & E4 & E5).
    unfold extends. rewrite T1, T2. repeat split; auto.
    + apply map_subseteq_spec. intros l v Hl. rewrite T3.
      * eapply lookup_weaken; eauto.
      * intros Hin. apply elem_of_union in Hin as [Hin|Hin];
          apply elem_of_list_to_set in Hin;
          [apply (Hpa l Hin)|apply (Hpr l Hin)]; apply elem_of_dom; eauto.
    + apply map_subseteq_spec. intros l v Hl. rewrite T4.
      * eapply lookup_weaken; eauto.
      * intros Hin. apply elem_of_union in Hin as [Hin|Hin];
          apply elem_of_singleton in Hin; subst l;
          [apply Hda|apply Hdr]; apply elem_of_dom; eauto.
    + apply map_subseteq_spec. intros l v Hl. rewrite T5.
      * eapply lookup_weaken; eauto.
      * intros Hin. apply elem_of_singleton in Hin. subst l.
        apply Hbs. apply elem_of_dom. eauto.
Qed.

End Clones.

Section DecisionFrame.

Import Store.

Variable shuffle : list nat -> list BattleAction -> list BattleAction.
Variable rng : Phase3.Rng.
Variables prune meisash : bool.

(** One iteration of the loop: everything it writes, it has created. *)
Lemma frames_iteration (a b s : loc) (maximizing : bool) (act : BattleAction)
    (k : nat) (continue : loc -> loc -> loc -> nat -> M (Z * nat)) :
  (forall aclone bclone sclone k', frames (continue aclone bclone sclone k')) ->
  frames
    (bind (cloneagent_h a) (fun aclone =>
     bind (cloneagent_h b) (fun bclone =>
     bind (get_state s) (fun sv =>
     bind (new_state (mkBattleState (fieldtype sv) (ashactive sv) (rocketactive sv)))
       (fun sclone =>
     bind (stepbattle_simulation_h aclone bclone sclone
             (if maximizing then act else ATTACK_act)
             (if maximizing then ATTACK_act else act) rng k)
       (fun k' => continue aclone bclone sclone k')))))).
Proof.
  intros Hcont h.
  rewrite bind_run. destruct (cloneagent_h_spec a h) as [H1 C1].
  destruct (cloneagent_h a h) as [h1 [aclone|]]; cbn [fst snd] in *; [|exact H1].
  specialize (C1 aclone eq_refl).
  rewrite bind_run. destruct (cloneagent_h_spec b h1) as [H2 C2].
  destruct (cloneagent_h b h1) as [h2 [bclone|]]; cbn [fst snd] in *;
    [|eapply extends_trans; eauto].
  specialize (C2 bclone eq_refl).
  assert (H02 : extends h h2) by (eapply extends_trans; eauto).
  rewrite bind_run. unfold get_state.
  destruct (states h2 !! s) as [sv|]; cbn [fst snd]; [|exact H02].
  rewrite bind_run.
  destruct (new_state _ h2) as [h3 r3] eqn:E3.
  apply new_state_inv in E3 as (sclone & -> & H3 & S3).
  assert (H03 : extends h h3) by (eapply extends_trans; eauto).
  rewrite bind_run.
  pose proof (stepbattle_simulation_h_on_clones h h3 aclone bclone sclone
                (if maximizing then act else ATTACK_act)
                (if maximizing then ATTACK_act else act) rng k H03) as H4.
  destruct (stepbattle_simulation_h _ _ _ _ _ _ _ h3) as [h4 [k'|]];
    cbn [fst snd] in H4.
  - eapply extends_trans; [|apply Hcont]. apply H4.
    + eapply cloned_later; [|exact H3]. eapply cloned_later; [exact C1|exact H2].
    + eapply cloned_later; [|exact H3]. eapply cloned_earlier; [exact H1|exact C2].
    + eapply extends_dom_states; [exact H02|exact S3].
  - apply H4.
    + eapply cloned_later; [|exact H3]. eapply cloned_later; [exact C1|exact H2].
    + eapply cloned_later; [|exact H3]. eapply cloned_earlier; [exact H1|exact C2].
    + eapply extends_dom_states; [exact H02|exact S3].
Qed.

Lemma frames_loop_h child maximizing acts :
  (forall i act alpha beta k, frames (child i act alpha beta k)) ->
  forall i bestval bestact alpha beta k,
    frames (loop_h child prune maximizing i acts bestval bestact alpha beta k).
Proof.
  intros Hc. induction acts as [|act acts IH]; intros i bv ba alpha beta k;
    cbn [loop_h]; [apply frames_ret|].
  apply frames_bind; [apply Hc|]. intros [val k1].
  destruct maximizing.
  - destruct (bv <? val); cbn beta iota; destruct (prune && _);
      first [apply frames_ret | apply IH].
  - destruct (val <? bv); cbn beta iota; destruct (prune && _);
      first [apply frames_ret | apply IH].
Qed.

Lemma frames_recurse_h ply : forall path a b s maximizing alpha beta k,
  frames (recurse_h shuffle rng prune meisash ply path a b s maximizing alpha beta k).
Proof.
  induction ply as [|ply IH]; intros path a b s maximizing alpha beta k;
    cbn [recurse_h].
  - apply frames_bind; [apply frames_snapshot|]. intros av.
    apply frames_bind; [apply frames_snapshot|]. intros bv.
    apply frames_bind; [apply frames_get_state|]. intros sv. apply frames_ret.
  - apply frames_bind; [apply frames_snapshot|]. intros av.
    apply frames_bind; [apply frames_snapshot|]. intros bv.
    apply frames_bind; [apply frames_get_state|]. intros sv.
    destruct (_ || _); [apply frames_ret|].
    apply frames_bind; [apply frames_lift|]. intros actions.
    apply frames_loop_h. intros i act al be j.
    apply (frames_iteration a b s maximizing act j
             (fun aclone bclone sclone k' =>
                bind (recurse_h shuffle rng prune meisash ply (path ++ [i]) aclone
                        bclone sclone (negb maximizing) al be k')
                  (fun r => let '(val, _, k2) := r in ret (val, k2)))).
    intros aclone bclone sclone k'.
    apply frames_bind; [apply IH|]. intros [[val va] k2]. apply frames_ret.
Qed.

Lemma frames_decide_action_h me opp bs depth k :
  frames (decide_action_h shuffle rng prune meisash me opp bs depth k).
Proof.
  unfold decide_action_h. apply frames_bind; [apply frames_recurse_h|].
  intros [[v action] k']. apply frames_ret.
Qed.

End DecisionFrame.

Section Unchanged.

Import Store.

Lemma mapM_get_pure items h : (mapM get_pokemon items h).1 = h.
Proof.
  induction items as [|y items IH]; cbn [mapM]; [reflexivity|].
  rewrite bind_run. unfold get_pokemon at 1.
  destruct (pokemons h !! y); [|reflexivity].
  rewrite bind_run. destruct (mapM get_pokemon items h) as [h1 [ys|]];
    cbn [fst] in *; exact IH.
Qed.

Lemma mapM_get_extends items h h' ps :
  extends h h' ->
  mapM get_pokemon items h = (h, Some ps) ->
  mapM get_pokemon items h' = (h', Some ps).
Proof.
  intros (Hp & _). revert ps.
  induction items as [|x items IH]; intros ps; cbn [mapM]; [intros [= <-]; reflexivity|].
  rewrite !bind_run. unfold get_pokemon at 1 3.
  destruct (pokemons h !! x) as [p|] eqn:E; [|discriminate].
  rewrite (lookup_weaken _ _ _ _ E Hp).
  rewrite !bind_run.
  pose proof (mapM_get_pure items h) as Hh.
  destruct (mapM get_pokemon items h) as [h1 [ys|]]; cbn [fst] in Hh; subst h1;
    [|discriminate].
  intros [= <-]. rewrite (IH ys eq_refl). reflexivity.
Qed.

(** What the read-only code sees of an agent is the same in a store that
    holds every object unchanged. *)
Lemma snapshot_extends a h h' v :
  extends h h' -> snapshot a h = (h, Some v) -> snapshot a h' = (h', Some v).
Proof.
  intros He. pose proof He as (Hp & Hr & Hd & Ha & Hs).
  unfold snapshot. rewrite !bind_run. unfold get_agent.
  destruct (agents h !! a) as [ag|] eqn:E; [|discriminate].
  rewrite (lookup_weaken _ _ _ _ E Ha).
  rewrite !bind_run. unfold get_roster.
  destruct (rosters h !! oteam ag) as [items|] eqn:E1; [|discriminate].
  rewrite (lookup_weaken _ _ _ _ E1 Hr).
  rewrite !bind_run.
  pose proof (mapM_get_pure items h) as Hh.
  destruct (mapM get_pokemon items h) as [h1 [ps|]] eqn:E2; cbn [fst] in Hh;
    subst h1; [|discriminate].
  rewrite (mapM_get_extends items h h' ps He E2).
  rewrite !bind_run. unfold get_dict.
  destruct (dicts h !! oelixirs ag) as [d|] eqn:E3; [|discriminate].
  rewrite (lookup_weaken _ _ _ _ E3 Hd). intros [= <-]. reflexivity.
Qed.

End Unchanged.

(** On the opening position the search over the store takes the decision
    of the search over values, and it does write: the store it leaves holds
    a clone of Pikachu that has lost hp. *)
Example search_on_store_agrees :
  let r := Store.decide_action_h Samples.keep_order Samples.rng_alt true true
             1%positive 2%positive 1%positive 3 0 Samples.opening_store in
  r.2 = Search.decide_action Samples.keep_order Samples.rng_alt true true
          Samples.ash0 Samples.rocket0 Samples.bs0 3 0 /\
  exists l p, Store.pokemons r.1 !! l = Some p /\ hp p = 40.
Proof.
  split; [vm_compute; reflexivity|].
  exists 19%positive. eexists. split; [vm_compute; reflexivity|reflexivity].
Qed.

(** The transition function itself mutates the objects it is given. *)
Example stepbattle_simulation_h_mutates :
  let h' := (Store.stepbattle_simulation_h 1%positive 2%positive 1%positive
               ATTACK_act DEFEND_act Samples.rng_one 0 Samples.opening_store).1 in
  hp <$> Store.pokemons Samples.opening_store !! 4%positive = Some 100 /\
  hp <$> Store.pokemons h' !! 4%positive = Some 92.
Proof. split; vm_compute; reflexivity. Qed.

(** C10: a call of [decide_action] changes no object that exists when it is
    called: every creature, roster, dictionary, agent and battle state of
    the store is as before (the call only adds the clones it creates).  In
    particular both agents, as the read-only code sees them (name, every
    creature with its hp, alive flag and stats, coins, fuel, elixir counts),
    and the battle state (field type, both active indices) are the same
    before and after the call. *)
Theorem C10_decide_action_leaves_arguments
    (shuffle : list nat -> list BattleAction -> list BattleAction)
    (rng : Phase3.Rng) (prune meisash : bool) (me opp bs : Store.loc)
    (depth k : nat) (h : Store.Heap) :
  let h' := (Store.decide_action_h shuffle rng prune meisash me opp bs depth k h).1 in
  Store.extends h h' /\
  (forall v, Store.snapshot me h = (h, Some v) -> Store.snapshot me h' = (h', Some v)) /\
  (forall v, Store.snapshot opp h = (h, Some v) -> Store.snapshot opp h' = (h', Some v)) /\
  (forall s, Store.states h !! bs = Some s -> Store.states h' !! bs = Some s).
Proof.
  intros h'.
  assert (He : Store.extends h h')
    by apply (frames_decide_action_h shuffle rng prune meisash me opp bs depth k h).
  split; [exact He|].
  split; [intros v; apply snapshot_extends; exact He|].
  split; [intros v; apply snapshot_extends; exact He|].
  intros s Hs. destruct He as (_ & _ & _ & _ & Hst). eapply lookup_weaken; eauto.
Qed.

Lemma C10_decide_action_leaves_arguments_witness :
  let h' := (Store.decide_action_h Samples.keep_order Samples.rng_alt true false
               2%positive 1%positive 1%positive 3 0 Samples.opening_store).1 in
  Store.snapshot 2%positive h' = (h', Some Samples.rocket0) /\
  Store.snapshot 1%positive h' = (h', Some Samples.ash0) /\
  Store.states h' !! 1%positive = Some Samples.bs0.
Proof.
  destruct (C10_decide_action_leaves_arguments Samples.keep_order Samples.rng_alt
              true false 2%positive 1%positive 1%positive 3 0 Samples.opening_store)
    as (_ & Hme & Hopp & Hbs).
  split; [apply Hme; vm_compute; reflexivity|].
  split; [apply Hopp; vm_compute; reflexivity|].
  apply Hbs. vm_compute. reflexivity.
Defined.

(** ** A* returns a shortest path *)

Section Paths.

Import Astar.

Variable grid : list (list Z).

Lemma move_manhattan a b c : move grid a b -> manhattan b c <= manhattan a c + 1.
Proof.
  intros [(d & Hd & ->) _]. unfold manhattan, DIRS in *. simpl.
  repeat (apply elem_of_cons in Hd as [->|Hd]; [simpl; lia|]).
  inversion Hd.
Qed.

Lemma move_neq a b : move grid a b -> a <> b.
Proof.
  intros [(d & Hd & ->) _] E. destruct a as [x y]. simpl in E.
  unfold DIRS in Hd.
  repeat (apply elem_of_cons in Hd as [->|Hd]; [simpl in E; injection E; lia|]).
  inversion Hd.
Qed.

Lemma manhattan_self a : manhattan a a = 0.
Proof. unfold manhattan. lia. Qed.

Lemma manhattan_nonneg a b : 0 <= manhattan a b.
Proof. unfold manhattan. lia. Qed.

Lemma elem_of_all_cells c : c ∈ all_cells <-> inbounds c = true.
Proof.
  unfold all_cells, inbounds. destruct c as [x y]. cbn [fst snd].
  rewrite !andb_true_iff, !Z.leb_le, !Z.ltb_lt. unfold GRIDW, GRIDH. split.
  - intros H. apply list_elem_of_bind in H as (x' & H & Hx).
    apply list_elem_of_bind in H as (y' & H & Hy).
    apply list_elem_of_singleton in H as [= -> ->].
    apply elem_of_seqZ in Hx, Hy. lia.
  - intros H. apply list_elem_of_bind. exists x. split; [|apply elem_of_seqZ; lia].
    apply list_elem_of_bind. exists y. split; [|apply elem_of_seqZ; lia].
    apply list_elem_of_singleton. reflexivity.
Qed.

Lemma length_all_cells : Z.of_nat (length all_cells) = GRIDW * GRIDH.
Proof. vm_compute. reflexivity. Qed.

Lemma size_list_to_set_le (l : list (Z * Z)) :
  (size (list_to_set l : gset (Z * Z)) <= length l)%nat.
Proof.
  induction l as [|x l IH].
  { rewrite list_to_set_nil, size_empty. simpl. lia. }
  rewrite list_to_set_cons, size_union_alt, size_singleton. simpl length.
  assert (size (list_to_set l ∖ {[x]} : gset (Z * Z)) <= size (list_to_set l : gset (Z * Z)))%nat.
  { apply subseteq_size. intros y Hy. apply elem_of_difference in Hy. tauto. }
  lia.
Qed.

(** A set of cells of the field has at most [GRIDW * GRIDH] elements. *)
Lemma size_field (s : gset (Z * Z)) :
  (forall n, n ∈ s -> inbounds n = true) -> Z.of_nat (size s) <= GRIDW * GRIDH.
Proof.
  intros H. rewrite <- length_all_cells.
  assert (s ⊆ list_to_set all_cells) as Hs.
  { intros n Hn. apply elem_of_list_to_set. apply elem_of_all_cells. auto. }
  apply subseteq_size in Hs. pose proof (size_list_to_set_le all_cells). lia.
Qed.

(** Paths, from the front and from the back. *)
Lemma steps_ok_snoc p a b :
  steps_ok grid p -> last p = Some a -> move grid a b -> steps_ok grid (p ++ [b]).
Proof.
  induction p as [|x [|y p] IH]; simpl; intros Hs Hl Hm.
  - discriminate.
  - injection Hl as ->. auto.
  - destruct Hs as [Hxy Hs]. split; [exact Hxy|]. apply IH; auto.
Qed.

Lemma is_path_snoc p start a b :
  is_path grid p start a -> move grid a b -> is_path grid (p ++ [b]) start b.
Proof.
  intros (Hh & Hl & Hs) Hm. split; [|split].
  - destruct p; [discriminate|exact Hh].
  - apply last_snoc.
  - eapply steps_ok_snoc; eauto.
Qed.

Variable start : (Z * Z).

(** [reach n k]: [n] is the end of a path of [k] steps from [start]. *)
Inductive reach : (Z * Z) -> Z -> Prop :=
  | reach_start : reach start 0
  | reach_step n k n' : reach n k -> move grid n n' -> reach n' (k + 1).

Lemma reach_nonneg n k : reach n k -> 0 <= k.
Proof. induction 1; lia. Qed.

Lemma steps_reach p : forall a b k,
  reach a k -> head p = Some a -> last p = Some b -> steps_ok grid p ->
  reach b (k + Z.of_nat (length p) - 1).
Proof.
  induction p as [|x [|y p] IH]; intros a b k Hr Hh Hl Hs.
  - discriminate.
  - simpl in Hh, Hl. injection Hh as ->. injection Hl as ->.
    replace (k + Z.of_nat (length [b]) - 1) with k by (simpl length; lia).
    exact Hr.
  - injection Hh as ->. destruct Hs as [Hm Hs].
    replace (k + Z.of_nat (length (a :: y :: p)) - 1)
      with ((k + 1) + Z.of_nat (length (y :: p)) - 1) by (simpl length; lia).
    apply (IH y b (k + 1)); auto.
    eapply reach_step; eauto.
Qed.

Lemma is_path_reach p goal :
  is_path grid p start goal -> reach goal (Z.of_nat (length p) - 1).
Proof.
  intros (Hh & Hl & Hs).
  replace (Z.of_nat (length p) - 1) with (0 + Z.of_nat (length p) - 1) by lia.
  eapply steps_reach; eauto. constructor.
Qed.

End Paths.

Section AstarInvariant.

Import Astar.

Variable grid : list (list Z).
Variables start goal : (Z * Z).
Hypothesis grid_shape : well_shaped grid.
Hypothesis start_inbounds : inbounds start = true.


(** The cells of the field can be read from the grid. *)
Lemma blocked_is_Some n : inbounds n = true -> is_Some (blocked grid n).
Proof.
  unfold inbounds, blocked. destruct grid_shape as [Hrows Hcols].
  rewrite !andb_true_iff, !Z.leb_le, !Z.ltb_lt. intros [[[Hx0 Hx1] Hy0] Hy1].
  destruct (lookup_lt_is_Some_2 grid (Z.to_nat n.2)) as [row Hrow]; [lia|].
  rewrite Hrow. eapply Forall_lookup_1 in Hcols; [|exact Hrow]. simpl in Hcols.
  destruct (lookup_lt_is_Some_2 row (Z.to_nat n.1)) as [v Hv]; [lia|].
  rewrite Hv. eauto.
Qed.

(** The neighbours of [current] in the directions of [todo] are still to be
    looked at. *)
Definition pending (current : Z * Z) (todo : list (Z * Z)) (n n' : Z * Z) : Prop :=
  n = current /\ exists d, d ∈ todo /\ n' = (n.1 + d.1, n.2 + d.2).

(** The invariant of the search, between two directions of the inner loop. *)
Record Inv (current : Z * Z) (todo : list (Z * Z)) (st : State) : Prop := {
  inv_start : g st !! start = Some 0;
  inv_reach : forall n v, g st !! n = Some v -> reach grid start n v;
  inv_closed : forall n v n',
    g st !! n = Some v -> n ∉ openset st -> move grid n n' ->
    pending current todo n n' \/ exists v', g st !! n' = Some v' /\ v' <= v + 1;
  inv_f : forall n v, g st !! n = Some v -> f st !! n = Some (v + manhattan n goal);
  inv_open : forall n, n ∈ openset st -> is_Some (g st !! n);
  inv_goal : is_Some (g st !! goal) -> goal ∈ openset st;
  inv_came : forall n v,
    g st !! n = Some v ->
    n = start \/
    exists p vp, came st !! n = Some p /\ g st !! p = Some vp /\ vp + 1 <= v /\
                 move grid p n;
  inv_came_start : came st !! start = None;
  inv_size : forall n v, g st !! n = Some v -> v < Z.of_nat (size (dom (g st)));
  inv_bounds : forall n, is_Some (g st !! n) -> inbounds n = true
}.

Lemma inv_g_small current todo st n v :
  Inv current todo st -> g st !! n = Some v -> 0 <= v < GRIDW * GRIDH.
Proof.
  intros HI Hn. split; [eapply reach_nonneg, inv_reach; eauto|].
  pose proof (inv_size _ _ _ HI n v Hn).
  pose proof (size_field (dom (g st))) as Hs.
  assert (Z.of_nat (size (dom (g st))) <= GRIDW * GRIDH); [|lia].
  apply Hs. intros m Hm. eapply inv_bounds; eauto. apply elem_of_dom. exact Hm.
Qed.

Lemma inv_initial current :
  start <> goal ->
  Inv current []
    (mkState {[ start ]} ∅ {[ start := 0 ]} {[ start := manhattan start goal ]}).
Proof.
  intros Hne. constructor; simpl.
  - apply lookup_singleton_eq.
  - intros n v H. apply lookup_singleton_Some in H as [<- <-]. constructor.
  - intros n v n' H Hn. apply lookup_singleton_Some in H as [<- <-].
    exfalso. apply Hn. apply elem_of_singleton. reflexivity.
  - intros n v H. apply lookup_singleton_Some in H as [<- <-].
    apply lookup_singleton_eq.
  - intros n H. apply elem_of_singleton in H as ->. rewrite lookup_singleton_eq. eauto.
  - intros [v H]. apply lookup_singleton_Some in H as [E _]. congruence.
  - intros n v H. apply lookup_singleton_Some in H as [<- <-]. left. reflexivity.
  - apply lookup_empty.
  - intros n v H. apply lookup_singleton_Some in H as [<- <-].
    rewrite dom_singleton_L, size_singleton. lia.
  - intros n [v H]. apply lookup_singleton_Some in H as [<- <-]. exact start_inbounds.
Qed.

(** Taking [current] out of the open set leaves all its neighbours to do. *)
Lemma inv_pop current st :
  Inv current [] st -> current <> goal ->
  Inv current DIRS (mkState (openset st ∖ {[ current ]}) (came st) (g st) (f st)).
Proof.
  intros HI Hcg. constructor; simpl; try (apply HI).
  - intros n v n' Hn Hclosed Hm.
    destruct (decide (n = current)) as [->|Hne].
    + left. split; [reflexivity|]. destruct Hm as [(d & Hd & ->) _]. eauto.
    + destruct (inv_closed _ _ _ HI n v n' Hn) as [[_ (d & Hd & _)]|H]; auto.
      * intros Hin. apply Hclosed. apply elem_of_difference. split; [exact Hin|].
        intros E. apply elem_of_singleton in E. contradiction.
      * inversion Hd.
  - intros n Hn. apply elem_of_difference in Hn as [Hn _]. eapply inv_open; eauto.
  - intros Hg. apply elem_of_difference. split; [eapply inv_goal; eauto|].
    intros E. apply elem_of_singleton in E. congruence.
Qed.

Lemma get_Some (m : gmap (Z * Z) Z) n v : m !! n = Some v -> get m n = v.
Proof. unfold get. intros ->. reflexivity. Qed.

Lemma get_None (m : gmap (Z * Z) Z) n : m !! n = None -> get m n = BIG.
Proof. unfold get. intros ->. reflexivity. Qed.

Lemma pending_tail current d todo n n' :
  pending current (d :: todo) n n' ->
  (n = current /\ n' = (current.1 + d.1, current.2 + d.2)) \/ pending current todo n n'.
Proof.
  intros [-> (d' & Hd & ->)]. apply elem_of_cons in Hd as [->|Hd].
  - left. auto.
  - right. split; eauto.
Qed.

(** One direction of the inner loop keeps the invariant. *)
Lemma inv_relax current d todo st vc :
  Inv current (d :: todo) st -> d ∈ DIRS -> g st !! current = Some vc ->
  exists st',
    relax grid goal current st d = Some st' /\
    Inv current todo st' /\ g st' !! current = Some vc.
Proof.
  intros HI Hd Hcur. unfold relax.
  set (m := (current.1 + d.1, current.2 + d.2)).
  pose proof (inv_g_small _ _ _ _ _ HI Hcur) as Hvc.
  assert (Hskip : (inbounds m = false \/ blocked grid m = Some true) ->
                  Inv current todo st).
  { intros Hno. constructor; try (apply HI).
    intros n v n' Hn Hcl Hm.
    destruct (inv_closed _ _ _ HI n v n' Hn Hcl Hm) as [Hp|H]; [|auto].
    apply pending_tail in Hp as [[-> ->]|Hp]; [|auto].
    destruct Hm as (_ & Hin & Hfree). fold m in Hin, Hfree.
    destruct Hno as [Hno|Hno]; congruence. }
  destruct (inbounds m) eqn:Hin; simpl;
    [|exists st; split; [reflexivity|split; [apply Hskip; left; reflexivity|exact Hcur]]].
  destruct (blocked_is_Some m Hin) as [bl Hbl]. rewrite Hbl.
  destruct bl;
    [exists st; split; [reflexivity|split; [apply Hskip; right; exact Hbl|exact Hcur]]|].
  assert (Hmove : move grid current m).
  { split; [exists d; auto|]. auto. }
  rewrite (get_Some _ _ _ Hcur).
  destruct (vc + 1 <? get (g st) m) eqn:Hlt.
  - apply Z.ltb_lt in Hlt.
    assert (Hmc : m <> current) by (intros E; eapply move_neq; eauto).
    assert (Hms : m <> start).
    { intros E. rewrite E in Hlt.
      rewrite (get_Some _ _ _ (inv_start _ _ _ HI)) in Hlt. lia. }
    eexists. split; [reflexivity|]. split; [|simpl; rewrite lookup_insert_ne; auto].
    constructor; simpl.
    + rewrite lookup_insert_ne by auto. apply HI.
    + intros n v Hn. destruct (decide (n = m)) as [->|Hne].
      * rewrite lookup_insert_eq in Hn. injection Hn as <-.
        eapply reach_step; [eapply inv_reach; eauto|exact Hmove].
      * rewrite lookup_insert_ne in Hn by auto. eapply inv_reach; eauto.
    + intros n v n' Hn Hcl Hm.
      assert (Hnm : n <> m) by (intros ->; apply Hcl; set_solver).
      rewrite lookup_insert_ne in Hn by auto.
      assert (Hcl' : n ∉ openset st) by set_solver.
      destruct (inv_closed _ _ _ HI n v n' Hn Hcl' Hm) as [Hp|(v' & Hv' & Hle)].
      * apply pending_tail in Hp as [[-> ->]|Hp]; [|auto].
        right. exists (vc + 1). fold m. rewrite lookup_insert_eq.
        split; [reflexivity|]. rewrite Hcur in Hn. injection Hn as <-. lia.
      * right. destruct (decide (n' = m)) as [->|Hne].
        -- exists (vc + 1). rewrite lookup_insert_eq. split; [reflexivity|].
           rewrite (get_Some _ _ _ Hv') in Hlt. lia.
        -- exists v'. rewrite lookup_insert_ne by auto. auto.
    + intros n v Hn. destruct (decide (n = m)) as [->|Hne].
      * rewrite lookup_insert_eq in Hn. injection Hn as <-.
        apply lookup_insert_eq.
      * rewrite lookup_insert_ne in Hn by auto. rewrite lookup_insert_ne by auto.
        eapply inv_f; eauto.
    + intros n Hn. destruct (decide (n = m)) as [->|Hne].
      * rewrite lookup_insert_eq. eauto.
      * rewrite lookup_insert_ne by auto. eapply inv_open; eauto. set_solver.
    + intros Hg. destruct (decide (goal = m)) as [->|Hne]; [set_solver|].
      rewrite lookup_insert_ne in Hg by auto.
      apply elem_of_union_r. eapply inv_goal; eauto.
    + intros n v Hn. destruct (decide (n = m)) as [->|Hne].
      * rewrite lookup_insert_eq in Hn. injection Hn as <-. right.
        exists current, vc. rewrite lookup_insert_eq, lookup_insert_ne by auto.
        repeat split; auto; try lia; apply Hmove.
      * rewrite lookup_insert_ne in Hn by auto.
        destruct (inv_came _ _ _ HI n v Hn) as [->|(p & vp & Hc & Hp & Hle & Hm)];
          [left; reflexivity|].
        right. rewrite lookup_insert_ne by auto.
        destruct (decide (p = m)) as [->|Hpm].
        -- exists m, (vc + 1). rewrite lookup_insert_eq.
           rewrite (get_Some _ _ _ Hp) in Hlt. repeat split; auto; try lia; apply Hm.
        -- exists p, vp. rewrite lookup_insert_ne by auto. auto.
    + rewrite lookup_insert_ne by auto. apply HI.
    + intros n v Hn. rewrite dom_insert_L.
      destruct (g st !! m) as [vm|] eqn:Hm.
      * assert ({[m]} ∪ dom (g st) = dom (g st)) as ->.
        { apply elem_of_dom_2 in Hm. set_solver. }
        rewrite (get_Some _ _ _ Hm) in Hlt.
        destruct (decide (n = m)) as [->|Hne].
        -- rewrite lookup_insert_eq in Hn. injection Hn as <-.
           pose proof (inv_size _ _ _ HI m vm Hm). lia.
        -- rewrite lookup_insert_ne in Hn by auto. eapply inv_size; eauto.
      * rewrite size_union by (apply not_elem_of_dom in Hm; set_solver).
        rewrite size_singleton.
        destruct (decide (n = m)) as [->|Hne].
        -- rewrite lookup_insert_eq in Hn. injection Hn as <-.
           pose proof (inv_size _ _ _ HI current vc Hcur). lia.
        -- rewrite lookup_insert_ne in Hn by auto.
           pose proof (inv_size _ _ _ HI n v Hn). lia.
    + intros n Hn. destruct (decide (n = m)) as [->|Hne]; [exact Hin|].
      rewrite lookup_insert_ne in Hn by auto. eapply inv_bounds; eauto.
  - apply Z.ltb_ge in Hlt. eexists. split; [reflexivity|]. split; [|exact Hcur].
    constructor; try (apply HI).
    intros n v n' Hn Hcl Hm.
    destruct (inv_closed _ _ _ HI n v n' Hn Hcl Hm) as [Hp|H]; [|auto].
    apply pending_tail in Hp as [[-> ->]|Hp]; [|auto].
    right. fold m. rewrite Hcur in Hn. injection Hn as <-.
    destruct (g st !! m) as [vm|] eqn:Hgm.
    + exists vm. rewrite (get_Some _ _ _ Hgm) in Hlt. auto.
    + rewrite (get_None _ _ Hgm) in Hlt. unfold BIG, GRIDW, GRIDH in *. lia.
Qed.

Lemma inv_relax_all current todo : forall st vc,
  Inv current todo st -> (forall d, d ∈ todo -> d ∈ DIRS) ->
  g st !! current = Some vc ->
  exists st',
    relax_all grid goal current st todo = Some st' /\
    Inv current [] st' /\ g st' !! current = Some vc.
Proof.
  induction todo as [|d todo IH]; intros st vc HI Hd Hcur; simpl; [eauto|].
  destruct (inv_relax current d todo st vc HI) as (st1 & -> & HI1 & Hcur1);
    [apply Hd; left|exact Hcur|].
  apply IH; auto. intros d' Hd'. apply Hd. right. exact Hd'.
Qed.

(** The measure. *)
Lemma sum_cells_le (w w' : (Z * Z) -> Z) l :
  (forall n, n ∈ l -> w' n <= w n) -> sum_cells w' l <= sum_cells w l.
Proof.
  induction l as [|x l IH]; intros H; simpl; [lia|].
  pose proof (H x ltac:(left)).
  assert (sum_cells w' l <= sum_cells w l) by (apply IH; intros; apply H; right; auto).
  lia.
Qed.

Lemma sum_cells_lt (w w' : (Z * Z) -> Z) l m :
  (forall n, n ∈ l -> w' n <= w n) -> m ∈ l -> w' m < w m ->
  sum_cells w' l < sum_cells w l.
Proof.
  induction l as [|x l IH]; intros H Hm Hlt; [inversion Hm|]. simpl.
  pose proof (H x ltac:(left)).
  assert (Hl : sum_cells w' l <= sum_cells w l)
    by (apply sum_cells_le; intros; apply H; right; auto).
  apply elem_of_cons in Hm as [->|Hm]; [lia|].
  assert (sum_cells w' l < sum_cells w l) by (apply IH; auto; intros; apply H; right; auto).
  lia.
Qed.

Lemma sum_cells_bounds (w : (Z * Z) -> Z) l (lo hi : Z) :
  (forall n, n ∈ l -> lo <= w n <= hi) ->
  lo * Z.of_nat (length l) <= sum_cells w l <= hi * Z.of_nat (length l).
Proof.
  induction l as [|x l IH]; intros H; simpl sum_cells; simpl length; [lia|].
  pose proof (H x ltac:(left)).
  assert (lo * Z.of_nat (length l) <= sum_cells w l <= hi * Z.of_nat (length l))
    by (apply IH; intros; apply H; right; auto).
  lia.
Qed.

Lemma potential_bounds current todo st :
  Inv current todo st ->
  0 <= potential st <= (2 * (GRIDW * GRIDH) + 1) * (GRIDW * GRIDH).
Proof.
  intros HI.
  assert (Hb : forall n, n ∈ all_cells ->
                 0 <= weight st n <= 2 * (GRIDW * GRIDH) + 1).
  { intros n _. unfold weight.
    destruct (g st !! n) as [v|] eqn:E.
    - pose proof (inv_g_small _ _ _ _ _ HI E). case_decide; lia.
    - unfold GRIDW, GRIDH. case_decide; lia. }
  pose proof (sum_cells_bounds _ _ _ _ Hb) as H.
  rewrite length_all_cells in H. unfold potential. lia.
Qed.

Lemma pop_potential current todo st :
  Inv current todo st -> current ∈ openset st ->
  potential (mkState (openset st ∖ {[ current ]}) (came st) (g st) (f st))
    < potential st.
Proof.
  intros HI Hc. unfold potential. apply sum_cells_lt with (m := current).
  - intros n _. unfold weight. simpl.
    repeat case_decide; try lia.
    exfalso. match goal with Hin : n ∈ openset st ∖ {[current]} |- _ =>
      apply elem_of_difference in Hin; tauto end.
  - apply elem_of_all_cells. eapply inv_bounds; [exact HI|].
    eapply inv_open; eauto.
  - unfold weight. simpl.
    repeat case_decide; try lia; try contradiction.
    exfalso. match goal with Hin : current ∈ openset st ∖ {[current]} |- _ =>
      apply elem_of_difference in Hin as [_ Hin]; apply Hin;
      apply elem_of_singleton; reflexivity end.
Qed.

Lemma relax_potential current d todo st st' vc :
  Inv current (d :: todo) st -> g st !! current = Some vc ->
  relax grid goal current st d = Some st' ->
  potential st' <= potential st.
Proof.
  intros HI Hcur. unfold relax.
  set (m := (current.1 + d.1, current.2 + d.2)).
  destruct (inbounds m) eqn:Hin; simpl; [|intros [= <-]; lia].
  destruct (blocked grid m) as [[|]|]; [intros [= <-]; lia| |discriminate].
  rewrite (get_Some _ _ _ Hcur).
  destruct (vc + 1 <? get (g st) m) eqn:Hlt; [|intros [= <-]; lia].
  apply Z.ltb_lt in Hlt. intros [= <-].
  unfold potential. apply sum_cells_le. intros n _. unfold weight. simpl.
  destruct (decide (n = m)) as [->|Hne].
  - rewrite lookup_insert_eq.
    assert (Hnew : g st !! m = None -> vc + 1 < GRIDW * GRIDH).
    { intros Hm.
      pose proof (inv_size _ _ _ HI current vc Hcur) as Hs.
      pose proof (size_field ({[m]} ∪ dom (g st))) as Hf.
      rewrite size_union in Hf by (apply not_elem_of_dom in Hm; set_solver).
      rewrite size_singleton in Hf.
      assert (Z.of_nat (1 + size (dom (g st))) <= GRIDW * GRIDH); [|lia].
      apply Hf. intros x Hx. apply elem_of_union in Hx as [Hx|Hx].
      + apply elem_of_singleton in Hx. subst x. exact Hin.
      + eapply inv_bounds; [exact HI|]. apply elem_of_dom. exact Hx. }
    destruct (g st !! m) as [vm|] eqn:Hm.
    + rewrite (get_Some _ _ _ Hm) in Hlt. repeat case_decide; lia.
    + specialize (Hnew eq_refl). repeat case_decide; lia.
  - rewrite lookup_insert_ne by auto.
    repeat case_decide; try lia.
    exfalso. match goal with Hi : n ∈ {[m]} ∪ openset st |- _ =>
      apply elem_of_union in Hi as [Hi|Hi]; [|contradiction];
      apply elem_of_singleton in Hi; contradiction end.
Qed.

Lemma relax_all_potential current todo : forall st st' vc,
  Inv current todo st -> (forall d, d ∈ todo -> d ∈ DIRS) ->
  g st !! current = Some vc ->
  relax_all grid goal current st todo = Some st' ->
  potential st' <= potential st.
Proof.
  induction todo as [|d todo IH]; intros st st' vc HI Hd Hcur; simpl.
  - intros [= <-]. lia.
  - destruct (inv_relax current d todo st vc HI) as (st1 & E & HI1 & Hcur1);
      [apply Hd; left|exact Hcur|].
    rewrite E. intros H.
    pose proof (relax_potential _ _ _ _ _ _ HI Hcur E).
    assert (potential st' <= potential st1); [|lia].
    eapply IH; eauto. intros d' Hd'. apply Hd. right. exact Hd'.
Qed.

End AstarInvariant.

Section AstarCorrect.

Import Astar.

Variable choose : nat -> gset (Z * Z) -> gmap (Z * Z) Z -> Z * Z.
Hypothesis choose_min : chooses_min choose.

Variable grid : list (list Z).
Variables start goal : Z * Z.
Hypothesis grid_shape : well_shaped grid.
Hypothesis start_inbounds : inbounds start = true.

Lemma manhattan_sym a b : manhattan a b = manhattan b a.
Proof. unfold manhattan. lia. Qed.

Lemma inv_any_current c c' st :
  Inv grid start goal c [] st -> Inv grid start goal c' [] st.
Proof.
  intros HI. constructor; try (apply HI).
  intros n v n' Hn Hcl Hm.
  destruct (inv_closed _ _ _ _ _ _ HI n v n' Hn Hcl Hm) as [[_ (d & Hd & _)]|H];
    [inversion Hd|auto].
Qed.

(** Along any path from [start], either the end has a cost on record that
    is no more than the length of the path, or the open set holds a cell
    whose cost plus distance to the end is no more than that length. *)
Lemma frontier c st n k :
  Inv grid start goal c [] st -> reach grid start n k ->
  (exists v, g st !! n = Some v /\ v <= k) \/
  (exists m vm, m ∈ openset st /\ g st !! m = Some vm /\ vm + manhattan m n <= k).
Proof.
  intros HI Hr. induction Hr as [|n k n' Hr IH Hm].
  - left. exists 0. split; [apply HI|lia].
  - destruct IH as [(v & Hv & Hle)|(m & vm & Hmo & Hvm & Hle)].
    + destruct (decide (n ∈ openset st)) as [Hin|Hout].
      * right. exists n, v. split; [exact Hin|]. split; [exact Hv|].
        pose proof (move_manhattan grid n n' n Hm) as H1.
        rewrite manhattan_self in H1. rewrite (manhattan_sym n n'). lia.
      * destruct (inv_closed _ _ _ _ _ _ HI n v n' Hv Hout Hm)
          as [[_ (d & Hd & _)]|(v' & Hv' & Hle')]; [inversion Hd|].
        left. exists v'. split; [exact Hv'|lia].
    + right. exists m, vm. split; [exact Hmo|]. split; [exact Hvm|].
      pose proof (move_manhattan grid n n' m Hm) as H1.
      rewrite (manhattan_sym m n'). rewrite (manhattan_sym m n) in Hle. lia.
Qed.

(** Walking back along [came] gives a path, no longer than the cost. *)
Lemma follow_path c st fuel : forall n v acc,
  Inv grid start goal c [] st -> g st !! n = Some v -> v < Z.of_nat fuel ->
  exists tl,
    follow fuel (came st) n acc = Some (acc ++ tl) /\
    is_path grid (rev (n :: tl)) start n /\
    Z.of_nat (length tl) <= v.
Proof.
  induction fuel as [|fuel IH]; intros n v acc HI Hn Hfuel.
  - pose proof (inv_g_small _ _ _ _ _ _ _ _ HI Hn). lia.
  - destruct (inv_came _ _ _ _ _ _ HI n v Hn) as [->|(p & vp & Hc & Hp & Hle & Hm)].
    + exists []. simpl. rewrite (inv_came_start _ _ _ _ _ _ HI).
      rewrite app_nil_r. split; [reflexivity|].
      split; [|pose proof (inv_g_small _ _ _ _ _ _ _ _ HI Hn); lia].
      repeat split.
    + simpl. rewrite Hc.
      destruct (IH p vp (acc ++ [p]) HI Hp) as (tl & Hf & Hpath & Hlen); [lia|].
      exists (p :: tl). rewrite Hf, <- app_assoc. split; [reflexivity|].
      split; [|simpl length; lia].
      change (rev (n :: p :: tl)) with (rev (p :: tl) ++ [n]).
      eapply is_path_snoc; eauto.
Qed.

Lemma loop_correct fuel : forall i c st,
  Inv grid start goal c [] st ->
  (exists k, reach grid start goal k) ->
  potential st + GRIDW * GRIDH < Z.of_nat fuel ->
  exists path,
    loop choose grid goal fuel i st = Returned path /\
    is_path grid path start goal /\
    forall k, reach grid start goal k -> Z.of_nat (length path) - 1 <= k.
Proof.
  induction fuel as [|fuel IH]; intros i c st HI Hreach Hfuel.
  - pose proof (potential_bounds _ _ _ _ _ _ HI).
    unfold GRIDW, GRIDH in *. lia.
  - cbn [loop].
    assert (Hopen : openset st <> ∅).
    { destruct Hreach as [k Hk].
      destruct (frontier c st goal k HI Hk) as [(v & Hv & _)|(m & vm & Hm & _)].
      - assert (goal ∈ openset st) by (eapply inv_goal; eauto). set_solver.
      - set_solver. }
    destruct (decide (openset st = ∅)) as [E|_]; [contradiction|].
    destruct (choose_min i (openset st) (f st) Hopen) as [Hin Hmin].
    set (current := choose i (openset st) (f st)) in *.
    destruct (inv_open _ _ _ _ _ _ HI current Hin) as [vc Hvc].
    pose proof (inv_g_small _ _ _ _ _ _ _ _ HI Hvc) as Hsmall.
    pose proof (potential_bounds _ _ _ _ _ _ HI) as Hpot.
    destruct (decide (current = goal)) as [Hcg|Hcg].
    + rewrite Hcg in *.
      destruct (follow_path c st fuel goal vc [goal] HI Hvc) as (tl & -> & Hpath & Hlen);
        [lia|].
      exists (rev ([goal] ++ tl)). split; [reflexivity|]. split; [exact Hpath|].
      intros k Hk. rewrite length_rev, length_app. simpl length.
      assert (vc <= k); [|lia].
      destruct (frontier c st goal k HI Hk) as [(v & Hv & Hle)|(m & vm & Hm & Hvm & Hle)].
      * congruence.
      * specialize (Hmin m Hm).
        rewrite (get_Some _ _ _ (inv_f _ _ _ _ _ _ HI goal vc Hvc)) in Hmin.
        rewrite (get_Some _ _ _ (inv_f _ _ _ _ _ _ HI m vm Hvm)) in Hmin.
        rewrite manhattan_self in Hmin. lia.
    + pose proof (inv_pop _ _ _ _ _ (inv_any_current c current st HI) Hcg) as HI1.
      pose proof (pop_potential _ _ _ _ _ _ (inv_any_current c current st HI) Hin) as Hdec.
      destruct (inv_relax_all grid start goal grid_shape start_inbounds current DIRS
                  _ vc HI1) as (st2 & E2 & HI2 & _); [auto|exact Hvc|].
      pose proof (relax_all_potential grid start goal grid_shape start_inbounds
                    current DIRS _ st2 vc HI1 ltac:(auto) Hvc E2) as Hle.
      rewrite E2. apply (IH (S i) current st2 HI2 Hreach). lia.
Qed.

End AstarCorrect.

Section ChooseFirst.

Import Astar.

Lemma fold_min_spec (fm : gmap (Z * Z) Z) (r : list (Z * Z)) : forall x,
  let best := fold_left (fun best y => if get fm y <? get fm best then y else best) r x in
  best ∈ x :: r /\ forall y, y ∈ x :: r -> get fm best <= get fm y.
Proof.
  induction r as [|z r IH]; intros x; simpl.
  - split; [left|]. intros y Hy. apply list_elem_of_singleton in Hy as ->. lia.
  - destruct (get fm z <? get fm x) eqn:E.
    + apply Z.ltb_lt in E. destruct (IH z) as [Hin Hle]. split.
      * right. exact Hin.
      * intros y Hy. apply elem_of_cons in Hy as [->|Hy]; [|auto].
        specialize (Hle z ltac:(left)). lia.
    + apply Z.ltb_ge in E. destruct (IH x) as [Hin Hle]. split.
      * apply elem_of_cons in Hin as [->|Hin]; [left|right; right; exact Hin].
      * intros y Hy. apply elem_of_cons in Hy as [->|Hy]; [apply Hle; left|].
        apply elem_of_cons in Hy as [->|Hy]; [|apply Hle; right; exact Hy].
        specialize (Hle x ltac:(left)). lia.
Qed.

(** Taking the elements in the order of [elements] is one way of taking a
    least element. *)
Lemma choose_first_min : chooses_min choose_first.
Proof.
  intros i s fm Hs. unfold choose_first.
  destruct (elements s) as [|x r] eqn:E.
  - apply elements_empty_inv in E. apply leibniz_equiv in E. contradiction.
  - destruct (fold_min_spec fm r x) as [Hin Hle]. split.
    + apply elem_of_elements. rewrite E. exact Hin.
    + intros y Hy. apply Hle. rewrite <- E. apply elem_of_elements. exact Hy.
Qed.

End ChooseFirst.

(** C2: on a grid of [GRIDH] rows of [GRIDW] columns, for an in-bounds
    [start] and a [goal] that a 4-connected path of unblocked cells leads to,
    [astar] returns a non-empty path that begins at [start], ends at [goal],
    moves by one step through unblocked cells, and is no longer than any
    such path; this for every iteration order [min] may follow on the open
    set.  (That the border is unblocked is not needed.) *)
Theorem C2_astar_returns_shortest_path
    (choose : nat -> gset (Z * Z) -> gmap (Z * Z) Z -> Z * Z)
    (grid : list (list Z)) (start goal : Z * Z) (fuel : nat) :
  Astar.chooses_min choose ->
  Astar.well_shaped grid ->
  Astar.inbounds start = true ->
  (exists p, Astar.is_path grid p start goal) ->
  (Astar.enough_fuel <= fuel)%nat ->
  exists path,
    Astar.astar choose grid goal fuel start = Astar.Returned path /\
    path <> [] /\
    Astar.is_path grid path start goal /\
    forall p, Astar.is_path grid p start goal -> (length path <= length p)%nat.
Proof.
  intros Hchoose Hshape Hstart [p0 Hp0] Hfuel. unfold Astar.astar.
  destruct (decide (start = goal)) as [<-|Hne].
  - exists [start]. split; [reflexivity|]. split; [discriminate|].
    split; [repeat split|].
    intros p (Hh & _). destruct p; [discriminate|simpl; lia].
  - destruct (loop_correct choose Hchoose grid start goal Hshape Hstart fuel 0 start
                (Astar.mkState {[ start ]} ∅ {[ start := 0 ]}
                   {[ start := Astar.manhattan start goal ]}))
      as (path & Hrun & Hpath & Hmin).
    + apply inv_initial; assumption.
    + eexists. eapply is_path_reach. exact Hp0.
    + pose proof (potential_bounds _ _ _ _ _ _
                    (inv_initial grid start goal Hstart start Hne)) as Hb.
      unfold Astar.enough_fuel in Hfuel. unfold GRIDW, GRIDH in *. lia.
    + exists path. split; [exact Hrun|].
      split; [intros ->; destruct Hpath as (Hh & _); discriminate|].
      split; [exact Hpath|].
      intros p Hp. apply is_path_reach in Hp. apply Hmin in Hp. lia.
Qed.

Ltac walk :=
  split; [reflexivity|]; split; [reflexivity|]; cbn [Astar.steps_ok];
  repeat (split;
    [split;
      [first [ exists (1, 0); split; [unfold DIRS; set_solver|reflexivity]
             | exists (-1, 0); split; [unfold DIRS; set_solver|reflexivity]
             | exists (0, 1); split; [unfold DIRS; set_solver|reflexivity]
             | exists (0, -1); split; [unfold DIRS; set_solver|reflexivity] ]
      |split; reflexivity]
    |]);
  exact I.

Section WalledField.

Import Astar.

Lemma walled_field_shaped : well_shaped Samples.walled_field.
Proof. split; [reflexivity|]. repeat constructor. Qed.

Lemma way_round_is_path :
  is_path Samples.walled_field Samples.way_round (5, 0) (5, 3).
Proof. unfold Samples.way_round. walk. Qed.

End WalledField.

(** C2, as stated, fails on a grid that is not of [GRIDH] rows of [GRIDW]
    cells: [inbounds] tests a neighbour against the configured size, not
    against the grid.  On a field of three rows of three free cells the
    corner (2, 2) can be walked to from (0, 0), and the call raises
    IndexError: the goal enters the open set only once (2, 1) or (1, 2) is
    expanded, and expanding either reads [grid[1][3]] or [grid[3]]. *)
Lemma C2_counterexample :
  Astar.inbounds (0, 0) = true /\ Astar.inbounds (2, 2) = true /\
  Astar.blocked Samples.small_field (0, 0) = Some false /\
  Astar.blocked Samples.small_field (2, 2) = Some false /\
  Astar.is_path Samples.small_field
    [(0, 0); (1, 0); (2, 0); (2, 1); (2, 2)] (0, 0) (2, 2) /\
  Astar.astar Astar.choose_first Samples.small_field (2, 2) Astar.enough_fuel (0, 0)
    = Astar.Raised.
Proof.
  split; [reflexivity|]. split; [reflexivity|].
  split; [reflexivity|]. split; [reflexivity|].
  split; [walk|]. vm_compute. reflexivity.
Qed.

Lemma C2_astar_returns_shortest_path_witness :
  exists path,
    Astar.astar Astar.choose_first Samples.walled_field (5, 3) Astar.enough_fuel (5, 0)
      = Astar.Returned path /\
    path <> [] /\
    Astar.is_path Samples.walled_field path (5, 0) (5, 3) /\
    forall p, Astar.is_path Samples.walled_field p (5, 0) (5, 3) ->
              (length path <= length p)%nat.
Proof.
  apply (C2_astar_returns_shortest_path Astar.choose_first Samples.walled_field
           (5, 0) (5, 3) Astar.enough_fuel).
  - apply choose_first_min.
  - apply walled_field_shaped.
  - reflexivity.
  - exists Samples.way_round. apply way_round_is_path.
  - lia.
Defined.

(** * Further properties *)

(** ** Health mutators: how calls compose *)

Section HealthAlgebra.

Ltac by_cases_on_zero :=
  repeat (match goal with
          | |- context [?x =? 0] => destruct (Z.eqb_spec x 0); simpl in *
          end);
  try reflexivity; try lia; try (f_equal; lia).

Lemma takedamage_add p d1 d2 :
  0 <= d1 -> 0 <= d2 -> takedamage (takedamage p d1) d2 = takedamage p (d1 + d2).
Proof.
  intros H1 H2. destruct p as [n t m h a d al].
  unfold takedamage, set_hp, set_alive; simpl.
  destruct al; simpl; [|reflexivity]. by_cases_on_zero.
Qed.

Lemma heal_add p a1 a2 :
  0 <= a1 -> 0 <= a2 -> heal (heal p a1) a2 = heal p (a1 + a2).
Proof.
  intros H1 H2. destruct p as [n t m h a d al]. unfold heal; simpl.
  destruct al; simpl; [|reflexivity]. unfold set_hp; simpl. f_equal. lia.
Qed.

End HealthAlgebra.

(** X1: damage adds up and healing adds up: for non-negative amounts, two
    calls of [takedamage] in a row do what one call with the sum does, and
    likewise for [heal], on every [Pokemon]. *)
Theorem X1_amounts_add_up (p : Pokemon) (x y : Z) :
  0 <= x -> 0 <= y ->
  takedamage (takedamage p x) y = takedamage p (x + y) /\
  heal (heal p x) y = heal p (x + y).
Proof. intros Hx Hy. split; [apply takedamage_add | apply heal_add]; assumption. Qed.

Lemma X1_amounts_add_up_witness :
  takedamage (takedamage (default_pokemon "Pikachu" "Electric") 60) 70
    = takedamage (default_pokemon "Pikachu" "Electric") (60 + 70) /\
  heal (heal (default_pokemon "Pikachu" "Electric") 60) 70
    = heal (default_pokemon "Pikachu" "Electric") (60 + 70).
Proof. apply X1_amounts_add_up; lia. Defined.

(** X2: a hit that the creature survives is undone by a heal of the same
    amount: for [0 <= d < hp <= maxhp] on a living creature,
    [heal(d)] after [takedamage(d)] gives the creature back; a hit of
    [d >= hp] is final, no heal brings the creature back. *)
Theorem X2_heal_undoes_survived_hit (p : Pokemon) (d amt : Z) :
  alive p = true -> 0 <= d -> hp p <= maxhp p ->
  (d < hp p -> heal (takedamage p d) d = p) /\
  (hp p <= d -> heal (takedamage p d) amt = set_alive (set_hp p 0) false).
Proof.
  intros Ha Hd Hm. destruct p as [n t m h a df al]. simpl in *. subst al.
  unfold takedamage, heal; simpl. split; intros Hh.
  - destruct (Z.max 0 (h - d) =? 0) eqn:E; [apply Z.eqb_eq in E; lia|].
    simpl. unfold set_hp; simpl. f_equal. lia.
  - replace (Z.max 0 (h - d)) with 0 by lia. reflexivity.
Qed.

Lemma X2_heal_undoes_survived_hit_witness :
  heal (takedamage (default_pokemon "Pikachu" "Electric") 30) 30
    = default_pokemon "Pikachu" "Electric".
Proof.
  apply (X2_heal_undoes_survived_hit (default_pokemon "Pikachu" "Electric") 30 0);
    simpl; try reflexivity; lia.
Defined.


(** ** Fuzzy memberships and thresholds *)

Section FuzzyThresholds.

Import FuzzyLogic.
Local Open Scope Q_scope.

Lemma Qle_bool_false a b : Qle_bool a b = false <-> b < a.
Proof.
  split; intros H.
  - apply Qnot_le_lt. rewrite <- Qle_bool_iff, H. discriminate.
  - destruct (Qle_bool a b) eqn:E; [|reflexivity].
    apply Qle_bool_iff in E. lra.
Qed.

Lemma max2_lt t a b : t < Py.max2 a b <-> t < a \/ t < b.
Proof. unfold Py.max2. destruct (Qlt_le_dec a b); split; intros; try lra. Qed.

Lemma max4_lt t a b c d :
  t < Py.max4 a b c d <-> t < a \/ t < b \/ t < c \/ t < d.
Proof. unfold Py.max4. rewrite !max2_lt. tauto. Qed.

Lemma max2_le t a b : Py.max2 a b <= t <-> a <= t /\ b <= t.
Proof. unfold Py.max2. destruct (Qlt_le_dec a b); split; intros; try lra. Qed.

Lemma min2_lt t a b : t < Py.min2 a b <-> t < a /\ t < b.
Proof. unfold Py.min2. destruct (Qlt_le_dec b a); split; intros; try lra. Qed.

Lemma min2_le_l a b : Py.min2 a b <= a.
Proof. unfold Py.min2. destruct (Qlt_le_dec b a); lra. Qed.

Lemma min2_ge t a b : t <= a -> t <= b -> t <= Py.min2 a b.
Proof. unfold Py.min2. destruct (Qlt_le_dec b a); lra. Qed.

(** The grade of a ramp, where the ramp is not flat. *)
Lemma ramp_range x w : 0 < w -> 0 <= x -> x <= w -> 0 <= x / w <= 1.
Proof.
  intros Hw H0 H1. split.
  - apply Qle_shift_div_l; lra.
  - apply Qle_shift_div_r; lra.
Qed.

Lemma ramp_gt x w t : 0 < w -> (t < x / w <-> t * w < x).
Proof.
  intros Hw. split; intros H.
  - apply (Qmult_lt_compat_r _ _ w) in H; [|exact Hw].
    assert (E : x / w * w == x) by (field; lra). rewrite E in H. exact H.
  - apply Qlt_shift_div_l; assumption.
Qed.

Lemma membership_low_range v lo hi :
  lo <= hi -> 0 <= membership_low v lo hi <= 1.
Proof.
  intros Hlh. unfold membership_low.
  destruct (Qle_bool v lo) eqn:E1; [lra|].
  destruct (Qle_bool hi v) eqn:E2; [lra|].
  apply Qle_bool_false in E1, E2. apply ramp_range; lra.
Qed.

Lemma membership_high_range v lo hi :
  lo <= hi -> 0 <= membership_high v lo hi <= 1.
Proof.
  intros Hlh. unfold membership_high.
  destruct (Qle_bool hi v) eqn:E1; [lra|].
  destruct (Qle_bool v lo) eqn:E2; [lra|].
  apply Qle_bool_false in E1, E2. apply ramp_range; lra.
Qed.

Lemma membership_medium_range v low mid high :
  low <= mid -> mid <= high -> 0 <= membership_medium v low mid high <= 1.
Proof.
  intros H1 H2. unfold membership_medium.
  destruct (Qle_bool v low) eqn:E1; [simpl; lra|].
  destruct (Qle_bool high v) eqn:E2; [simpl; lra|]. simpl.
  destruct (Qeq_bool v mid) eqn:E3; [lra|].
  apply Qle_bool_false in E1, E2.
  destruct (Qle_bool mid v) eqn:E4.
  - apply Qle_bool_iff in E4. apply ramp_range; lra.
  - apply Qle_bool_false in E4. apply ramp_range; lra.
Qed.

Lemma membership_low_high v lo hi :
  lo < hi -> membership_low v lo hi + membership_high v lo hi == 1.
Proof.
  intros Hlh. unfold membership_low, membership_high.
  destruct (Qle_bool v lo) eqn:E1; destruct (Qle_bool hi v) eqn:E2;
    try apply Qle_bool_iff in E1; try apply Qle_bool_iff in E2;
    try apply Qle_bool_false in E1; try apply Qle_bool_false in E2; try lra.
  field. lra.
Qed.


(** Where a grade exceeds a level [t] below 1. *)
Lemma membership_low_gt v lo hi t :
  lo < hi -> 0 <= t -> t < 1 ->
  (t < membership_low v lo hi <-> v < hi - t * (hi - lo)).
Proof.
  intros Hlh Ht0 Ht1.
  assert (Hp : 0 < (1 - t) * (hi - lo)) by (apply Qmult_lt_0_compat; lra).
  assert (Hq : 0 <= t * (hi - lo)) by (apply Qmult_le_0_compat; lra).
  unfold membership_low.
  destruct (Qle_bool v lo) eqn:E1.
  { apply Qle_bool_iff in E1. split; intros; lra. }
  destruct (Qle_bool hi v) eqn:E2.
  { apply Qle_bool_iff in E2. split; intros; lra. }
  apply Qle_bool_false in E1, E2.
  rewrite ramp_gt by lra. split; intros; lra.
Qed.

Lemma membership_high_gt v lo hi t :
  lo < hi -> 0 <= t -> t < 1 ->
  (t < membership_high v lo hi <-> lo + t * (hi - lo) < v).
Proof.
  intros Hlh Ht0 Ht1.
  assert (Hp : 0 < (1 - t) * (hi - lo)) by (apply Qmult_lt_0_compat; lra).
  assert (Hq : 0 <= t * (hi - lo)) by (apply Qmult_le_0_compat; lra).
  unfold membership_high.
  destruct (Qle_bool hi v) eqn:E1.
  { apply Qle_bool_iff in E1. split; intros; lra. }
  destruct (Qle_bool v lo) eqn:E2.
  { apply Qle_bool_iff in E2. split; intros; lra. }
  apply Qle_bool_false in E1, E2.
  rewrite ramp_gt by lra. split; intros; lra.
Qed.

Lemma membership_medium_gt v low mid high t :
  low < mid -> mid < high -> 0 <= t -> t < 1 ->
  (t < membership_medium v low mid high
   <-> low + t * (mid - low) < v /\ v < high - t * (high - mid)).
Proof.
  intros H1 H2 Ht0 Ht1.
  assert (Hp1 : 0 < (1 - t) * (mid - low)) by (apply Qmult_lt_0_compat; lra).
  assert (Hq1 : 0 <= t * (mid - low)) by (apply Qmult_le_0_compat; lra).
  assert (Hp2 : 0 < (1 - t) * (high - mid)) by (apply Qmult_lt_0_compat; lra).
  assert (Hq2 : 0 <= t * (high - mid)) by (apply Qmult_le_0_compat; lra).
  unfold membership_medium.
  destruct (Qle_bool v low) eqn:E1.
  { apply Qle_bool_iff in E1. simpl. split; intros; lra. }
  destruct (Qle_bool high v) eqn:E2.
  { apply Qle_bool_iff in E2. simpl. split; intros; lra. }
  simpl. apply Qle_bool_false in E1, E2.
  destruct (Qeq_bool v mid) eqn:E3.
  { apply Qeq_bool_iff in E3. split; intros; lra. }
  destruct (Qle_bool mid v) eqn:E4.
  - apply Qle_bool_iff in E4. rewrite ramp_gt by lra. split; intros; lra.
  - apply Qle_bool_false in E4. rewrite ramp_gt by lra. split; intros; lra.
Qed.

Lemma scaled_gt t t' m c : 0 < c -> t' * c == t -> (t < m * c <-> t' < m).
Proof.
  intros Hc E. rewrite <- E. split; intros H.
  - apply Qmult_lt_r in H; assumption.
  - apply Qmult_lt_r; assumption.
Qed.

End FuzzyThresholds.



(** X4: [should_heal] is 0 without an elixir and lies within [0, 0.9]
    with one. *)
Theorem X4_should_heal_range (hp_percent enemy_hp_percent : Q) (has_elixir : bool) :
  let s := FuzzyLogic.should_heal hp_percent has_elixir enemy_hp_percent in
  (0 <= s <= 9 # 10)%Q /\ (has_elixir = false -> s = 0%Q).
Proof.
  cbv zeta. split; [|intros ->; reflexivity].
  unfold FuzzyLogic.should_heal. destruct has_elixir; simpl negb; cbv iota; [|lra].
  cbv zeta.
  pose proof (membership_low_range hp_percent 20 50 ltac:(lra)) as Hl.
  pose proof (membership_low_range enemy_hp_percent 20 50 ltac:(lra)) as Hel.
  pose proof (membership_medium_range hp_percent 30 50 70 ltac:(lra) ltac:(lra)) as Hm.
  pose proof (membership_high_range hp_percent 60 80 ltac:(lra)) as Hh.
  pose proof (membership_high_range enemy_hp_percent 50 80 ltac:(lra)) as Heh.
  split.
  - eapply Qle_trans; [|apply max4_ge_third]. lra.
  - unfold Py.max4. rewrite !max2_le.
    pose proof (min2_le_l (FuzzyLogic.membership_low hp_percent 20 50)
                  (1 - FuzzyLogic.membership_low enemy_hp_percent 20 50)).
    pose proof (min2_le_l (FuzzyLogic.membership_medium hp_percent 30 50 70)
                  (FuzzyLogic.membership_high enemy_hp_percent 50 80)).
    pose proof (min2_le_l (FuzzyLogic.membership_low hp_percent 20 50)
                  (FuzzyLogic.membership_low enemy_hp_percent 20 50)).
    repeat split; lra.
Qed.

Lemma should_heal_threshold (hp_percent enemy_hp_percent : Q) :
  (4 # 10 < FuzzyLogic.should_heal hp_percent true enemy_hp_percent)%Q <->
  ((hp_percent < 110 # 3)%Q /\ (100 # 3 < enemy_hp_percent)%Q) \/
  ((130 # 3 < hp_percent)%Q /\ (hp_percent < 170 # 3)%Q /\ (70 < enemy_hp_percent)%Q).
Proof.
  unfold FuzzyLogic.should_heal. simpl negb. cbv iota zeta.
  pose proof (membership_low_range hp_percent 20 50 ltac:(lra)) as Hl.
  pose proof (membership_low_high enemy_hp_percent 20 50 ltac:(lra)) as Hc.
  pose proof (membership_high_range hp_percent 60 80 ltac:(lra)) as Hh.
  rewrite max4_lt.
  rewrite (scaled_gt (4 # 10) (4 # 9) _ (9 # 10)) by reflexivity.
  rewrite (scaled_gt (4 # 10) (2 # 3) _ (6 # 10)) by reflexivity.
  rewrite (scaled_gt (4 # 10) 1 _ (4 # 10)) by reflexivity.
  rewrite !min2_lt.
  assert (E : (1 - FuzzyLogic.membership_low enemy_hp_percent 20 50
               == FuzzyLogic.membership_high enemy_hp_percent 20 50)%Q) by lra.
  rewrite E.
  rewrite (membership_low_gt hp_percent 20 50) by lra.
  rewrite (membership_high_gt enemy_hp_percent 20 50) by lra.
  rewrite (membership_medium_gt hp_percent 30 50 70) by lra.
  rewrite (membership_high_gt enemy_hp_percent 50 80) by lra.
  split.
  - intros [H|[H|[H|H]]]; [left; lra|right; lra|lra|lra].
  - intros [H|H]; [left; lra|right; left; lra].
Qed.

Lemma should_swap_threshold (active_type enemy_type : string)
    (bench_has_advantage : bool) (active_hp_percent : Q) :
  (5 # 10 < FuzzyLogic.should_swap active_type enemy_type bench_has_advantage
              active_hp_percent)%Q <->
  bench_has_advantage = true /\ in_TYPEADV enemy_type active_type = true /\
  (active_hp_percent < 30)%Q.
Proof.
  unfold FuzzyLogic.should_swap.
  destruct bench_has_advantage; simpl negb; cbv iota;
    [|split; [intros H; lra|intros (H & _); discriminate]].
  cbv zeta.
  pose proof (membership_high_range active_hp_percent 50 80 ltac:(lra)) as Hh.
  rewrite max4_lt.
  rewrite (scaled_gt (5 # 10) (10 # 19) _ (95 # 100)) by reflexivity.
  rewrite (scaled_gt (5 # 10) (2 # 3) _ (75 # 100)) by reflexivity.
  rewrite !min2_lt.
  destruct (in_TYPEADV enemy_type active_type).
  - rewrite (membership_low_gt active_hp_percent 10 30) by lra.
    rewrite (membership_low_gt active_hp_percent 20 50) by lra.
    split.
    + intros [H|[H|[H|H]]]; repeat split; lra.
    + intros (_ & _ & H). right; left. lra.
  - split.
    + intros [H|[H|[H|H]]]; lra.
    + intros (_ & H & _). discriminate.
Qed.

(** X5: [should_heal] exceeds 0.4, the level above which [legalactions]
    offers a HEAL, only when the creature is below 36.67 percent and the
    enemy above 33.33 percent, or the creature is between 43.33 and 56.67
    percent and the enemy above 70 percent; and it does exceed 0.4 when the
    creature is at most at 36 percent and the enemy at least at 34, or the
    creature is between 44 and 56 percent and the enemy at least at 71. *)
Theorem X5_should_heal_threshold (hp_percent enemy_hp_percent : Q) :
  ((4 # 10 < FuzzyLogic.should_heal hp_percent true enemy_hp_percent)%Q ->
   ((hp_percent < 110 # 3)%Q /\ (100 # 3 < enemy_hp_percent)%Q) \/
   ((130 # 3 < hp_percent)%Q /\ (hp_percent < 170 # 3)%Q /\
    (70 < enemy_hp_percent)%Q)) /\
  (((hp_percent <= 36)%Q /\ (34 <= enemy_hp_percent)%Q) \/
   ((44 <= hp_percent)%Q /\ (hp_percent <= 56)%Q /\ (71 <= enemy_hp_percent)%Q) ->
   (4 # 10 < FuzzyLogic.should_heal hp_percent true enemy_hp_percent)%Q).
Proof.
  split.
  - apply should_heal_threshold.
  - intros H. apply should_heal_threshold.
    destruct H as [[H1 H2]|(H1 & H2 & H3)]; [left|right]; repeat split; lra.
Qed.

Lemma X5_should_heal_threshold_witness :
  (((20 < 110 # 3)%Q /\ (100 # 3 < 100)%Q) \/
   ((130 # 3 < 20)%Q /\ (20 < 170 # 3)%Q /\ (70 < 100)%Q)) /\
  (4 # 10 < FuzzyLogic.should_heal 20 true 100)%Q.
Proof.
  destruct (X5_should_heal_threshold 20 100) as [H1 H2].
  split.
  - apply H1. vm_compute. reflexivity.
  - apply H2. left. split; vm_compute; discriminate.
Defined.

(** X6: [should_swap] exceeds 0.5, the level above which [legalactions]
    offers a SWAP, only when a bench creature has the advantage, the enemy
    has the type advantage over the active creature and the active creature
    is below 30 percent; and it does exceed 0.5 under these conditions when
    the active creature is at most at 29 percent. *)
Theorem X6_should_swap_threshold (active_type enemy_type : string)
    (bench_has_advantage : bool) (active_hp_percent : Q) :
  ((5 # 10 < FuzzyLogic.should_swap active_type enemy_type bench_has_advantage
               active_hp_percent)%Q ->
   bench_has_advantage = true /\ in_TYPEADV enemy_type active_type = true /\
   (active_hp_percent < 30)%Q) /\
  (bench_has_advantage = true -> in_TYPEADV enemy_type active_type = true ->
   (active_hp_percent <= 29)%Q ->
   (5 # 10 < FuzzyLogic.should_swap active_type enemy_type bench_has_advantage
               active_hp_percent)%Q).
Proof.
  split.
  - apply should_swap_threshold.
  - intros Hb Ht Hp. apply should_swap_threshold. repeat split; [exact Hb|exact Ht|lra].
Qed.

Lemma X6_should_swap_threshold_witness :
  (in_TYPEADV "Fire" "Electric" = true /\ (20 < 30)%Q) /\
  (5 # 10 < FuzzyLogic.should_swap "Electric" "Fire" true 20)%Q.
Proof.
  destruct (X6_should_swap_threshold "Electric" "Fire" true 20) as [H1 H2].
  split.
  - apply H1. vm_compute. reflexivity.
  - apply H2; [reflexivity|vm_compute; reflexivity|vm_compute; discriminate].
Defined.

(** ** The evaluation and the heuristic *)

Section Evaluation.

Import Search Astar.

Lemma evalstate_antisym a b s s' : evalstate a b s = - evalstate b a s'.
Proof. unfold evalstate. lia. Qed.

Lemma manhattan_zero a b : manhattan a b = 0 <-> a = b.
Proof.
  destruct a as [ax ay], b as [bx b_y]. unfold manhattan; simpl. split.
  - intros H. f_equal; lia.
  - intros [= -> ->]. lia.
Qed.

Lemma manhattan_triangle a b c : manhattan a c <= manhattan a b + manhattan b c.
Proof. unfold manhattan. lia. Qed.

Lemma manhattan_step a d : d ∈ DIRS -> manhattan a (a.1 + d.1, a.2 + d.2) = 1.
Proof.
  unfold DIRS. rewrite !elem_of_cons, elem_of_nil.
  intros [->|[->|[->|[->|[]]]]]; unfold manhattan; simpl; lia.
Qed.

End Evaluation.

(** X7: [evalstate] is antisymmetric in the two sides, so the score
    [recurse] gives a finished line of play is [evalstate(a, b, s)], the
    advantage of the first side, whether the caller is Ash or not: the two
    uses of [meisash] cancel. *)
Theorem X7_leaf_score_is_first_side_advantage
    (meisash : bool) (a b : Agent) (s : BattleState) :
  Search.evalstate a b s = - Search.evalstate b a s /\
  Search.leaf meisash a b s = Search.evalstate a b s.
Proof.
  split; [apply evalstate_antisym|].
  unfold Search.leaf. destruct meisash; [reflexivity|].
  rewrite (evalstate_antisym a b s s). lia.
Qed.

(** X8: [manhattan] is a metric on cells, and a step in one of the four
    directions of [DIRS] is at distance 1: the heuristic of [astar] changes
    by at most 1 along a step. *)
Theorem X8_manhattan_metric (a b c d : Z * Z) :
  (Astar.manhattan a b = 0 <-> a = b) /\
  Astar.manhattan a b = Astar.manhattan b a /\
  Astar.manhattan a c <= Astar.manhattan a b + Astar.manhattan b c /\
  (d ∈ DIRS ->
     Astar.manhattan a (a.1 + d.1, a.2 + d.2) = 1 /\
     Z.abs (Astar.manhattan (a.1 + d.1, a.2 + d.2) c - Astar.manhattan a c) <= 1).
Proof.
  split; [apply manhattan_zero|].
  split; [unfold Astar.manhattan; lia|].
  split; [apply manhattan_triangle|].
  intros Hd. pose proof (manhattan_step a d Hd) as H1. split; [exact H1|].
  revert H1. unfold Astar.manhattan. simpl. lia.
Qed.


(** ** What [legalactions] generates *)

Section Generated.

Import Search Phase3.

Lemma find_from_indexed {A} (P : Z -> A -> bool) (l : list A) : forall i0 i,
  Py.find_from P i0 l = Some i ->
  exists n x, i = i0 + Z.of_nat n /\ l !! n = Some x /\ P i x = true /\
    forall m y, (m < n)%nat -> l !! m = Some y -> P (i0 + Z.of_nat m) y = false.
Proof.
  induction l as [|x l IH]; intros i0 i; simpl; [discriminate|].
  destruct (P i0 x) eqn:Px.
  - intros [= <-]. exists 0%nat, x. split; [lia|]. split; [reflexivity|].
    split; [exact Px|]. intros; lia.
  - intros H. apply IH in H as (n & y & -> & Hy & HP & Hmin).
    exists (S n), y. split; [lia|]. split; [exact Hy|].
    split; [rewrite <- HP; f_equal; lia|].
    intros [|m] z Hm Hz; simpl in Hz.
    + injection Hz as <-. rewrite Z.add_0_r. exact Px.
    + replace (i0 + Z.of_nat (S m)) with (i0 + 1 + Z.of_nat m) by lia.
      apply Hmin; [lia|exact Hz].
Qed.

Lemma max_from_spec {A} (key : A -> option Z) (l : list A) : forall best bk r,
  key best = Some bk ->
  max_from key best bk l = Some r ->
  (r = best \/ r ∈ l) /\
  exists kr, key r = Some kr /\ bk <= kr /\
    forall x kx, x ∈ l -> key x = Some kx -> kx <= kr.
Proof.
  induction l as [|x l IH]; intros best bk r Hb; simpl.
  - intros [= <-]. split; [left; reflexivity|].
    exists bk. split; [exact Hb|]. split; [lia|]. intros x kx Hx. inversion Hx.
  - destruct (key x) as [kx|] eqn:Ex; [|discriminate].
    destruct (bk <? kx) eqn:E.
    + apply Z.ltb_lt in E. intros H.
      apply (IH x kx r Ex) in H as (Hin & kr & Hkr & Hle & Hmax).
      split; [right; destruct Hin as [->|Hin]; [left|right; exact Hin]|].
      exists kr. split; [exact Hkr|]. split; [lia|].
      intros y ky Hy Hky. apply elem_of_cons in Hy as [->|Hy].
      * rewrite Ex in Hky. injection Hky as <-. exact Hle.
      * eapply Hmax; eauto.
    + apply Z.ltb_ge in E. intros H.
      apply (IH best bk r Hb) in H as (Hin & kr & Hkr & Hle & Hmax).
      split; [destruct Hin as [->|Hin]; [left; reflexivity|right; right; exact Hin]|].
      exists kr. split; [exact Hkr|]. split; [lia|].
      intros y ky Hy Hky. apply elem_of_cons in Hy as [->|Hy].
      * rewrite Ex in Hky. injection Hky as <-. lia.
      * eapply Hmax; eauto.
Qed.

Lemma max_by_key_spec {A} (key : A -> option Z) (l : list A) r :
  max_by_key key l = Some r ->
  r ∈ l /\ exists kr, key r = Some kr /\
    forall x kx, x ∈ l -> key x = Some kx -> kx <= kr.
Proof.
  destruct l as [|x l]; simpl; [discriminate|].
  destruct (key x) as [kx|] eqn:Ex; [|discriminate]. intros H.
  apply (max_from_spec key l x kx r Ex) in H as (Hin & kr & Hkr & Hle & Hmax).
  split; [destruct Hin as [->|Hin]; [left|right; exact Hin]|].
  exists kr. split; [exact Hkr|].
  intros y ky Hy Hky. apply elem_of_cons in Hy as [->|Hy].
  - rewrite Ex in Hky. injection Hky as <-. exact Hle.
  - eapply Hmax; eauto.
Qed.

Lemma owned_available (e : gmap string Z) (s : string) (n : Z) :
  e !! s = Some n -> 0 < n -> s ∈ available e.
Proof.
  intros Hs Hn. unfold available.
  apply list_elem_of_fmap. exists (s, n). split; [reflexivity|].
  apply list_elem_of_filter. split; [exact Hn|]. apply elem_of_map_to_list. exact Hs.
Qed.

Lemma legalactions_shape agent activeidx opppokemon acts :
  legalactions agent activeidx opppokemon = Some acts ->
  exists swaps heals,
    acts = [ATTACK_act; DEFEND_act] ++ swaps ++ heals /\
    (swaps = [] \/
     exists i, swaps = [mkAction SWAP (ArgInt i)] /\
               swap_choice agent activeidx opppokemon i) /\
    (heals = [] \/
     exists s, heals = [mkAction HEAL (ArgStr s)] /\ heal_choice agent s).
Proof.
  unfold legalactions.
  destruct (Py.index (team agent) activeidx) as [activepoke|]; [|discriminate].
  set (P := fun (i : Z) (p : Pokemon) =>
              negb (i =? activeidx) && alive p
              && in_TYPEADV (ptype p) (ptype opppokemon)).
  assert (Hswap : forall i, Py.find_index P (team agent) = Some i ->
                            swap_choice agent activeidx opppokemon i).
  { intros i Hi. apply find_from_indexed in Hi as (n & p & -> & Hp & HP & Hmin).
    exists n, p. unfold P in HP.
    apply andb_prop in HP as [HP Hadv]. apply andb_prop in HP as [Hne Hal].
    apply negb_true_iff, Z.eqb_neq in Hne.
    split; [lia|]. split; [exact Hp|]. split; [exact Hne|].
    split; [exact Hal|]. split; [exact Hadv|].
    intros m q Hm Hq. specialize (Hmin m q Hm Hq). unfold P in Hmin.
    rewrite Z.add_0_l in Hmin.
    apply andb_false_iff in Hmin as [Hmin|Hmin]; [|right; right; exact Hmin].
    apply andb_false_iff in Hmin as [Hmin|Hmin]; [|right; left; exact Hmin].
    left. apply negb_false_iff, Z.eqb_eq in Hmin. exact Hmin. }
  assert (Hheal : forall s,
            max_by_key (fun n => fst <$> ELIXIRS !! n) (available (elixirs agent)) = Some s ->
            heal_choice agent s).
  { intros s Hs. apply max_by_key_spec in Hs as (Hin & kr & Hkr & Hmax).
    apply available_owned in Hin as (n & Hn & Hpos).
    destruct (ELIXIRS !! s) as [[amt price]|] eqn:Es; [|discriminate].
    simpl in Hkr. injection Hkr as <-.
    exists n, amt, price. split; [exact Hn|]. split; [exact Hpos|].
    split; [exact Es|].
    intros s' n' amt' price' Hn' Hpos' Es'.
    apply (Hmax s' amt'); [eapply owned_available; eauto|].
    rewrite Es'. reflexivity. }
  set (swap_part := match Py.find_index P (team agent) with
                    | None => _ | Some i => _ end).
  assert (Hsp : forall acts0, swap_part = Some acts0 ->
            exists swaps, acts0 = [ATTACK_act; DEFEND_act] ++ swaps /\
              (swaps = [] \/ exists i, swaps = [mkAction SWAP (ArgInt i)] /\
                               swap_choice agent activeidx opppokemon i)).
  { intros acts0. unfold swap_part.
    destruct (Py.find_index P (team agent)) as [i|] eqn:Ei.
    - destruct (percent _ _); [|discriminate].
      destruct (Qlt_le_dec _ _); intros [= <-].
      + exists [mkAction SWAP (ArgInt i)]. split; [reflexivity|].
        right. exists i. split; [reflexivity|]. apply Hswap. reflexivity.
      + exists []. split; [reflexivity|]. left. reflexivity.
    - intros [= <-]. exists []. split; [reflexivity|]. left. reflexivity. }
  destruct swap_part as [acts0|]; [|discriminate].
  destruct (Hsp acts0 eq_refl) as (swaps & -> & Hswaps).
  intros H. exists swaps.
  assert (Hnone : exists heals, [ATTACK_act; DEFEND_act] ++ swaps
                    = [ATTACK_act; DEFEND_act] ++ swaps ++ heals /\ heals = []).
  { exists []. rewrite app_nil_r. split; reflexivity. }
  destruct (has_elixir (elixirs agent) && (hp activepoke <? maxhp activepoke)).
  - destruct (percent (hp activepoke) (maxhp activepoke)); [|discriminate].
    destruct (percent (hp opppokemon) (maxhp opppokemon)); [|discriminate].
    destruct (Qlt_le_dec _ _).
    + destruct (available (elixirs agent)) as [|s0 r] eqn:Ea.
      * injection H as <-. destruct Hnone as (heals & E & ->).
        exists []. split; [exact E|]. split; [exact Hswaps|]. left. reflexivity.
      * destruct (max_by_key _ (s0 :: r)) as [best|] eqn:Eb; [|discriminate].
        injection H as <-. exists [mkAction HEAL (ArgStr best)].
        split; [simpl; reflexivity|]. split; [exact Hswaps|].
        right. exists best. split; [reflexivity|]. apply Hheal. reflexivity.
    + injection H as <-. destruct Hnone as (heals & E & ->).
      exists []. split; [exact E|]. split; [exact Hswaps|]. left. reflexivity.
  - injection H as <-. destruct Hnone as (heals & E & ->).
    exists []. split; [exact E|]. split; [exact Hswaps|]. left. reflexivity.
Qed.

End Generated.


Section GeneratedEffect.

Import Search Phase3.

Lemma legalactions_active agent activeidx opppokemon acts :
  legalactions agent activeidx opppokemon = Some acts ->
  is_Some (Py.position (team agent) activeidx).
Proof.
  unfold legalactions. intros H. apply index_is_Some.
  destruct (Py.index (team agent) activeidx); [eauto|discriminate].
Qed.

Lemma swap_choice_apply agent activeidx opppokemon i idx :
  swap_choice agent activeidx opppokemon i ->
  illegal agent (mkAction SWAP (ArgInt i)) = false /\
  apply agent (mkAction SWAP (ArgInt i)) idx = Some (agent, i).
Proof.
  intros (n & p & -> & Hp & _ & Hal & _).
  pose proof (lookup_lt_Some _ _ _ Hp) as Hlt.
  assert (E : (0 <=? Z.of_nat n) && (Z.of_nat n <? Z.of_nat (length (team agent))) = true).
  { apply andb_true_intro. split; [apply Z.leb_le|apply Z.ltb_lt]; lia. }
  unfold illegal, apply. simpl. rewrite E. simpl.
  rewrite Nat2Z.id, Hp, Hal. split; [reflexivity|].
  assert (Hi : Py.index (team agent) (Z.of_nat n) = Some p).
  { apply index_Some. exists n. split; [|exact Hp].
    rewrite position_nonneg by lia. rewrite Nat2Z.id. reflexivity. }
  rewrite Hi, Hal. reflexivity.
Qed.

Lemma heal_choice_apply agent s idx pos :
  heal_choice agent s -> Py.position (team agent) idx = Some pos ->
  illegal agent (mkAction HEAL (ArgStr s)) = false /\
  exists n amt price,
    elixirs agent !! s = Some n /\ 0 < n /\ ELIXIRS !! s = Some (amt, price) /\
    apply agent (mkAction HEAL (ArgStr s)) idx
      = Some (mkAgent (aname agent) (alter (fun p => heal p amt) pos (team agent))
                (coins agent) (fuel agent) (<[s := n - 1]> (elixirs agent)), idx).
Proof.
  intros (n & amt & price & Hn & Hpos & He & _) Hp.
  unfold illegal, apply. simpl. rewrite Hn. simpl.
  split; [apply Z.leb_gt; exact Hpos|].
  exists n, amt, price. split; [reflexivity|]. split; [exact Hpos|].
  split; [exact He|].
  replace (0 <? n) with true by (symmetry; apply Z.ltb_lt; exact Hpos).
  rewrite He, (update_at_position _ _ _ pos Hp). reflexivity.
Qed.

End GeneratedEffect.

(** X9: when [legalactions] returns, its list is ATTACK, DEFEND, then at
    most one SWAP and then at most one HEAL.  The SWAP is to the first
    creature of the roster, other than the one at [activeidx], that is alive
    and has the type advantage over the opponent; the HEAL is with a tier the
    side owns, of the largest heal amount among those it owns. *)
Theorem X9_legalactions_shape
    (agent : Agent) (activeidx : Z) (opppokemon : Pokemon) (acts : list BattleAction) :
  Search.legalactions agent activeidx opppokemon = Some acts ->
  exists swaps heals,
    acts = [ATTACK_act; DEFEND_act] ++ swaps ++ heals /\
    (swaps = [] \/
     exists i, swaps = [mkAction SWAP (ArgInt i)] /\
               swap_choice agent activeidx opppokemon i) /\
    (heals = [] \/
     exists s, heals = [mkAction HEAL (ArgStr s)] /\ heal_choice agent s).
Proof. apply legalactions_shape. Qed.

(** X10: the transition function carries out every action [legalactions]
    generates for the same side: none is one of the sub-actions it skips; a
    generated SWAP makes its target, which is not [activeidx], the active
    index; a generated HEAL heals the active creature by the amount of the
    tier and takes one elixir of the tier. *)
Theorem X10_generated_actions_take_effect
    (agent : Agent) (activeidx : Z) (opppokemon : Pokemon)
    (acts : list BattleAction) (act : BattleAction) :
  Search.legalactions agent activeidx opppokemon = Some acts ->
  act ∈ acts ->
  illegal agent act = false /\
  match kind act, arg act with
  | SWAP, ArgInt i =>
      i <> activeidx /\ Phase3.apply agent act activeidx = Some (agent, i)
  | HEAL, ArgStr s =>
      exists n amt price pos,
        elixirs agent !! s = Some n /\ 0 < n /\ ELIXIRS !! s = Some (amt, price) /\
        Py.position (team agent) activeidx = Some pos /\
        Phase3.apply agent act activeidx
          = Some (mkAgent (aname agent)
                    (alter (fun p => heal p amt) pos (team agent))
                    (coins agent) (fuel agent) (<[s := n - 1]> (elixirs agent)),
                  activeidx)
  | _, _ => Phase3.apply agent act activeidx = Some (agent, activeidx)
  end.
Proof.
  intros Hl Hin.
  destruct (legalactions_active _ _ _ _ Hl) as [pos Hpos].
  apply legalactions_shape in Hl as (swaps & heals & -> & Hs & Hh).
  simpl in Hin. rewrite !elem_of_cons, elem_of_app in Hin.
  destruct Hin as [->|[->|[Hin|Hin]]]; try (split; reflexivity).
  - destruct Hs as [->|(i & -> & Hc)]; [inversion Hin|].
    apply list_elem_of_singleton in Hin as ->. simpl.
    destruct (swap_choice_apply _ _ _ _ activeidx Hc) as [H1 H2].
    split; [exact H1|]. split; [|exact H2].
    destruct Hc as (n & p & _ & _ & Hne & _). exact Hne.
  - destruct Hh as [->|(s & -> & Hc)]; [inversion Hin|].
    apply list_elem_of_singleton in Hin as ->. simpl.
    destruct (heal_choice_apply _ _ activeidx pos Hc Hpos)
      as (H1 & n & amt & price & Hn & Hp & He & Ha).
    split; [exact H1|]. exists n, amt, price, pos. auto.
Qed.


(** X24: when every creature has its [hp] within [0, maxhp], [evalstate]
    lies between minus the largest score of the second roster and the
    largest score of the first: the sum of its [maxhp] plus 30 per
    creature. *)
Theorem X24_evalstate_bounds (ash rocket : Agent) (bs : BattleState) :
  Forall hp_in_range (team ash) -> Forall hp_in_range (team rocket) ->
  - (sum_maxhp (team rocket) + 30 * Z.of_nat (length (team rocket)))
    <= Search.evalstate ash rocket bs
    <= sum_maxhp (team ash) + 30 * Z.of_nat (length (team ash)).
Proof.
  intros Fa Fb.
  pose proof (sumhp_bounds _ Fa). pose proof (sumhp_bounds _ Fb).
  pose proof (countalive_bounds (team ash)). pose proof (countalive_bounds (team rocket)).
  unfold Search.evalstate. lia.
Qed.

Lemma X24_evalstate_bounds_witness :
  - (300 + 30 * 3) <= Search.evalstate Samples.ash0 Samples.rocket0 Samples.bs0
    <= 300 + 30 * 3.
Proof.
  apply (X24_evalstate_bounds Samples.ash0 Samples.rocket0 Samples.bs0);
    repeat constructor; simpl; lia.
Defined.

(** ** What [decide_action] returns *)

Section Decision.

Import Search Phase3.

Lemma loop_bestact child prune maximizing acts : forall i bestval bestact alpha beta k v ba k',
  loop child prune maximizing i acts bestval bestact alpha beta k = Some (v, ba, k') ->
  ba = bestact \/ exists a, ba = Some a /\ a ∈ acts.
Proof.
  induction acts as [|act rest IH]; intros i bestval bestact alpha beta k v ba k'; simpl.
  - intros [= _ <- _]. left. reflexivity.
  - destruct (child i act alpha beta k) as [[val k1]|]; [|discriminate].
    assert (Hstep : forall bv (b : option BattleAction) al be,
              (b = bestact \/ b = Some act) ->
              (if prune && (be <=? al) then Some (bv, b, k1)
               else loop child prune maximizing (S i) rest bv b al be k1)
                = Some (v, ba, k') ->
              ba = bestact \/ exists a, ba = Some a /\ a ∈ act :: rest).
    { intros bv b al be Hb H.
      destruct (prune && (be <=? al)).
      - injection H as _ <- _. destruct Hb as [->| ->]; [left; reflexivity|].
        right. exists act. split; [reflexivity|left].
      - apply IH in H as [->|(a & -> & Ha)].
        + destruct Hb as [->| ->]; [left; reflexivity|].
          right. exists act. split; [reflexivity|left].
        + right. exists a. split; [reflexivity|right; exact Ha]. }
    destruct maximizing.
    + destruct (bestval <? val); apply Hstep; auto.
    + destruct (val <? bestval); apply Hstep; auto.
Qed.

End Decision.

(** X11: whatever the order [random.shuffle] leaves the candidates in, the
    action [decide_action] returns is one that [legalactions] generates for
    the caller's side at the position it is given, or it is the ATTACK that
    [decide_action] falls back on. *)
Theorem X11_decide_action_returns_generated_action
    (shuffle : list nat -> list BattleAction -> list BattleAction)
    (rng : Phase3.Rng) (prune meisash : bool) (me opp : Agent) (bs : BattleState)
    (depth k : nat) (act : BattleAction) (k' : nat) :
  (forall path acts, shuffle path acts ≡ₚ acts) ->
  Search.decide_action shuffle rng prune meisash me opp bs depth k = Some (act, k') ->
  act = ATTACK_act \/
  exists opppokemon acts,
    Py.index (team opp) (if meisash then rocketactive bs else ashactive bs)
      = Some opppokemon /\
    Search.legalactions me (if meisash then ashactive bs else rocketactive bs)
      opppokemon = Some acts /\
    act ∈ acts.
Proof.
  intros Hperm. unfold Search.decide_action, Search.root.
  destruct (Search.recurse _ _ _ _ _ _ _ _ _ _ _ _ _) as [[[v action] k1]|] eqn:E;
    [|discriminate].
  intros [= <- <-]. destruct depth as [|depth]; simpl in E.
  { injection E as _ <- _. left. reflexivity. }
  destruct (_ || _); [injection E as _ <- _; left; reflexivity|].
  destruct (Search.candidates _ _ _ _ _ _) as [actions|] eqn:Ec; [|discriminate].
  apply loop_bestact in E as [->|(a & -> & Ha)]; [left; reflexivity|].
  right. simpl. unfold Search.candidates in Ec.
  destruct meisash; simpl in Ec.
  - destruct (Py.index (team opp) (rocketactive bs)) as [o|]; [|discriminate].
    destruct (Search.legalactions me (ashactive bs) o) as [acts|] eqn:El; [|discriminate].
    injection Ec as <-. exists o, acts. split; [reflexivity|].
    split; [exact El|]. rewrite <- (Hperm [] acts). exact Ha.
  - destruct (Py.index (team opp) (ashactive bs)) as [o|]; [|discriminate].
    destruct (Search.legalactions me (rocketactive bs) o) as [acts|] eqn:El; [|discriminate].
    injection Ec as <-. exists o, acts. split; [reflexivity|].
    split; [exact El|]. rewrite <- (Hperm [] acts). exact Ha.
Qed.


(** ** What a turn changes *)

Section Turn.

Import Phase3 Search.

(** The two shapes of an attack block: nothing happens, or the target at
    the defender's active index takes the damage and one value is drawn. *)
Lemma attack_shape act att dfd aidx didx field defending rng k dfd' k' :
  attack act att dfd aidx didx field defending rng k = Some (dfd', k') ->
  (dfd' = dfd /\ k' = k) \/
  exists a d n,
    Py.index (team att) aidx = Some a /\ alive a = true /\
    Py.position (team dfd) didx = Some n /\ team dfd !! n = Some d /\
    alive d = true /\ k' = S k /\
    dfd' = set_team dfd
             (alter (fun p => takedamage p (attack_damage a d field (rng k) defending))
                n (team dfd)).
Proof.
  unfold attack. destruct (is_kind _ _); [|intros [= <- <-]; left; auto].
  destruct (Py.index (team att) aidx) as [a|] eqn:Ea; [|discriminate].
  destruct (alive a) eqn:Eal; [|intros [= <- <-]; left; auto].
  destruct (Py.index (team dfd) didx) as [d|] eqn:Ed; [|discriminate].
  destruct (alive d) eqn:Edl; [|intros [= <- <-]; left; auto].
  apply index_Some in Ed as (n & Hn & Hd).
  rewrite (update_at_position _ _ _ n Hn). intros [= <- <-].
  right. exists a, d, n. auto 10.
Qed.

Lemma stepbattle_simulation_stages ash rocket bs ashact rocketact rng k ash' rocket' bs' k' :
  stepbattle_simulation ash rocket bs ashact rocketact rng k
    = Some (ash', rocket', bs', k') ->
  exists ash1 ashidx rocket1 rocidx k1 ashidx' rocidx',
    apply ash ashact (ashactive bs) = Some (ash1, ashidx) /\
    apply rocket rocketact (rocketactive bs) = Some (rocket1, rocidx) /\
    attack ashact ash1 rocket1 ashidx rocidx (fieldtype bs)
      (is_kind (kind rocketact) DEFEND) rng k = Some (rocket', k1) /\
    attack rocketact rocket' ash1 rocidx ashidx (fieldtype bs)
      (is_kind (kind ashact) DEFEND) rng k1 = Some (ash', k') /\
    advance ash' ashidx = Some ashidx' /\
    advance rocket' rocidx = Some rocidx' /\
    bs' = mkBattleState (fieldtype bs) ashidx' rocidx'.
Proof.
  unfold stepbattle_simulation.
  destruct (apply ash _ _) as [[ash1 ashidx]|]; [|discriminate].
  destruct (apply rocket _ _) as [[rocket1 rocidx]|]; [|discriminate].
  destruct (attack ashact _ _ _ _ _ _ _ _) as [[rocket2 k1]|] eqn:E1; [|discriminate].
  destruct (attack rocketact _ _ _ _ _ _ _ _) as [[ash2 k2]|] eqn:E2; [|discriminate].
  destruct (advance ash2 _) as [i|] eqn:E3; [|discriminate].
  destruct (advance rocket2 _) as [j|] eqn:E4; [|discriminate].
  intros [= <- <- <- <-]. exists ash1, ashidx, rocket1, rocidx, k1, i, j.
  repeat split; assumption || reflexivity.
Qed.

Lemma Forall2_refl_on {A} (R : A -> A -> Prop) (t : list A) :
  (forall x, R x x) -> Forall2 R t t.
Proof. intros H. induction t; constructor; auto. Qed.

(** A roster changed at one position. *)
Lemma Forall2_alter_same {A} (R : A -> A -> Prop) (f : A -> A) n (t : list A) :
  (forall x, R x x) -> (forall x, R x (f x)) -> Forall2 R t (alter f n t).
Proof.
  intros Hrefl Hf. revert n. induction t as [|x t IH]; intros [|n]; simpl.
  - constructor.
  - constructor.
  - constructor; [apply Hf|apply Forall2_refl_on; exact Hrefl].
  - constructor; [apply Hrefl|apply IH].
Qed.

Lemma Forall2_trans_on {A} (R : A -> A -> Prop) (t1 t2 t3 : list A) :
  (forall x y z, R x y -> R y z -> R x z) ->
  Forall2 R t1 t2 -> Forall2 R t2 t3 -> Forall2 R t1 t3.
Proof.
  intros Ht H12. revert t3. induction H12; intros t3 H23; inversion H23; subst;
    constructor; eauto.
Qed.

Lemma same_stats_trans p q r : same_stats p q -> same_stats q r -> same_stats p r.
Proof. unfold same_stats. intros (?&?&?&?&?) (?&?&?&?&?). repeat split; congruence. Qed.

Lemma same_stats_takedamage p d : same_stats p (takedamage p d).
Proof.
  unfold takedamage. destruct (negb (alive p)); [apply same_stats_refl|].
  simpl. destruct (_ =? 0); repeat split.
Qed.

End Turn.


Section TurnInvariants.

Import Phase3 Search.

Lemma evolves_refl p : evolves p p.
Proof. split; [apply same_stats_refl|reflexivity]. Qed.

Lemma evolves_trans p q r : evolves p q -> evolves q r -> evolves p r.
Proof.
  intros [H1 D1] [H2 D2]. split; [eapply same_stats_trans; eauto|].
  intros Hp. specialize (D1 Hp). subst q. auto.
Qed.

Lemma evolves_takedamage p d : evolves p (takedamage p d).
Proof. split; [apply same_stats_takedamage|apply takedamage_dead]. Qed.

Lemma evolves_heal p a : evolves p (heal p a).
Proof. split; [apply same_stats_heal|apply heal_dead]. Qed.

Lemma apply_kept agent act idx agent' idx' :
  apply agent act idx = Some (agent', idx') -> side_kept agent act agent'.
Proof.
  intros H. apply apply_shape in H
    as [->|(s & n & amt & price & pos & Hk & Ha & _ & Hn & Hpos & _ & _ & ->)].
  - repeat split; [apply Forall2_refl_on, evolves_refl|left; reflexivity].
  - repeat split; simpl.
    + apply Forall2_alter_same; [apply evolves_refl|intros; apply evolves_heal].
    + right. exists s, n. auto.
Qed.

Lemma attack_frame act att dfd aidx didx field defending rng k dfd' k' :
  attack act att dfd aidx didx field defending rng k = Some (dfd', k') ->
  (aname dfd' = aname dfd /\ coins dfd' = coins dfd /\ fuel dfd' = fuel dfd /\
   Forall2 evolves (team dfd) (team dfd') /\ elixirs dfd' = elixirs dfd) /\
  (k <= k' <= S k)%nat.
Proof.
  intros H. apply attack_shape in H
    as [[-> ->]|(a & d & n & _ & _ & _ & _ & _ & -> & ->)].
  - split; [|lia]. repeat split. apply Forall2_refl_on, evolves_refl.
  - split; [|lia]. repeat split; simpl.
    apply Forall2_alter_same; [apply evolves_refl|intros; apply evolves_takedamage].
Qed.

Lemma side_kept_trans agent act agent1 agent2 :
  side_kept agent act agent1 ->
  (aname agent2 = aname agent1 /\ coins agent2 = coins agent1 /\
   fuel agent2 = fuel agent1 /\ Forall2 evolves (team agent1) (team agent2) /\
   elixirs agent2 = elixirs agent1) ->
  side_kept agent act agent2.
Proof.
  intros (Hn & Hc & Hf & Ht & He) (Hn' & Hc' & Hf' & Ht' & He').
  repeat split; try congruence.
  - eapply Forall2_trans_on; [apply evolves_trans| |]; eauto.
  - rewrite He'. exact He.
Qed.

End TurnInvariants.

(** X12: a turn of [stepbattle_simulation] keeps the books: on both sides
    the name, the coins and the fuel are the same, the roster holds the
    same creatures with the same name, type and stats, a creature that had
    fainted is unchanged, and the elixirs are the same, or one less of the
    tier of the side's HEAL; the field type is the same, and at most two
    random values are drawn. *)
Theorem X12_turn_keeps_the_books
    (ash rocket : Agent) (bs : BattleState) (ashact rocketact : BattleAction)
    (rng : Phase3.Rng) (k : nat) (ash' rocket' : Agent) (bs' : BattleState) (k' : nat) :
  Phase3.stepbattle_simulation ash rocket bs ashact rocketact rng k
    = Some (ash', rocket', bs', k') ->
  side_kept ash ashact ash' /\ side_kept rocket rocketact rocket' /\
  fieldtype bs' = fieldtype bs /\ (k <= k' <= k + 2)%nat.
Proof.
  intros H. apply stepbattle_simulation_stages in H
    as (ash1 & ashidx & rocket1 & rocidx & k1 & i & j & Ha & Hr & H1 & H2 & _ & _ & ->).
  apply apply_kept in Ha, Hr.
  apply attack_frame in H1 as [K1 L1]. apply attack_frame in H2 as [K2 L2].
  split; [eapply side_kept_trans; eauto|].
  split; [eapply side_kept_trans; eauto|].
  split; [reflexivity|lia].
Qed.


Section Faints.

Import Phase3 Search.

Lemma countalive_alter (f : Pokemon -> Pokemon) n t x :
  t !! n = Some x ->
  countalive (alter f n t)
    = countalive t - (if alive x then 1 else 0) + (if alive (f x) then 1 else 0).
Proof.
  unfold countalive.
  revert n. induction t as [|y t IH]; intros [|n]; simpl; try discriminate.
  - intros [= ->]. lia.
  - intros H. change (list_alter f n t) with (alter f n t). rewrite (IH n H). lia.
Qed.

Lemma apply_countalive agent act idx agent' idx' :
  apply agent act idx = Some (agent', idx') ->
  countalive (team agent') = countalive (team agent).
Proof.
  intros H. apply apply_shape in H
    as [->|(s & n & amt & price & pos & _ & _ & _ & _ & _ & _ & Hp & ->)];
    [reflexivity|]. simpl.
  destruct (lookup_lt_is_Some_2 (team agent) pos) as [x Ex];
    [eapply position_lt; eauto|].
  rewrite (countalive_alter _ _ _ x Ex), heal_alive. lia.
Qed.

(** An attack block either leaves the defender's roster as it is, or hits the
    active creature, which faints or not. *)
Lemma attack_countalive act att dfd aidx didx field defending rng k dfd' k' :
  attack act att dfd aidx didx field defending rng k = Some (dfd', k') ->
  dfd' = dfd \/
  (countalive (team dfd') = countalive (team dfd) /\
   exists d, Py.index (team dfd') didx = Some d /\ alive d = true) \/
  (countalive (team dfd') = countalive (team dfd) - 1 /\
   exists d, Py.index (team dfd') didx = Some d /\ alive d = false).
Proof.
  intros H. apply attack_shape in H
    as [[-> ->]|(a & d & n & _ & _ & Hn & Hd & Hal & -> & ->)]; [left; reflexivity|].
  right. simpl. rewrite (countalive_alter _ _ _ d Hd), Hal.
  assert (Hi : Py.index (alter (fun p => takedamage p
                  (attack_damage a d field (rng k) defending)) n (team dfd)) didx
               = Some (takedamage d (attack_damage a d field (rng k) defending))).
  { rewrite (index_alter _ _ _ n Hn).
    replace (Py.index (team dfd) didx) with (Some d); [reflexivity|].
    symmetry. apply index_Some. eauto. }
  destruct (alive (takedamage d _)) eqn:E.
  - left. split; [lia|]. eauto.
  - right. split; [lia|]. eauto.
Qed.

Lemma attack_needs_attacker act att dfd aidx didx field defending rng k dfd' k' a :
  attack act att dfd aidx didx field defending rng k = Some (dfd', k') ->
  Py.index (team att) aidx = Some a -> alive a = false ->
  dfd' = dfd /\ k' = k.
Proof.
  unfold attack. intros H Ha Hal. rewrite Ha, Hal in H.
  destruct (is_kind _ _); injection H as <- <-; auto.
Qed.

End Faints.

(** X13: in one turn of [stepbattle_simulation] no creature comes back and
    at most one creature faints: on each side the number of living
    creatures does not grow, and over both sides it drops by at most
    one. *)
Theorem X13_at_most_one_faint_per_turn
    (ash rocket : Agent) (bs : BattleState) (ashact rocketact : BattleAction)
    (rng : Phase3.Rng) (k : nat) (ash' rocket' : Agent) (bs' : BattleState) (k' : nat) :
  Phase3.stepbattle_simulation ash rocket bs ashact rocketact rng k
    = Some (ash', rocket', bs', k') ->
  Search.countalive (team ash') <= Search.countalive (team ash) /\
  Search.countalive (team rocket') <= Search.countalive (team rocket) /\
  Search.countalive (team ash) + Search.countalive (team rocket) - 1
    <= Search.countalive (team ash') + Search.countalive (team rocket').
Proof.
  intros H. apply stepbattle_simulation_stages in H
    as (ash1 & ashidx & rocket1 & rocidx & k1 & i & j & Ha & Hr & H1 & H2 & _ & _ & _).
  apply apply_countalive in Ha, Hr. rewrite <- Ha, <- Hr.
  pose proof (attack_countalive _ _ _ _ _ _ _ _ _ _ _ H2) as C2.
  apply attack_countalive in H1 as [->|[(E1 & _)|(E1 & d & Hd & Hal)]].
  - destruct C2 as [->|[(E2 & _)|(E2 & _)]]; lia.
  - destruct C2 as [->|[(E2 & _)|(E2 & _)]]; lia.
  - destruct (attack_needs_attacker _ _ _ _ _ _ _ _ _ _ _ d H2 Hd Hal) as [-> _]. lia.
Qed.

Section ActiveOnly.

Import Phase3 Search.

Lemma apply_elsewhere agent act idx agent' idx' :
  apply agent act idx = Some (agent', idx') ->
  length (team agent') = length (team agent) /\
  forall n, Py.position (team agent) idx' <> Some n ->
            team agent' !! n = team agent !! n.
Proof.
  intros H. apply apply_shape in H
    as [->|(s & n & amt & price & pos & _ & _ & -> & _ & _ & _ & Hp & ->)];
    [auto|]. simpl. split; [apply length_alter|].
  intros m Hm. apply list_lookup_alter_ne. congruence.
Qed.

Lemma attack_elsewhere act att dfd aidx didx field defending rng k dfd' k' :
  attack act att dfd aidx didx field defending rng k = Some (dfd', k') ->
  length (team dfd') = length (team dfd) /\
  forall n, Py.position (team dfd) didx <> Some n ->
            team dfd' !! n = team dfd !! n.
Proof.
  intros H. apply attack_shape in H
    as [[-> ->]|(a & d & n & _ & _ & Hn & _ & _ & -> & ->)]; [auto|].
  simpl. split; [apply length_alter|].
  intros m Hm. apply list_lookup_alter_ne. congruence.
Qed.

End ActiveOnly.

(** X14: a turn of [stepbattle_simulation] changes no creature but the two
    that are active once the sub-actions are done: on each side, a creature
    at another position than the index the side's SWAP, if any, leaves
    active is the same after the turn. *)
Theorem X14_turn_changes_active_creatures_only
    (ash rocket : Agent) (bs : BattleState) (ashact rocketact : BattleAction)
    (rng : Phase3.Rng) (k : nat) (ash' rocket' : Agent) (bs' : BattleState) (k' : nat)
    (ash1 rocket1 : Agent) (ashidx rocidx : Z) :
  Phase3.apply ash ashact (ashactive bs) = Some (ash1, ashidx) ->
  Phase3.apply rocket rocketact (rocketactive bs) = Some (rocket1, rocidx) ->
  Phase3.stepbattle_simulation ash rocket bs ashact rocketact rng k
    = Some (ash', rocket', bs', k') ->
  (forall n, Py.position (team ash) ashidx <> Some n ->
             team ash' !! n = team ash !! n) /\
  (forall n, Py.position (team rocket) rocidx <> Some n ->
             team rocket' !! n = team rocket !! n).
Proof.
  intros Ha Hr H. apply stepbattle_simulation_stages in H
    as (ash1' & ashidx' & rocket1' & rocidx' & k1 & i & j & Ha' & Hr' & H1 & H2 & _).
  rewrite Ha in Ha'. rewrite Hr in Hr'.
  injection Ha' as <- <-. injection Hr' as <- <-.
  apply apply_elsewhere in Ha as [La Ea], Hr as [Lr Er].
  apply attack_elsewhere in H1 as [L1 E1], H2 as [L2 E2].
  split; intros n Hn.
  - rewrite E2, Ea; [reflexivity|exact Hn|].
    rewrite (position_length (team ash)) by (symmetry; exact La). exact Hn.
  - rewrite E1, Er; [reflexivity|exact Hn|].
    rewrite (position_length (team rocket)) by (symmetry; exact Lr). exact Hn.
Qed.

Section Health2.

Import Phase3 Search.

Lemma apply_wf agent act idx agent' idx' :
  apply agent act idx = Some (agent', idx') ->
  Forall wf_pokemon (team agent) -> Forall wf_pokemon (team agent').
Proof.
  intros H Hwf. apply apply_shape in H
    as [->|(s & n & amt & price & pos & _ & _ & _ & _ & _ & He & _ & ->)];
    [exact Hwf|]. simpl.
  apply Forall_alter; [exact Hwf|]. intros p _ Hp.
  apply heal_wf; [|exact Hp]. eapply ELIXIRS_heal_nonneg; eauto.
Qed.

Lemma attack_wf act att dfd aidx didx field defending rng k dfd' k' :
  (0 <= rng k)%Q ->
  attack act att dfd aidx didx field defending rng k = Some (dfd', k') ->
  Forall wf_pokemon (team dfd) -> Forall wf_pokemon (team dfd').
Proof.
  intros Hr H Hwf. apply attack_shape in H
    as [[-> ->]|(a & d & n & _ & _ & Hn & _ & _ & -> & ->)]; [exact Hwf|].
  simpl. apply Forall_alter; [exact Hwf|]. intros p _ Hp.
  apply takedamage_wf; [|exact Hp]. apply attack_damage_nonneg. exact Hr.
Qed.

End Health2.

(** X15: a turn of [stepbattle_simulation] keeps the data-model invariant
    of the creatures when the random factors are not negative: if on both
    rosters every creature has [0 <= hp <= maxhp] and is not alive exactly at
    [hp = 0], the same holds after the turn. *)
Theorem X15_turn_keeps_health_invariant
    (ash rocket : Agent) (bs : BattleState) (ashact rocketact : BattleAction)
    (rng : Phase3.Rng) (k : nat) (ash' rocket' : Agent) (bs' : BattleState) (k' : nat) :
  (forall j, (0 <= rng j)%Q) ->
  Forall wf_pokemon (team ash) -> Forall wf_pokemon (team rocket) ->
  Phase3.stepbattle_simulation ash rocket bs ashact rocketact rng k
    = Some (ash', rocket', bs', k') ->
  Forall wf_pokemon (team ash') /\ Forall wf_pokemon (team rocket').
Proof.
  intros Hrng Wa Wr H. apply stepbattle_simulation_stages in H
    as (ash1 & ashidx & rocket1 & rocidx & k1 & i & j & Ha & Hr & H1 & H2 & _).
  split.
  - eapply attack_wf; [apply Hrng|exact H2|]. eapply apply_wf; eauto.
  - eapply attack_wf; [apply Hrng|exact H1|]. eapply apply_wf; eauto.
Qed.


Section Exchange.

Import Phase3 Search.


End Exchange.


Section DamageBounds.

Import Phase3.
Local Open Scope Q_scope.

Lemma round_ge (x : Q) (z : Z) : inject_Z z <= x -> (z <= Py.round x)%Z.
Proof.
  intros Hx. unfold Py.round.
  assert ((z <= Qfloor x)%Z).
  { rewrite <- (Qfloor_Z z). apply Qfloor_resp_le. exact Hx. }
  destruct (_ ?= _); [destruct (Z.even _)| |]; lia.
Qed.

Lemma round_le (x : Q) (z : Z) : x < inject_Z z -> (Py.round x <= z)%Z.
Proof.
  intros Hx. unfold Py.round.
  assert ((Qfloor x < z)%Z).
  { rewrite Zlt_Qlt. eapply Qle_lt_trans; [apply Qfloor_le|exact Hx]. }
  destruct (_ ?= _); [destruct (Z.even _)| |]; lia.
Qed.

End DamageBounds.

(** X17: with a random factor between 0.8 and 1.2, as [random.uniform]
    draws it, [computedamage] is at least 4 and at most twice the base
    damage [max(5, atk - dfn // 2)]: a hit always costs hp. *)
Theorem X17_computedamage_bounds
    (attacker defender : Pokemon) (fieldtype : string) (r : Q) :
  (8 # 10 <= r)%Q -> (r <= 12 # 10)%Q ->
  4 <= Phase3.computedamage attacker defender fieldtype r
    <= 2 * Z.max 5 (atk attacker - dfn defender / 2).
Proof.
  intros Hr1 Hr2. unfold Phase3.computedamage.
  set (base := Z.max 5 (atk attacker - dfn defender / 2)).
  assert (Hb : (5 <= inject_Z base)%Q).
  { change 5%Q with (inject_Z 5). rewrite <- Zle_Qle. unfold base. lia. }
  assert (Hlo : ((8 # 10) * inject_Z base <= inject_Z base * r)%Q).
  { rewrite (Qmult_comm (inject_Z base) r). apply Qmult_le_compat_r; lra. }
  assert (Hhi : (inject_Z base * r <= (12 # 10) * inject_Z base)%Q).
  { rewrite (Qmult_comm (inject_Z base) r). apply Qmult_le_compat_r; lra. }
  assert (H2 : (inject_Z (2 * base) == 2 * inject_Z base)%Q).
  { rewrite inject_Z_mult. reflexivity. }
  assert (Hadv : forall adv, TYPEADV !! (ptype attacker, ptype defender) = Some adv ->
                             adv = (13 # 10)%Q) by (intros; eapply TYPEADV_value; eauto).
  split.
  - apply round_ge. change (inject_Z 4) with 4%Q.
    destruct (TYPEADV !! _) as [adv|]; [rewrite (Hadv adv eq_refl)|];
      destruct (String.eqb _ _); unfold FIELDBOOST; lra.
  - apply round_le. rewrite H2.
    destruct (TYPEADV !! _) as [adv|]; [rewrite (Hadv adv eq_refl)|];
      destruct (String.eqb _ _); unfold FIELDBOOST; lra.
Qed.


(** ** A* when the goal cannot be reached *)

Section AstarUnreachable.

Import Astar.

Variable choose : nat -> gset (Z * Z) -> gmap (Z * Z) Z -> Z * Z.
Hypothesis choose_min : chooses_min choose.

Variable grid : list (list Z).
Variables start goal : Z * Z.
Hypothesis grid_shape : well_shaped grid.
Hypothesis start_inbounds : inbounds start = true.

Lemma reach_path n k : reach grid start n k -> exists p, is_path grid p start n.
Proof.
  induction 1 as [|n k n' _ [p Hp] Hm].
  - exists [start]. repeat split.
  - exists (p ++ [n']). eapply is_path_snoc; eauto.
Qed.

Lemma loop_unreachable fuel : forall i c st,
  Inv grid start goal c [] st ->
  (forall k, ~ reach grid start goal k) ->
  potential st + GRIDW * GRIDH < Z.of_nat fuel ->
  loop choose grid goal fuel i st = Returned [].
Proof.
  induction fuel as [|fuel IH]; intros i c st HI Hno Hfuel.
  - pose proof (potential_bounds _ _ _ _ _ _ HI).
    unfold GRIDW, GRIDH in *. lia.
  - cbn [loop].
    destruct (decide (openset st = ∅)) as [E|Hopen]; [reflexivity|].
    destruct (choose_min i (openset st) (f st) Hopen) as [Hin Hmin].
    set (current := choose i (openset st) (f st)) in *.
    destruct (inv_open _ _ _ _ _ _ HI current Hin) as [vc Hvc].
    pose proof (potential_bounds _ _ _ _ _ _ HI) as Hpot.
    destruct (decide (current = goal)) as [Hcg|Hcg].
    { exfalso. apply (Hno vc). rewrite <- Hcg. eapply inv_reach; eauto. }
    pose proof (inv_pop _ _ _ _ _ (inv_any_current grid start goal c current st HI) Hcg)
      as HI1.
    pose proof (pop_potential _ _ _ _ _ _
                  (inv_any_current grid start goal c current st HI) Hin) as Hdec.
    destruct (inv_relax_all grid start goal grid_shape start_inbounds current DIRS
                _ vc HI1) as (st2 & E2 & HI2 & _); [auto|exact Hvc|].
    pose proof (relax_all_potential grid start goal grid_shape start_inbounds
                  current DIRS _ st2 vc HI1 ltac:(auto) Hvc E2) as Hle.
    rewrite E2. apply (IH (S i) current st2 HI2 Hno). lia.
Qed.

End AstarUnreachable.

(** X18: on a grid of [GRIDH] rows of [GRIDW] cells and from an in-bounds
    start, [astar] returns the empty path exactly when no 4-connected path
    of unblocked in-bounds cells leads from [start] to [goal]; in that case
    it returns, it does not raise, whatever the iteration order of the open
    set. *)
Theorem X18_astar_empty_iff_unreachable
    (choose : nat -> gset (Z * Z) -> gmap (Z * Z) Z -> Z * Z)
    (grid : list (list Z)) (start goal : Z * Z) (fuel : nat) :
  Astar.chooses_min choose ->
  Astar.well_shaped grid ->
  Astar.inbounds start = true ->
  (Astar.enough_fuel <= fuel)%nat ->
  (Astar.astar choose grid goal fuel start = Astar.Returned []
   <-> ~ exists p, Astar.is_path grid p start goal).
Proof.
  intros Hchoose Hshape Hstart Hfuel. unfold Astar.astar.
  destruct (decide (start = goal)) as [<-|Hne].
  { split; [discriminate|]. intros H. exfalso. apply H. exists [start]. repeat split. }
  pose proof (inv_initial grid start goal Hstart start Hne) as HI.
  assert (Hpot : Astar.potential
                   (Astar.mkState {[ start ]} ∅ {[ start := 0 ]}
                      {[ start := Astar.manhattan start goal ]})
                 + GRIDW * GRIDH < Z.of_nat fuel).
  { pose proof (potential_bounds _ _ _ _ _ _ HI) as Hb.
    unfold Astar.enough_fuel in Hfuel. unfold GRIDW, GRIDH in *. lia. }
  split.
  - intros Hrun [p Hp].
    destruct (loop_correct choose Hchoose grid start goal Hshape Hstart fuel 0 start
                _ HI) as (path & Hrun' & (Hh & _) & _); [|exact Hpot|].
    + eexists. eapply is_path_reach. exact Hp.
    + rewrite Hrun in Hrun'. injection Hrun' as <-. discriminate.
  - intros Hno.
    apply (loop_unreachable choose Hchoose grid start goal Hshape Hstart fuel 0 start);
      [exact HI| |exact Hpot].
    intros k Hk. apply Hno. eapply reach_path. exact Hk.
Qed.


(** ** The grid of the catching phase *)

Section Obstacles.

Import Astar Main.

Variable density : Q.
Variable rnd : nat -> Q.

(** [g1] is [g0] with a 1 written to the cells of [P]. *)
Definition marked (P : Z -> Z -> Prop) (g0 g1 : list (list Z)) : Prop :=
  well_shaped g1 /\
  forall x y, 0 <= x -> 0 <= y ->
    (P x y /\ cell g1 x y = Some 1) \/ (~ P x y /\ cell g1 x y = cell g0 x y).

Lemma marked_none g0 : well_shaped g0 -> marked (fun _ _ => False) g0 g0.
Proof. intros H. split; [exact H|]. intros x y _ _. right. split; [tauto|reflexivity]. Qed.

Lemma marked_chain (P Q P' : Z -> Z -> Prop) g0 g1 g2 :
  marked P g0 g1 -> marked Q g1 g2 ->
  (forall x y, 0 <= x -> 0 <= y -> (P' x y <-> P x y \/ Q x y)) ->
  marked P' g0 g2.
Proof.
  intros [_ H1] [W2 H2] HP. split; [exact W2|]. intros x y Hx Hy.
  specialize (HP x y Hx Hy).
  destruct (H2 x y Hx Hy) as [[HQ E2]|[HQ E2]]; [left; tauto|].
  destruct (H1 x y Hx Hy) as [[HP1 E1]|[HP1 E1]].
  - left. split; [tauto|congruence].
  - right. split; [tauto|congruence].
Qed.

Lemma set_cell_marked g0 x y :
  well_shaped g0 -> 0 <= x < GRIDW -> 0 <= y < GRIDH ->
  exists g1, set_cell g0 x y 1 = Some g1 /\
             marked (fun x' y' => x' = x /\ y' = y) g0 g1.
Proof.
  intros [Hl Hrows] Hx Hy. unfold set_cell.
  destruct (lookup_lt_is_Some_2 g0 (Z.to_nat y)) as [row Hrow]; [lia|].
  rewrite Hrow.
  assert (Hlen : Z.of_nat (length row) = GRIDW).
  { rewrite Forall_forall in Hrows. apply Hrows.
    eapply list_elem_of_lookup_2; eauto. }
  replace (x <? Z.of_nat (length row)) with true by (symmetry; apply Z.ltb_lt; lia).
  eexists. split; [reflexivity|]. split.
  - split; [rewrite length_insert; exact Hl|].
    apply Forall_insert; [exact Hrows|]. rewrite length_insert. exact Hlen.
  - intros x' y' Hx' Hy'. unfold cell.
    destruct (decide (y' = y)) as [->|Hne].
    + rewrite list_lookup_insert_eq by (apply lookup_lt_is_Some; eauto).
      rewrite Hrow. destruct (decide (x' = x)) as [->|Hnx].
      * left. split; [auto|]. apply list_lookup_insert_eq. lia.
      * right. split; [tauto|]. apply list_lookup_insert_ne. lia.
    + right. split; [tauto|]. rewrite list_lookup_insert_ne by lia. reflexivity.
Qed.

Lemma genobstacle_marked r g0 x y :
  well_shaped g0 -> 0 <= x < GRIDW -> 0 <= y < GRIDH ->
  exists g1, genobstacle density r g0 x y = Some g1 /\
    marked (fun x' y' => x' = x /\ y' = y /\ interior x y = true /\ (r < density)%Q)
      g0 g1.
Proof.
  intros Hw Hx Hy. unfold genobstacle.
  destruct (Qlt_le_dec r density) as [Hr|Hr].
  - fold (interior x y). destruct (interior x y) eqn:Ei.
    + destruct (set_cell_marked g0 x y Hw Hx Hy) as (g1 & -> & Hm).
      exists g1. split; [reflexivity|].
      eapply marked_chain; [apply marked_none; exact Hw|exact Hm|].
      intros x' y' _ _. tauto.
    + exists g0. split; [reflexivity|].
      eapply marked_chain; [apply marked_none; exact Hw|apply marked_none; exact Hw|].
      intros x' y' _ _. split; [intros (_ & _ & H & _); discriminate|tauto].
  - exists g0. split; [reflexivity|].
    eapply marked_chain; [apply marked_none; exact Hw|apply marked_none; exact Hw|].
    intros x' y' _ _. split; [intros (_ & _ & _ & H)|tauto].
    exfalso. apply (Qlt_not_le _ _ H). exact Hr.
Qed.

Lemma genrow_marked y n : forall a k g0,
  well_shaped g0 -> 0 <= y < GRIDH -> 0 <= a -> a + Z.of_nat n <= GRIDW ->
  exists g1, genrow density rnd y (seqZ a (Z.of_nat n)) k g0 = Some (g1, (k + n)%nat) /\
    marked (fun x' y' => y' = y /\ a <= x' < a + Z.of_nat n /\ interior x' y = true /\
                         (rnd (k + Z.to_nat (x' - a)) < density)%Q) g0 g1.
Proof.
  induction n as [|n IH]; intros a k g0 Hw Hy Ha Hn.
  - exists g0. simpl. rewrite Nat.add_0_r. split; [reflexivity|].
    eapply marked_chain; [apply marked_none; exact Hw|apply marked_none; exact Hw|].
    intros x' y' _ _. split; [lia|tauto].
  - rewrite Nat2Z.inj_succ, seqZ_cons by lia. cbn [genrow].
    destruct (genobstacle_marked (rnd k) g0 a y Hw ltac:(lia) Hy) as (g1 & -> & M1).
    replace (Z.pred (Z.succ (Z.of_nat n))) with (Z.of_nat n) by lia.
    destruct (IH (Z.succ a) (S k) g1 (proj1 M1) Hy ltac:(lia) ltac:(lia))
      as (g2 & E2 & M2).
    exists g2. split; [rewrite E2; f_equal; f_equal; lia|].
    eapply marked_chain; [exact M1|exact M2|].
    intros x' y' Hx' Hy'. split.
    + intros (-> & Hr & Hi & Hd). destruct (decide (x' = a)) as [->|Hne].
      * left. replace (a - a) with 0 in Hd by lia.
        rewrite Nat.add_0_r in Hd. auto.
      * right. split; [reflexivity|]. split; [lia|]. split; [exact Hi|].
        replace (S k + Z.to_nat (x' - Z.succ a))%nat
          with (k + Z.to_nat (x' - a))%nat by lia. exact Hd.
    + intros [(-> & -> & Hi & Hd)|(-> & Hr & Hi & Hd)].
      * split; [reflexivity|]. split; [lia|]. split; [exact Hi|].
        replace (a - a) with 0 by lia. rewrite Nat.add_0_r. exact Hd.
      * split; [reflexivity|]. split; [lia|]. split; [exact Hi|].
        replace (k + Z.to_nat (x' - a))%nat
          with (S k + Z.to_nat (x' - Z.succ a))%nat by lia. exact Hd.
Qed.

Lemma genrows_marked m : forall b k g0,
  well_shaped g0 -> 0 <= b -> b + Z.of_nat m <= GRIDH ->
  exists g1 k1, genrows density rnd (seqZ b (Z.of_nat m)) k g0 = Some (g1, k1) /\
    marked (fun x' y' => b <= y' < b + Z.of_nat m /\ 0 <= x' < GRIDW /\
                         interior x' y' = true /\
                         (rnd (k + Z.to_nat ((y' - b) * GRIDW + x')) < density)%Q)
      g0 g1.
Proof.
  induction m as [|m IH]; intros b k g0 Hw Hb Hm.
  - exists g0, k. simpl. split; [reflexivity|].
    eapply marked_chain; [apply marked_none; exact Hw|apply marked_none; exact Hw|].
    intros x' y' _ _. split; [lia|tauto].
  - rewrite Nat2Z.inj_succ, seqZ_cons by lia. cbn [genrows].
    destruct (genrow_marked b (Z.to_nat GRIDW) 0 k g0 Hw ltac:(lia) ltac:(lia)
                ltac:(unfold GRIDW; lia)) as (g1 & E1 & M1).
    rewrite Z2Nat.id in E1 by (unfold GRIDW; lia). rewrite E1.
    replace (Z.pred (Z.succ (Z.of_nat m))) with (Z.of_nat m) by lia.
    destruct (IH (Z.succ b) (k + Z.to_nat GRIDW)%nat g1 (proj1 M1) ltac:(lia) ltac:(lia))
      as (g2 & k2 & E2 & M2).
    exists g2, k2. split; [exact E2|].
    eapply marked_chain; [exact M1|exact M2|].
    intros x' y' Hx' Hy'. rewrite Z2Nat.id by (unfold GRIDW; lia).
    unfold GRIDW in *. split.
    + intros (Hr & Hx & Hi & Hd). destruct (decide (y' = b)) as [->|Hne].
      * left. split; [reflexivity|]. split; [lia|]. split; [exact Hi|].
        replace (k + Z.to_nat (x' - 0))%nat
          with (k + Z.to_nat ((b - b) * 24 + x'))%nat by lia. exact Hd.
      * right. split; [lia|]. split; [lia|]. split; [exact Hi|].
        replace (k + Z.to_nat 24 + Z.to_nat ((y' - Z.succ b) * 24 + x'))%nat
          with (k + Z.to_nat ((y' - b) * 24 + x'))%nat by lia. exact Hd.
    + intros [(-> & Hr & Hi & Hd)|(Hr & Hx & Hi & Hd)].
      * split; [lia|]. split; [lia|]. split; [exact Hi|].
        replace (k + Z.to_nat ((b - b) * 24 + x'))%nat
          with (k + Z.to_nat (x' - 0))%nat by lia. exact Hd.
      * split; [lia|]. split; [lia|]. split; [exact Hi|].
        replace (k + Z.to_nat ((y' - b) * 24 + x'))%nat
          with (k + Z.to_nat 24 + Z.to_nat ((y' - Z.succ b) * 24 + x'))%nat by lia.
        exact Hd.
Qed.

End Obstacles.


(** X20: on a grid of [GRIDH] rows of [GRIDW] cells, [genobstacles]
    returns a grid of the same shape in which a cell holds 1 if it is not on
    the border and its random value, the one of rank [y * GRIDW + x], is
    below the density, and is as before otherwise: border cells are never
    written, and no cell is cleared. *)
Theorem X20_genobstacles_marks_interior_cells
    (density : Q) (rnd : nat -> Q) (grid : list (list Z)) :
  Astar.well_shaped grid ->
  exists grid',
    Main.genobstacles density rnd grid = Some grid' /\
    Astar.well_shaped grid' /\
    forall x y, 0 <= x < GRIDW -> 0 <= y < GRIDH ->
      cell grid' x y = if obstacle_at density rnd x y then Some 1 else cell grid x y.
Proof.
  intros Hw. unfold Main.genobstacles.
  destruct (genrows_marked density rnd (Z.to_nat GRIDH) 0 0%nat grid Hw
              ltac:(lia) ltac:(unfold GRIDH; lia)) as (g1 & k1 & E & W1 & M).
  rewrite Z2Nat.id in E by (unfold GRIDH; lia). rewrite E.
  exists g1. split; [reflexivity|]. split; [exact W1|].
  intros x y Hx Hy. unfold obstacle_at.
  destruct (M x y ltac:(lia) ltac:(lia)) as [[(_ & _ & Hi & Hd) ->]|[Hn ->]].
  - rewrite Hi. simpl. rewrite Z.sub_0_r in Hd.
    destruct (Qlt_le_dec _ _) as [_|Hge]; [reflexivity|].
    exfalso. apply (Qlt_not_le _ _ Hd). exact Hge.
  - destruct (interior x y) eqn:Hi; [|reflexivity]. simpl.
    destruct (Qlt_le_dec _ _) as [Hd|_]; [|reflexivity].
    exfalso. apply Hn. rewrite Z2Nat.id by (unfold GRIDH; lia).
    rewrite Z.sub_0_r. simpl. auto.
Qed.

Lemma X20_genobstacles_marks_interior_cells_witness :
  exists grid',
    Main.genobstacles (8 # 100) Samples.rnd_alt
      Samples.open_field = Some grid' /\
    Astar.well_shaped grid' /\
    forall x y, 0 <= x < GRIDW -> 0 <= y < GRIDH ->
      cell grid' x y
      = if obstacle_at (8 # 100) Samples.rnd_alt x y
        then Some 1 else cell Samples.open_field x y.
Proof.
  apply X20_genobstacles_marks_interior_cells.
  split; [reflexivity|]. repeat constructor.
Defined.

Section FreshGrid.

Import Astar Main.

Lemma fresh_grid_shaped : well_shaped fresh_grid.
Proof. split; [reflexivity|]. repeat constructor. Qed.

Lemma cell_fresh_grid x y :
  0 <= x < GRIDW -> 0 <= y < GRIDH -> cell fresh_grid x y = Some 0.
Proof.
  intros Hx Hy. unfold cell, fresh_grid.
  rewrite lookup_replicate_2 by (unfold GRIDH in *; lia).
  apply lookup_replicate_2. unfold GRIDW in *; lia.
Qed.

Lemma blocked_cell grid c : blocked grid c = (fun v => v =? 1) <$> cell grid c.1 c.2.
Proof.
  unfold blocked, cell. destruct (grid !! Z.to_nat c.2) as [row|]; [|reflexivity].
  destruct (row !! Z.to_nat c.1); reflexivity.
Qed.

End FreshGrid.

(** X21: whatever the random values, the grid [initgame] builds is a
    grid of [GRIDH] rows of [GRIDW] cells, it holds 1 at the cells of the
    interior whose random value is below 0.08 and 0 elsewhere, and so none
    of its border cells is blocked. *)
Theorem X21_initgame_grid_has_free_border (rnd : nat -> Q) :
  exists grid,
    Main.initgame_grid rnd = Some grid /\
    Astar.well_shaped grid /\
    (forall x y, 0 <= x < GRIDW -> 0 <= y < GRIDH ->
       cell grid x y = Some (if obstacle_at (8 # 100) rnd x y then 1 else 0)) /\
    (forall c, Astar.inbounds c = true ->
       c.1 = 0 \/ c.1 = GRIDW - 1 \/ c.2 = 0 \/ c.2 = GRIDH - 1 ->
       Astar.blocked grid c = Some false).
Proof.
  unfold Main.initgame_grid.
  destruct (genrows_marked (8 # 100) rnd (Z.to_nat GRIDH) 0 0%nat Main.fresh_grid
              fresh_grid_shaped ltac:(lia) ltac:(unfold GRIDH; lia))
    as (g1 & k1 & E & W1 & M).
  assert (Hcell : forall x y, 0 <= x < GRIDW -> 0 <= y < GRIDH ->
            cell g1 x y = Some (if obstacle_at (8 # 100) rnd x y then 1 else 0)).
  { intros x y Hx Hy. unfold obstacle_at.
    destruct (M x y ltac:(lia) ltac:(lia)) as [[(_ & _ & Hi & Hd) ->]|[Hn ->]].
    - rewrite Hi. simpl. rewrite Z.sub_0_r in Hd.
      destruct (Qlt_le_dec _ _) as [_|Hge]; [reflexivity|].
      exfalso. apply (Qlt_not_le _ _ Hd). exact Hge.
    - rewrite cell_fresh_grid by assumption.
      destruct (interior x y) eqn:Hi; [|reflexivity]. simpl.
      destruct (Qlt_le_dec _ _) as [Hd|_]; [|reflexivity].
      exfalso. apply Hn. rewrite Z2Nat.id by (unfold GRIDH; lia).
      rewrite Z.sub_0_r. simpl. auto. }
  unfold Main.genobstacles. rewrite Z2Nat.id in E by (unfold GRIDH; lia). rewrite E.
  exists g1. split; [reflexivity|]. split; [exact W1|]. split; [exact Hcell|].
  intros [x y] Hin Hborder. simpl in Hborder.
  unfold Astar.inbounds in Hin. simpl in Hin.
  apply andb_prop in Hin as [Hin H4]. apply andb_prop in Hin as [Hin H3].
  apply andb_prop in Hin as [H1 H2].
  apply Z.leb_le in H1, H3. apply Z.ltb_lt in H2, H4.
  rewrite blocked_cell. simpl. rewrite Hcell by lia.
  replace (obstacle_at (8 # 100) rnd x y) with false; [reflexivity|].
  symmetry. unfold obstacle_at, interior.
  destruct Hborder as [ -> | [ -> | [ -> | -> ] ] ]; simpl;
    rewrite ?andb_false_r; reflexivity.
Qed.

Section AstarReturns.

Import Astar.

Variable choose : nat -> gset (Z * Z) -> gmap (Z * Z) Z -> Z * Z.
Hypothesis choose_min : chooses_min choose.

Variable grid : list (list Z).
Variables start goal : Z * Z.
Hypothesis grid_shape : well_shaped grid.
Hypothesis start_inbounds : inbounds start = true.

Lemma loop_returns_path fuel : forall i c st,
  Inv grid start goal c [] st ->
  potential st + GRIDW * GRIDH < Z.of_nat fuel ->
  exists path, loop choose grid goal fuel i st = Returned path.
Proof.
  induction fuel as [|fuel IH]; intros i c st HI Hfuel.
  - pose proof (potential_bounds _ _ _ _ _ _ HI).
    unfold GRIDW, GRIDH in *. lia.
  - cbn [loop].
    destruct (decide (openset st = ∅)) as [E|Hopen]; [eauto|].
    destruct (choose_min i (openset st) (f st) Hopen) as [Hin Hmin].
    set (current := choose i (openset st) (f st)) in *.
    destruct (inv_open _ _ _ _ _ _ HI current Hin) as [vc Hvc].
    pose proof (inv_g_small _ _ _ _ _ _ _ _ HI Hvc) as Hsmall.
    pose proof (potential_bounds _ _ _ _ _ _ HI) as Hpot.
    destruct (decide (current = goal)) as [Hcg|Hcg].
    + rewrite Hcg in *.
      destruct (follow_path grid start goal c st fuel goal vc [goal] HI Hvc)
        as (tl & -> & _); [lia|]. eauto.
    + pose proof (inv_pop _ _ _ _ _ (inv_any_current grid start goal c current st HI) Hcg)
        as HI1.
      pose proof (pop_potential _ _ _ _ _ _
                    (inv_any_current grid start goal c current st HI) Hin) as Hdec.
      destruct (inv_relax_all grid start goal grid_shape start_inbounds current DIRS
                  _ vc HI1) as (st2 & E2 & HI2 & _); [auto|exact Hvc|].
      pose proof (relax_all_potential grid start goal grid_shape start_inbounds
                    current DIRS _ st2 vc HI1 ltac:(auto) Hvc E2) as Hle.
      rewrite E2. apply (IH (S i) current st2 HI2). lia.
Qed.

End AstarReturns.

(** X22: on a grid of [GRIDH] rows of [GRIDW] cells and from an in-bounds
    start, [astar] returns for every goal, blocked or out of bounds
    included: its loop ends, within [enough_fuel] iterations, and it reads
    no cell outside the grid. *)
Theorem X22_astar_returns_on_the_field
    (choose : nat -> gset (Z * Z) -> gmap (Z * Z) Z -> Z * Z)
    (grid : list (list Z)) (start goal : Z * Z) (fuel : nat) :
  Astar.chooses_min choose ->
  Astar.well_shaped grid ->
  Astar.inbounds start = true ->
  (Astar.enough_fuel <= fuel)%nat ->
  exists path, Astar.astar choose grid goal fuel start = Astar.Returned path.
Proof.
  intros Hchoose Hshape Hstart Hfuel. unfold Astar.astar.
  destruct (decide (start = goal)) as [<-|Hne]; [eauto|].
  pose proof (inv_initial grid start goal Hstart start Hne) as HI.
  apply (loop_returns_path choose Hchoose grid start goal Hshape Hstart fuel 0 start);
    [exact HI|].
  pose proof (potential_bounds _ _ _ _ _ _ HI) as Hb.
  unfold Astar.enough_fuel in Hfuel. unfold GRIDW, GRIDH in *. lia.
Qed.


(** ** Buying elixirs *)

Section Purchases.

Import Phase2.

Lemma ELIXIRS_items_map : list_to_map ELIXIRS_items = ELIXIRS.
Proof. reflexivity. Qed.

Lemma sorted_items : sorted_desc ratio ELIXIRS_items = Some ELIXIRS_items.
Proof. vm_compute. reflexivity. Qed.

(** The loop buys as many as the coins pay for. *)
Lemma buy_spec steps : forall name price coins e,
  0 < price -> (Z.to_nat (coins / price) <= steps)%nat ->
  buy steps name price coins e =
    Some (if price <=? coins then coins mod price else coins,
          if price <=? coins
          then <[name := default 0 (e !! name) + coins / price]> e
          else e).
Proof.
  induction steps as [|steps IH]; intros name price coins e Hp Hsteps.
  - simpl. destruct (price <=? coins) eqn:E; [|reflexivity].
    apply Z.leb_le in E.
    assert (1 <= coins / price) by (apply Z.div_le_lower_bound; lia). lia.
  - simpl. destruct (price <=? coins) eqn:E; [|reflexivity].
    apply Z.leb_le in E.
    assert (Hq : coins / price = (coins - price) / price + 1).
    { replace coins with ((coins - price) + 1 * price) at 1 by lia.
      rewrite Z.div_add by lia. reflexivity. }
    assert (Hm : coins mod price = (coins - price) mod price).
    { replace coins with ((coins - price) + 1 * price) at 1 by lia.
      apply Z.mod_add. lia. }
    destruct (coins - price <? price) eqn:E1.
    + apply Z.ltb_lt in E1.
      rewrite Hm, Z.mod_small by lia.
      rewrite Hq, Z.div_small by lia. reflexivity.
    + apply Z.ltb_ge in E1.
      assert (0 <= (coins - price) / price) by (apply Z.div_pos; lia).
      rewrite IH by lia.
      replace (price <=? coins - price) with true by (symmetry; apply Z.leb_le; lia).
      rewrite Hm. f_equal. f_equal.
      rewrite lookup_insert_eq. simpl. rewrite insert_insert_eq.
      f_equal. lia.
Qed.

End Purchases.

(** X19: [buylogic] spends the coins on Small elixirs only: it sets the
    three tiers of [ELIXIRS] to 0, buys [coins // 15] Small elixirs when the
    agent has 15 coins or more, and none otherwise, and leaves the rest of
    the coins; Medium and Large are never bought, and entries of other
    names, the agent's name, roster and fuel are kept.  The sort by heal
    amount per coin puts Small first, and what a Small elixir leaves does not
    pay for another tier. *)
Theorem X19_buylogic_buys_small_only (steps : nat) (agent : Agent) :
  (Z.to_nat (coins agent / 15) <= steps)%nat ->
  let n := if 15 <=? coins agent then coins agent / 15 else 0 in
  Phase2.buylogic steps agent
  = Phase2.Returned
      (mkAgent (aname agent) (team agent) (coins agent - 15 * n) (fuel agent)
         (<["Large"%string := 0]>
            (<["Medium"%string := 0]>
               (<["Small"%string := n]> (elixirs agent))))).
Proof.
  intros Hsteps n. unfold Phase2.buylogic. rewrite sorted_items.
  unfold Phase2.ELIXIRS_items. cbn [foldl fst snd Phase2.buy_all].
  rewrite buy_spec by lia.
  set (e0 := <["Large"%string := 0]> (<["Medium"%string := 0]>
               (<["Small"%string := 0]> (elixirs agent)))).
  assert (Hs : e0 !! "Small"%string = Some 0).
  { unfold e0. rewrite !lookup_insert_ne by discriminate. apply lookup_insert_eq. }
  assert (Hn : <["Small"%string := n]> e0
               = <["Large"%string := 0]> (<["Medium"%string := 0]>
                   (<["Small"%string := n]> (elixirs agent)))).
  { unfold e0.
    rewrite (insert_insert_ne _ "Small"%string "Large"%string) by discriminate.
    rewrite (insert_insert_ne _ "Small"%string "Medium"%string) by discriminate.
    rewrite insert_insert_eq. reflexivity. }
  pose proof (Z.mod_pos_bound (coins agent) 15 ltac:(lia)) as Hm.
  pose proof (Z.div_mod (coins agent) 15 ltac:(lia)) as Hd.
  revert Hn. unfold n. clear n. destruct (15 <=? coins agent) eqn:E; intros Hn.
  - rewrite Hs. simpl default. rewrite Z.add_0_l.
    assert (Hq : forall price, 15 < price ->
              coins agent mod 15 / price = 0) by (intros; apply Z.div_small; lia).
    rewrite buy_spec by (rewrite ?Hq; lia).
    replace (30 <=? coins agent mod 15) with false by (symmetry; apply Z.leb_gt; lia).
    rewrite buy_spec by (rewrite ?Hq; lia).
    replace (50 <=? coins agent mod 15) with false by (symmetry; apply Z.leb_gt; lia).
    rewrite Hn. f_equal. f_equal. lia.
  - apply Z.leb_gt in E.
    assert (Hq : forall price, 15 < price -> Z.to_nat (coins agent / price) = 0%nat).
    { intros price Hp. destruct (Z.le_gt_cases 0 (coins agent)).
      - rewrite Z.div_small by lia. reflexivity.
      - assert (coins agent / price < 0) by (apply Z.div_lt_upper_bound; lia). lia. }
    rewrite buy_spec by (rewrite ?Hq; lia).
    replace (30 <=? coins agent) with false by (symmetry; apply Z.leb_gt; lia).
    rewrite buy_spec by (rewrite ?Hq; lia).
    replace (50 <=? coins agent) with false by (symmetry; apply Z.leb_gt; lia).
    rewrite <- Hn. f_equal. f_equal; [lia|].
    apply map_eq. intros s. destruct (decide (s = "Small"%string)) as [->|Hne].
    + rewrite lookup_insert_eq. exact Hs.
    + rewrite lookup_insert_ne by congruence. reflexivity.
Qed.

Lemma X19_buylogic_buys_small_only_witness :
  Phase2.buylogic 10 (mkAgent "Ash" [] 100 45 ∅)
  = Phase2.Returned
      (mkAgent "Ash" [] 10 45
         (<["Large"%string := 0]>
            (<["Medium"%string := 0]> (<["Small"%string := 6]> ∅)))).
Proof.
  apply (X19_buylogic_buys_small_only 10 (mkAgent "Ash" [] 100 45 ∅)).
  vm_compute. lia.
Defined.


(** ** [cloneagent] over the store *)

Section DeepCopy.

Import Store.

Lemma mapM_get_cons x items h ps :
  mapM get_pokemon (x :: items) h = (h, Some ps) ->
  exists p ps', ps = p :: ps' /\ pokemons h !! x = Some p /\
                mapM get_pokemon items h = (h, Some ps').
Proof.
  cbn [mapM]. rewrite bind_run. unfold get_pokemon at 1.
  destruct (pokemons h !! x) as [p|]; [|discriminate].
  rewrite bind_run. pose proof (mapM_get_pure items h) as Hh.
  destruct (mapM get_pokemon items h) as [h1 [ps'|]]; cbn [fst] in Hh; subst h1;
    [|discriminate].
  intros [= <-]. eauto.
Qed.

(** The list comprehension of [cloneagent] makes objects of the same
    values, and touches no other table. *)
Lemma copies_values (copy : Pokemon -> Pokemon) items : forall h ps,
  mapM get_pokemon items h = (h, Some ps) ->
  exists h1 newitems,
    mapM (fun pl => bind (get_pokemon pl) (fun p => new_pokemon (copy p))) items h
      = (h1, Some newitems) /\
    extends h h1 /\
    mapM get_pokemon newitems h1 = (h1, Some (copy <$> ps)) /\
    rosters h1 = rosters h /\ dicts h1 = dicts h /\ agents h1 = agents h.
Proof.
  induction items as [|x items IH]; intros h ps Hps.
  - injection Hps as <-. exists h, []. cbn [mapM].
    split; [reflexivity|]. split; [apply extends_refl|]. auto.
  - apply mapM_get_cons in Hps as (p & ps' & -> & Hp & Hps').
    cbn [mapM]. rewrite !bind_run. unfold get_pokemon at 1. rewrite Hp.
    pose proof (frames_new_pokemon (copy p) h) as H1.
    destruct (new_pokemon (copy p) h) as [h1 r] eqn:E1. cbn [fst] in H1.
    assert (Hl : exists l, r = Some l /\ pokemons h1 !! l = Some (copy p) /\
                   rosters h1 = rosters h /\ dicts h1 = dicts h /\
                   agents h1 = agents h).
    { unfold new_pokemon in E1. injection E1 as <- <-. eexists.
      split; [reflexivity|]. cbn. split; [apply lookup_insert_eq|auto]. }
    destruct Hl as (l & -> & Hl & R1 & D1 & A1).
    pose proof (mapM_get_extends items h h1 ps' H1 Hps') as Hps1.
    destruct (IH h1 ps' Hps1) as (h2 & newitems & E2 & H2 & G2 & R2 & D2 & A2).
    rewrite bind_run, E2. cbn [ret].
    exists h2, (l :: newitems). split; [reflexivity|].
    split; [eapply extends_trans; eauto|].
    split; [|split; [congruence|split; congruence]].
    cbn [mapM]. rewrite bind_run. unfold get_pokemon at 1.
    destruct H2 as (Hp2 & _). rewrite (lookup_weaken _ _ _ _ Hl Hp2).
    rewrite bind_run, G2. reflexivity.
Qed.

Lemma new_roster_run items h h' r :
  new_roster items h = (h', r) ->
  exists l, r = Some l /\ (l ∉ dom (rosters h)) /\ extends h h' /\
    rosters h' !! l = Some items /\ dicts h' = dicts h /\ agents h' = agents h.
Proof.
  intros H. pose proof (frames_new_roster items h) as He. rewrite H in He.
  unfold new_roster in H. injection H as <- <-. eexists.
  split; [reflexivity|]. split; [apply is_fresh|]. split; [exact He|].
  split; [apply lookup_insert_eq|]. split; reflexivity.
Qed.

Lemma new_dict_run d h h' r :
  new_dict d h = (h', r) ->
  exists l, r = Some l /\ (l ∉ dom (dicts h)) /\ extends h h' /\
    dicts h' !! l = Some d /\ agents h' = agents h.
Proof.
  intros H. pose proof (frames_new_dict d h) as He. rewrite H in He.
  unfold new_dict in H. injection H as <- <-. eexists.
  split; [reflexivity|]. split; [apply is_fresh|]. split; [exact He|].
  split; [apply lookup_insert_eq|reflexivity].
Qed.

Lemma new_agent_run a h h' r :
  new_agent a h = (h', r) ->
  exists l, r = Some l /\ (l ∉ dom (agents h)) /\ extends h h' /\
    agents h' !! l = Some a.
Proof.
  intros H. pose proof (frames_new_agent a h) as He. rewrite H in He.
  unfold new_agent in H. injection H as <- <-. eexists.
  split; [reflexivity|]. split; [apply is_fresh|]. split; [exact He|].
  apply lookup_insert_eq.
Qed.

End DeepCopy.

(** X23: [cloneagent] makes a deep copy of the battle data: for an agent of
    the store it returns a new [Agent] object, with a new roster list, new
    [Pokemon] objects and a new dictionary, none of which existed before,
    and it changes no object that existed before.  The clone reads the same
    as the original in the fields [cloneagent] copies and a battle uses: the
    agent's [name], [coins], [fuel] and elixir counts, and each creature's
    [name], [ptype], [maxhp], [hp], [atk], [dfn] and [alive], in the order
    of the roster.  The fields it leaves at their defaults ([displayhp] and
    [boboffset] of a creature, [current_path] and [path_index] of an agent)
    and the two coordinates it passes on ([position], [targetpos]) are not
    part of the records. *)
Theorem X23_cloneagent_is_a_deep_copy (a : Store.loc) (h : Store.Heap) (v : Agent) :
  Store.snapshot a h = (h, Some v) ->
  exists l h',
    Store.cloneagent_h a h = (h', Some l) /\
    Store.extends h h' /\
    (l ∉ dom (Store.agents h)) /\
    Store.cloned h h' l /\
    (exists ag, Store.agents h' !! l = Some ag /\
                Store.oteam ag ∉ dom (Store.rosters h)) /\
    Store.snapshot l h' = (h', Some v).
Proof.
  unfold Store.snapshot at 1. rewrite !bind_run. unfold Store.get_agent at 1.
  destruct (Store.agents h !! a) as [ag|] eqn:Eag; [|discriminate].
  rewrite !bind_run. unfold Store.get_roster at 1.
  destruct (Store.rosters h !! Store.oteam ag) as [items|] eqn:Eit; [|discriminate].
  rewrite !bind_run.
  pose proof (mapM_get_pure items h) as Hh.
  destruct (Store.mapM Store.get_pokemon items h) as [h0 [ps|]] eqn:Eps;
    cbn [fst] in Hh; subst h0; [|discriminate].
  rewrite bind_run. unfold Store.get_dict at 1.
  destruct (Store.dicts h !! Store.oelixirs ag) as [d|] eqn:Ed; [|discriminate].
  intros [= <-].
  destruct (copies_values
              (fun p => mkPokemon (name p) (ptype p) (maxhp p) (hp p) (atk p)
                          (dfn p) (alive p)) items h ps Eps)
    as (h1 & newitems & E1 & H1 & G1 & R1 & D1 & A1).
  assert (Hid : (fun p => mkPokemon (name p) (ptype p) (maxhp p) (hp p) (atk p)
                            (dfn p) (alive p)) <$> ps = ps).
  { clear. induction ps as [|[] ps IH]; [reflexivity|]. cbn. f_equal. exact IH. }
  rewrite Hid in G1.
  destruct (Store.new_roster newitems h1) as [h2 r2] eqn:E2.
  pose proof E2 as E2'.
  apply new_roster_run in E2' as (rl & -> & Frl & H2 & R2 & D2 & A2).
  assert (Ed2 : Store.dicts h2 !! Store.oelixirs ag = Some d) by congruence.
  destruct (Store.new_dict d h2) as [h3 r3] eqn:E3.
  pose proof E3 as E3'.
  apply new_dict_run in E3' as (dl & -> & Fdl & H3 & D3 & A3).
  destruct (Store.new_agent
              (Store.mkAgentObj (Store.oname ag) rl (Store.ocoins ag)
                 (Store.ofuel ag) dl) h3) as [h4 r4] eqn:E4.
  pose proof E4 as E4'.
  apply new_agent_run in E4' as (al & -> & Fal & H4 & A4).
  assert (Hrun : Store.cloneagent_h a h = (h4, Some al)).
  { unfold Store.cloneagent_h. rewrite bind_run. unfold Store.get_agent. rewrite Eag.
    rewrite bind_run. unfold Store.get_roster. rewrite Eit.
    rewrite bind_run, E1. rewrite bind_run, E2.
    rewrite bind_run. unfold Store.get_dict. rewrite Ed2.
    rewrite bind_run, E3. exact E4. }
  pose proof (cloneagent_h_spec a h) as [Hext Hcl]. rewrite Hrun in Hext, Hcl.
  cbn [fst snd] in Hext, Hcl. exists al, h4.
  split; [exact Hrun|]. split; [exact Hext|].
  split; [rewrite A3, A2, A1 in Fal; exact Fal|].
  split; [apply Hcl; reflexivity|].
  split.
  { eexists. split; [exact A4|]. cbn. rewrite R1 in Frl. exact Frl. }
  assert (H14 : Store.extends h1 h4).
  { eapply extends_trans; [exact H2|]. eapply extends_trans; eauto. }
  assert (H24 : Store.extends h2 h4) by (eapply extends_trans; eauto).
  unfold Store.snapshot. rewrite bind_run. unfold Store.get_agent. rewrite A4.
  rewrite bind_run. unfold Store.get_roster. cbn [Store.oteam].
  destruct H24 as (_ & Hr24 & _). rewrite (lookup_weaken _ _ _ _ R2 Hr24).
  rewrite bind_run. rewrite (mapM_get_extends newitems h1 h4 ps H14 G1).
  rewrite bind_run. unfold Store.get_dict. cbn [Store.oelixirs].
  destruct H4 as (_ & _ & Hd34 & _). rewrite (lookup_weaken _ _ _ _ D3 Hd34).
  reflexivity.
Qed.


(** ** The properties at sample inputs *)

Lemma X9_legalactions_shape_witness :
  exists swaps heals,
    [ATTACK_act; DEFEND_act; mkAction SWAP (ArgInt 2); Samples.HEAL_large]
      = [ATTACK_act; DEFEND_act] ++ swaps ++ heals /\
    (swaps = [] \/
     exists i, swaps = [mkAction SWAP (ArgInt i)] /\
               swap_choice Samples.hurt_ash 0 Samples.weezing i) /\
    (heals = [] \/
     exists s, heals = [mkAction HEAL (ArgStr s)] /\ heal_choice Samples.hurt_ash s).
Proof.
  apply (X9_legalactions_shape Samples.hurt_ash 0 Samples.weezing).
  vm_compute. reflexivity.
Defined.

Lemma X10_generated_actions_take_effect_witness :
  illegal Samples.hurt_ash (mkAction SWAP (ArgInt 2)) = false /\
  2 <> 0 /\
  Phase3.apply Samples.hurt_ash (mkAction SWAP (ArgInt 2)) 0
    = Some (Samples.hurt_ash, 2).
Proof.
  apply (X10_generated_actions_take_effect Samples.hurt_ash 0 Samples.weezing
           [ATTACK_act; DEFEND_act; mkAction SWAP (ArgInt 2); Samples.HEAL_large]
           (mkAction SWAP (ArgInt 2))).
  - vm_compute. reflexivity.
  - right. right. left.
Defined.

Lemma X11_decide_action_returns_generated_action_witness :
  Samples.HEAL_large = ATTACK_act \/
  exists opppokemon acts,
    Py.index (team Samples.rocket0) (rocketactive Samples.bs_weezing)
      = Some opppokemon /\
    Search.legalactions Samples.hurt_ash (ashactive Samples.bs_weezing) opppokemon
      = Some acts /\
    Samples.HEAL_large ∈ acts.
Proof.
  apply (X11_decide_action_returns_generated_action Samples.keep_order Samples.rng_one
           true true Samples.hurt_ash Samples.rocket0 Samples.bs_weezing 2 0
           Samples.HEAL_large 16).
  - intros path acts. reflexivity.
  - vm_compute. reflexivity.
Defined.

Lemma X12_turn_keeps_the_books_witness :
  side_kept Samples.ash0 ATTACK_act Samples.ash0 /\
  side_kept Samples.rocket0 DEFEND_act Samples.rocket_hit /\
  fieldtype Samples.bs0 = fieldtype Samples.bs0 /\ (0 <= 1 <= 0 + 2)%nat.
Proof.
  apply (X12_turn_keeps_the_books Samples.ash0 Samples.rocket0 Samples.bs0
           ATTACK_act DEFEND_act Samples.rng_one 0
           Samples.ash0 Samples.rocket_hit Samples.bs0 1).
  vm_compute. reflexivity.
Defined.

Lemma X13_at_most_one_faint_per_turn_witness :
  Search.countalive (team Samples.ash0) <= Search.countalive (team Samples.ash0) /\
  Search.countalive (team Samples.rocket_hit) <= Search.countalive (team Samples.rocket0) /\
  Search.countalive (team Samples.ash0) + Search.countalive (team Samples.rocket0) - 1
    <= Search.countalive (team Samples.ash0) + Search.countalive (team Samples.rocket_hit).
Proof.
  apply (X13_at_most_one_faint_per_turn Samples.ash0 Samples.rocket0 Samples.bs0
           ATTACK_act DEFEND_act Samples.rng_one 0
           Samples.ash0 Samples.rocket_hit Samples.bs0 1).
  vm_compute. reflexivity.
Defined.

Lemma X14_turn_changes_active_creatures_only_witness :
  (forall n, Py.position (team Samples.ash0) 0 <> Some n ->
             team Samples.ash0 !! n = team Samples.ash0 !! n) /\
  (forall n, Py.position (team Samples.rocket0) 0 <> Some n ->
             team Samples.rocket_hit !! n = team Samples.rocket0 !! n).
Proof.
  apply (X14_turn_changes_active_creatures_only Samples.ash0 Samples.rocket0 Samples.bs0
           ATTACK_act DEFEND_act Samples.rng_one 0
           Samples.ash0 Samples.rocket_hit Samples.bs0 1
           Samples.ash0 Samples.rocket0 0 0).
  - reflexivity.
  - reflexivity.
  - vm_compute. reflexivity.
Defined.

Lemma X15_turn_keeps_health_invariant_witness :
  Forall wf_pokemon (team Samples.ash0) /\ Forall wf_pokemon (team Samples.rocket_hit).
Proof.
  assert (Hwf : forall n t, wf_pokemon (default_pokemon n t)).
  { intros n t. split; [unfold hp_in_range; simpl; lia|].
    split; simpl; [discriminate|lia]. }
  apply (X15_turn_keeps_health_invariant Samples.ash0 Samples.rocket0 Samples.bs0
           ATTACK_act DEFEND_act Samples.rng_one 0
           Samples.ash0 Samples.rocket_hit Samples.bs0 1).
  - intros j. unfold Samples.rng_one. discriminate.
  - repeat constructor; apply Hwf.
  - repeat constructor; apply Hwf.
  - vm_compute. reflexivity.
Defined.


Lemma X17_computedamage_bounds_witness :
  4 <= Phase3.computedamage (default_pokemon "Pikachu" "Electric")
         (default_pokemon "Meowth" "Electric") "Fire" 1
    <= 2 * Z.max 5 (22 - 10 / 2).
Proof.
  apply (X17_computedamage_bounds (default_pokemon "Pikachu" "Electric")
           (default_pokemon "Meowth" "Electric") "Fire" 1); discriminate.
Defined.

Lemma X18_astar_empty_iff_unreachable_witness :
  Astar.astar Astar.choose_first Samples.sealed_field (5, 5) Astar.enough_fuel (1, 1)
    = Astar.Returned [] /\
  (Astar.astar Astar.choose_first Samples.sealed_field (5, 5) Astar.enough_fuel (1, 1)
     = Astar.Returned []
   <-> ~ exists p, Astar.is_path Samples.sealed_field p (1, 1) (5, 5)).
Proof.
  split; [vm_compute; reflexivity|].
  apply (X18_astar_empty_iff_unreachable Astar.choose_first Samples.sealed_field
           (1, 1) (5, 5) Astar.enough_fuel).
  - apply choose_first_min.
  - split; [reflexivity|]. repeat constructor.
  - reflexivity.
  - lia.
Defined.

Lemma X22_astar_returns_on_the_field_witness :
  exists path,
    Astar.astar Astar.choose_first Samples.sealed_field (5, 5) Astar.enough_fuel (1, 1)
      = Astar.Returned path.
Proof.
  apply (X22_astar_returns_on_the_field Astar.choose_first Samples.sealed_field
           (1, 1) (5, 5) Astar.enough_fuel).
  - apply choose_first_min.
  - split; [reflexivity|]. repeat constructor.
  - reflexivity.
  - lia.
Defined.

Lemma X23_cloneagent_is_a_deep_copy_witness :
  exists l h',
    Store.cloneagent_h 1%positive Samples.opening_store = (h', Some l) /\
    Store.extends Samples.opening_store h' /\
    (l ∉ dom (Store.agents Samples.opening_store)) /\
    Store.cloned Samples.opening_store h' l /\
    (exists ag, Store.agents h' !! l = Some ag /\
                Store.oteam ag ∉ dom (Store.rosters Samples.opening_store)) /\
    Store.snapshot l h' = (h', Some Samples.ash0).
Proof.
  apply (X23_cloneagent_is_a_deep_copy 1%positive Samples.opening_store Samples.ash0).
  vm_compute. reflexivity.
Defined.

